(** * ProcessInput: the inbound-packet gateway of a NoFlo component

    A shallow embedding of [src/lib/ProcessInput.js].  The class keeps its
    collaborators (inports, node instance, processing context, result) in
    fields and mutates them in place; here they are the fields of one
    [State] record that is threaded through a state-and-exception monad.
    A thrown exception keeps the state reached so far, as in JavaScript. *)

From stdpp Require Import gmap strings list.

(** ** Packets *)

(** [ip.type] is one of the three strings 'data', 'openBracket',
    'closeBracket'. *)
Inductive IPType := data | openBracket | closeBracket.

(** [ip.data] is an arbitrary JavaScript value: a payload for data packets,
    a label for brackets. *)
Inductive value :=
| VUndefined
| VNull
| VNum (n : Z)
| VStr (s : string).

(** Modelled from the spec: the packet object (./IP), with its type tag
    and its payload.  The scope and index of a packet are those of the
    buffer partition that holds it. *)
Record IP := mkIP { ip_type : IPType; ip_data : value }.

#[global] Instance IPType_eq_dec : EqDecision IPType.
Proof. solve_decision. Defined.
#[global] Instance value_eq_dec : EqDecision value.
Proof. solve_decision. Defined.
#[global] Instance IP_eq_dec : EqDecision IP.
Proof. solve_decision. Defined.

(** What a read hands back: a packet, [undefined] (an empty port buffer) or
    [null] (the initial [dataIp] of a forwarding read). *)
Inductive maybeIP :=
| Undefined
| Null
| Pkt (ip : IP).

(** JavaScript's [!ip] and [packet == null]. *)
Definition falsy (p : maybeIP) : bool :=
  match p with Pkt _ => false | _ => true end.

(** ** Collaborators *)

Definition Scope := option string.
Definition Index := option nat.

(** Modelled from the spec: the port object (./InPort is not part of the
    sources).  It has a name, an addressable flag, an attachment list and an
    ordered queue of packets per (scope, index) partition. *)
Record InPort := mkInPort {
  addressable : bool;
  attachedSockets : list nat;
  buffers : gmap (Scope * Index) (list IP)
}.

Definition buffer (p : InPort) (sc : Scope) (idx : Index) : list IP :=
  default [] (buffers p !! (sc, idx)).

(** A bracket context frame [{ ip, ports, source }], later completed with
    [closeIp].  Frames are objects: the live stack, its snapshots and
    [__bracketClosingBefore] hold references to them. *)
Record BracketContext := mkBracketContext {
  ip : IP;
  bc_ports : list string;
  source : string;
  closeIp : option IP
}.

Definition ref := nat.

(** A validation callback.  A JavaScript function may close over mutable
    variables, so a callback is a step function over its own state. *)
Record Validator := mkValidator {
  vstate : Type;
  vinit : vstate;
  vstep : vstate -> IP -> vstate * bool
}.

(** [() => true] *)
Definition always_true : Validator :=
  {| vstate := unit; vinit := tt; vstep := fun _ _ => (tt, true) |}.

(** [(ip) => ip.type === 'data'] *)
Definition is_data_validator : Validator :=
  {| vstate := unit; vinit := tt;
     vstep := fun _ p => (tt, bool_decide (ip_type p = data)) |}.

(** ** State *)

(** The objects a [ProcessInput] holds: its inports, the scope and the
    activation mark of its processing context, the node instance and the
    result of the invocation.  Modelled from the spec: the node instance
    (./Component) with its identifier, ordering mode, load counter,
    forwarding inports and bracket stacks per (port, scope, index). *)
Record State := mkState {
  (* this.ports *)
  ports : gmap string InPort;
  (* this.scope *)
  scope : Scope;
  (* this.context.activated *)
  activated : bool;
  (* this.nodeInstance *)
  nodeId : string;
  ordered : bool;
  load : nat;
  forwardBrackets : gset string;
  bracketContext : gmap (string * Scope * Index) ref;
  (* this.result *)
  __resolved : option bool;
  __bracketClosingBefore : option (list ref);
  __bracketContext : option (gmap string ref);
  (* the arrays and frame objects reachable from the node and the result *)
  arrays : list (list ref);
  frames : list BracketContext
}.

Definition set_ports f (s : State) : State :=
  mkState (f (ports s)) (scope s) (activated s) (nodeId s) (ordered s) (load s)
    (forwardBrackets s) (bracketContext s) (__resolved s)
    (__bracketClosingBefore s) (__bracketContext s) (arrays s) (frames s).
Definition set_activated v (s : State) : State :=
  mkState (ports s) (scope s) v (nodeId s) (ordered s) (load s)
    (forwardBrackets s) (bracketContext s) (__resolved s)
    (__bracketClosingBefore s) (__bracketContext s) (arrays s) (frames s).
Definition set_load v (s : State) : State :=
  mkState (ports s) (scope s) (activated s) (nodeId s) (ordered s) v
    (forwardBrackets s) (bracketContext s) (__resolved s)
    (__bracketClosingBefore s) (__bracketContext s) (arrays s) (frames s).
Definition set_bracketContext f (s : State) : State :=
  mkState (ports s) (scope s) (activated s) (nodeId s) (ordered s) (load s)
    (forwardBrackets s) (f (bracketContext s)) (__resolved s)
    (__bracketClosingBefore s) (__bracketContext s) (arrays s) (frames s).
Definition set___resolved v (s : State) : State :=
  mkState (ports s) (scope s) (activated s) (nodeId s) (ordered s) (load s)
    (forwardBrackets s) (bracketContext s) v
    (__bracketClosingBefore s) (__bracketContext s) (arrays s) (frames s).
Definition set___bracketClosingBefore v (s : State) : State :=
  mkState (ports s) (scope s) (activated s) (nodeId s) (ordered s) (load s)
    (forwardBrackets s) (bracketContext s) (__resolved s)
    v (__bracketContext s) (arrays s) (frames s).
Definition set___bracketContext v (s : State) : State :=
  mkState (ports s) (scope s) (activated s) (nodeId s) (ordered s) (load s)
    (forwardBrackets s) (bracketContext s) (__resolved s)
    (__bracketClosingBefore s) v (arrays s) (frames s).
Definition set_arrays f (s : State) : State :=
  mkState (ports s) (scope s) (activated s) (nodeId s) (ordered s) (load s)
    (forwardBrackets s) (bracketContext s) (__resolved s)
    (__bracketClosingBefore s) (__bracketContext s) (f (arrays s)) (frames s).
Definition set_frames f (s : State) : State :=
  mkState (ports s) (scope s) (activated s) (nodeId s) (ordered s) (load s)
    (forwardBrackets s) (bracketContext s) (__resolved s)
    (__bracketClosingBefore s) (__bracketContext s) (arrays s) (f (frames s)).

(** ** Exceptions and the monad *)

(** The errors the class throws with [throw new Error(...)], and the
    [TypeError] the engine raises on a property access through
    [undefined]. *)
Inductive Exception :=
| NoPortError (node port : string)
    (* `Node ${nodeId} has no port '${port}'` *)
| NonAddressableError (port : string)
    (* `Non-addressable ports, access must be with string ${port}` *)
| AddressableError (port : string)
    (* `For addressable ports, access must be with array [${port}, idx]` *)
| TypeError (access : string).

(** How a call ends: it returns, or it throws.  [OutOfFuel] marks a loop
    stopped at its iteration bound; the bounds are computed from the
    buffers and cover every loop, so no read ends that way. *)
Inductive Outcome (A : Type) :=
| Return (a : A)
| Throw (e : Exception)
| OutOfFuel.
Arguments Return {A} a.
Arguments Throw {A} e.
Arguments OutOfFuel {A}.

Definition M (A : Type) := State -> Outcome A * State.

Definition ret {A} (a : A) : M A := fun s => (Return a, s).
Definition throw {A} (e : Exception) : M A := fun s => (Throw e, s).
Definition out_of_fuel {A} : M A := fun s => (OutOfFuel, s).
Definition bind {A B} (m : M A) (k : A -> M B) : M B :=
  fun s =>
    match m s with
    | (Return a, s') => k a s'
    | (Throw e, s') => (Throw e, s')
    | (OutOfFuel, s') => (OutOfFuel, s')
    end.
Definition gets {A} (f : State -> A) : M A := fun s => (Return (f s), s).
Definition modify (f : State -> State) : M unit := fun s => (Return tt, f s).

Notation "'let*' x ':=' c1 'in' c2" := (bind c1 (fun x => c2))
  (at level 10, x name, c1 at level 100, c2 at level 200).
Notation "c1 ;;; c2" := (bind c1 (fun _ => c2))
  (at level 100, c2 at level 200, right associativity).

(** The error taxonomy of the specification. *)
Inductive ErrorKind := UnknownPort | AddressabilityMismatch | Crash.

Definition kind (e : Exception) : ErrorKind :=
  match e with
  | NoPortError _ _ => UnknownPort
  | NonAddressableError _ | AddressableError _ => AddressabilityMismatch
  | TypeError _ => Crash
  end.

(** ** Port and node operations *)

(** [this.ports[name]] followed by a method call: a missing port is
    [undefined], and calling a method on it raises a TypeError. *)
Definition port_deref (name method : string) : M InPort :=
  fun s =>
    match ports s !! name with
    | Some p => (Return p, s)
    | None => (Throw (TypeError method), s)
    end.

(** Modelled from the spec: [port.has(scope, idx?, validate)], the
    existence check of ./InPort.  It peeks at the partition front to back,
    calls the predicate on each packet and stops at the first match;
    nothing is consumed. *)
Fixpoint scan {V : Type} (step : V -> IP -> V * bool) (v : V) (buf : list IP)
  : V * bool :=
  match buf with
  | [] => (v, false)
  | p :: rest =>
      let '(v', b) := step v p in
      if b then (v', true) else scan step v' rest
  end.

(** [port.has(scope, idx, validate)] on the partition (scope, index). *)
Definition InPort_has (p : InPort) (sc : Scope) (idx : Index)
    (validate : Validator) (v : vstate validate) : vstate validate * bool :=
  scan (vstep validate) v (buffer p sc idx).

(** The port with the partition (scope, index) replaced. *)
Definition with_buffer (p : InPort) (sc : Scope) (idx : Index)
    (buf : list IP) : InPort :=
  mkInPort (addressable p) (attachedSockets p) (<[(sc, idx) := buf]> (buffers p)).

(** Modelled from the spec: [port.get(scope, idx)], the dequeue of
    ./InPort.  It removes and returns the oldest packet of the partition,
    or returns [undefined] when the partition is empty. *)
Definition InPort_get (p : InPort) (sc : Scope) (idx : Index)
  : maybeIP * InPort :=
  match buffer p sc idx with
  | [] => (Undefined, p)
  | x :: rest => (Pkt x, with_buffer p sc idx rest)
  end.

(** [this.ports[port].get(scope, idx)] *)
Definition port_get (port : string) (sc : Scope) (idx : Index) : M maybeIP :=
  let* p := port_deref port "get" in
  let '(r, p') := InPort_get p sc idx in
  match r with
  | Pkt _ => modify (set_ports (insert port p')) ;;; ret r
  | _ => ret r
  end.

(** Modelled from the spec: [nodeInstance.activate(context)] of
    ./Component marks the invocation activated and increments the load. *)
Definition nodeInstance_activate : M unit :=
  modify (fun s => set_load (S (load s)) (set_activated true s)).

(** Modelled from the spec: [nodeInstance.isOrdered()] of ./Component, the
    "ordered" flag of the node. *)
Definition isOrdered : M bool := gets ordered.

(** Modelled from the spec: [nodeInstance.isForwardingInport(name)], the
    membership test on the forwarding inports. *)
Definition isForwardingInport (port : string) : M bool :=
  gets (fun s => bool_decide (port ∈ forwardBrackets s)).

(** Modelled from the spec:
    [nodeInstance.getBracketContext('in', port, scope, idx)] returns the
    mutable stack kept under the composite key, creating an empty one the
    first time the key is used. *)
Definition getBracketContext (port : string) (sc : Scope) (idx : Index)
  : M ref :=
  fun s =>
    match bracketContext s !! (port, sc, idx) with
    | Some r => (Return r, s)
    | None =>
        let r := length (arrays s) in
        (Return r,
         set_bracketContext (insert (port, sc, idx) r)
           (set_arrays (fun a => a ++ [[]]) s))
    end.

(** Array and object primitives over the store. *)
Definition array_read (r : ref) (s : State) : list ref :=
  default [] (arrays s !! r).

(** [arr.pop()]: removes and returns the last element, [undefined] on an
    empty array. *)
Definition array_pop (r : ref) : M (option ref) :=
  fun s =>
    let l := array_read r s in
    match last l with
    | None => (Return None, s)
    | Some x => (Return (Some x), set_arrays (<[r := removelast l]>) s)
    end.

(** [arr.push(x)] *)
Definition array_push (r : ref) (x : ref) : M unit :=
  modify (fun s => set_arrays (<[r := array_read r s ++ [x]]>) s).

(** [arr.slice(0)]: a new array with the same elements. *)
Definition array_slice (r : ref) : M ref :=
  fun s =>
    (Return (length (arrays s)),
     set_arrays (fun a => a ++ [array_read r s]) s).

(** An object literal [{ ip, ports: [], source }]. *)
Definition new_frame (fr : BracketContext) : M ref :=
  fun s => (Return (length (frames s)), set_frames (fun f => f ++ [fr]) s).

(** [context.closeIp = ip] on a frame object. *)
Definition set_closeIp (c : ref) (p : IP) : M unit :=
  modify (set_frames (fun f =>
    match f !! c with
    | Some fr =>
        <[c := mkBracketContext (ip fr) (bc_ports fr) (source fr) (Some p)]> f
    | None => f
    end)).

(** Number of packets waiting in a partition: the bound on the number of
    iterations of a loop that dequeues from it. *)
Definition pending (s : State) (port : string) (idx : Index) : nat :=
  match ports s !! port with
  | Some p => length (buffer p (scope s) idx)
  | None => 0
  end.

(** ** The gateway *)

(** A port argument: a plain name, or an array [[name, idx]]. *)
Inductive portref :=
| PName (name : string)
| PIdx (name : string) (idx : nat).

(** An argument of [has] or [hasStream]: a port argument or a function. *)
Inductive param (F : Type) :=
| Port (p : portref)
| Fn (f : F).
Arguments Port {F} p.
Arguments Fn {F} f.

(** What a method returns for one port argument or for several. *)
Inductive OneOrMany (A : Type) :=
| One (a : A)
| Many (l : list A).
Arguments One {A} a.
Arguments Many {A} l.

(** [if (!args.length) { args = ['in']; }] *)
Definition default_in {A} (dflt : A) (args : list A) : list A :=
  match args with [] => [dflt] | _ => args end.

(** *** activate *)

Definition activate : M unit :=
  let* act := gets activated in
  if act then ret tt
  else
    (let* ord := isOrdered in
     if ord then modify (set___resolved (Some false)) else ret tt) ;;;
    nodeInstance_activate.

(** *** attached *)

Fixpoint attached_forEach (args : list string) (res : list (list nat))
  : M (list (list nat)) :=
  match args with
  | [] => ret res
  | port :: rest =>
      let* found := gets (fun s => ports s !! port) in
      match found with
      | None =>
          let* node := gets nodeId in throw (NoPortError node port)
      | Some p => attached_forEach rest (res ++ [attachedSockets p])
      end
  end.

Definition attached (params : list string)
  : M (OneOrMany (option (list nat))) :=
  let args := default_in "in"%string params in
  let* res := attached_forEach args [] in
  if length args =? 1 then ret (One (last res)) else ret (Many (Some <$> res)).

(** *** has *)

(** [params.filter((p) => typeof p === 'string')] *)
Definition string_params {F} (params : list (param F)) : list portref :=
  omap (fun p => match p with
                 | Port (PName n) => Some (PName n)
                 | _ => None
                 end) params.

(** The trailing function of an argument list, if there is one. *)
Definition last_function {F} (params : list (param F)) : option F :=
  match last params with
  | Some (Fn f) => Some f
  | _ => None
  end.

Fixpoint has_loop (validate : Validator) (args : list portref)
    (v : vstate validate) : M bool :=
  match args with
  | [] => ret true
  | PIdx name idx :: rest =>
      let* found := gets (fun s => ports s !! name) in
      match found with
      | None => let* node := gets nodeId in throw (NoPortError node name)
      | Some p =>
          if negb (addressable p) then throw (NonAddressableError name)
          else
            let* sc := gets scope in
            let '(v', b) := InPort_has p sc (Some idx) validate v in
            if b then has_loop validate rest v' else ret false
      end
  | PName name :: rest =>
      let* found := gets (fun s => ports s !! name) in
      match found with
      | None => let* node := gets nodeId in throw (NoPortError node name)
      | Some p =>
          if addressable p then throw (AddressableError name)
          else
            let* sc := gets scope in
            let '(v', b) := InPort_has p sc None validate v in
            if b then has_loop validate rest v' else ret false
      end
  end.

Definition has (params : list (param Validator)) : M bool :=
  let args := default_in (PName "in") (string_params params) in
  let validate := default always_true (last_function params) in
  has_loop validate args (vinit validate).

(** *** hasData *)

Definition hasData (params : list portref) : M bool :=
  let args := default_in (PName "in") params in
  has ((Port <$> args) ++ [Fn is_data_validator]).

(** *** hasStream *)

(** A stream validation callback [validateStream(ip, portBrackets)]. *)
Definition StreamValidator := IP -> list value -> bool.

(** The closure [validate] built for each port; its state is the pair of
    the captured variables [portBrackets] and [hasData]. *)
Definition stream_validate (validateStream : StreamValidator) : Validator :=
  {| vstate := list value * bool;
     vinit := ([], false);
     vstep := fun '(portBrackets, hasData) p =>
       match ip_type p with
       | openBracket => ((portBrackets ++ [ip_data p], hasData), false)
       | data =>
           let hasData' := validateStream p portBrackets in
           ((portBrackets, hasData'),
            match portBrackets with [] => hasData' | _ => false end)
       | closeBracket =>
           let portBrackets' := removelast portBrackets in
           ((portBrackets', hasData),
            match portBrackets' with [] => hasData | _ => false end)
       end |}.

(** An argument of [hasStream] handed on to [has] as its first argument.
    [has] only asks of a non-final argument whether it is a string. *)
Definition as_has_param (p : param StreamValidator) : param Validator :=
  match p with
  | Port r => Port r
  | Fn _ => Fn always_true
  end.

Fixpoint hasStream_loop (validateStream : StreamValidator)
    (args : list (param StreamValidator)) : M bool :=
  match args with
  | [] => ret true
  | port :: rest =>
      let* b := has [as_has_param port; Fn (stream_validate validateStream)] in
      if b then hasStream_loop validateStream rest else ret false
  end.

Definition hasStream (params : list (param StreamValidator)) : M bool :=
  let args := default_in (Port (PName "in")) params in
  match last_function args with
  | Some validateStream => hasStream_loop validateStream (removelast args)
  | None => hasStream_loop (fun _ _ => true) args
  end.

(** *** __getForForwarding *)

(** The [while (ok)] loop: read packets until a data packet or the end of
    the buffer, collecting the packets before it in [prefix]. *)
Fixpoint read_until_data (fuel : nat) (port : string) (idx : Index)
    (prefix : list IP) : M (list IP * maybeIP) :=
  match fuel with
  | 0 => out_of_fuel
  | S fuel' =>
      let* sc := gets scope in
      let* got := port_get port sc idx in
      match got with
      | Pkt p =>
          match ip_type p with
          | data => ret (prefix, Pkt p)
          | _ => read_until_data fuel' port idx (prefix ++ [p])
          end
      | _ => ret (prefix, Null)
      end
  end.

(** The body of the [for] loop over [prefix]. *)
Definition forward_step (port : string) (idx : Index) (p : IP) : M unit :=
  match ip_type p with
  | closeBracket =>
      (let* closing := gets __bracketClosingBefore in
       match closing with
       | None => modify (set___bracketClosingBefore (Some []))
       | Some _ => ret tt
       end) ;;;
      let* sc := gets scope in
      let* stack := getBracketContext port sc idx in
      let* context := array_pop stack in
      match context with
      | None => throw (TypeError "closeIp")
      | Some c =>
          set_closeIp c p ;;;
          modify (fun s =>
            set___bracketClosingBefore
              (Some (default [] (__bracketClosingBefore s) ++ [c])) s)
      end
  | openBracket =>
      let* sc := gets scope in
      let* stack := getBracketContext port sc idx in
      let* c := new_frame (mkBracketContext p [] port None) in
      array_push stack c
  | data => ret tt
  end.

Fixpoint forward_prefix (port : string) (idx : Index) (prefix : list IP)
  : M unit :=
  match prefix with
  | [] => ret tt
  | p :: rest => forward_step port idx p ;;; forward_prefix port idx rest
  end.

(** The end of [__getForForwarding]: the current bracket context of the
    port is copied into [result.__bracketContext[port]]. *)
Definition snapshot_context (port : string) (idx : Index) : M unit :=
  (let* bc := gets __bracketContext in
   match bc with
   | None => modify (set___bracketContext (Some ∅))
   | Some _ => ret tt
   end) ;;;
  let* sc := gets scope in
  let* stack := getBracketContext port sc idx in
  let* snapshot := array_slice stack in
  modify (fun s =>
    set___bracketContext
      (Some (<[port := snapshot]> (default ∅ (__bracketContext s)))) s).

Definition __getForForwarding (port : string) (idx : Index) : M maybeIP :=
  let* bound := gets (fun s => pending s port idx) in
  let* read := read_until_data (S bound) port idx [] in
  let '(prefix, dataIp) := read in
  forward_prefix port idx prefix ;;;
  snapshot_context port idx ;;;
  ret dataIp.

(** *** get *)

Definition get_port (port : portref) : M maybeIP :=
  let* checked :=
    match port with
    | PIdx portname idx =>
        let* p := port_deref portname "isAddressable" in
        if negb (addressable p) then throw (NonAddressableError "portname")
        else ret (portname, Some idx)
    | PName portname =>
        let* p := port_deref portname "isAddressable" in
        if addressable p then throw (AddressableError "portname")
        else ret (portname, None)
    end in
  let '(portname, idx) := checked in
  let* forwarding := isForwardingInport portname in
  if forwarding then __getForForwarding portname idx
  else
    let* sc := gets scope in
    port_get portname sc idx.

Fixpoint get_loop (args : list portref) (res : list maybeIP)
  : M (list maybeIP) :=
  match args with
  | [] => ret res
  | port :: rest =>
      let* p := get_port port in
      get_loop rest (res ++ [p])
  end.

Definition get (params : list portref) : M (OneOrMany maybeIP) :=
  activate ;;;
  let args := default_in (PName "in") params in
  let* res := get_loop args [] in
  if length args =? 1 then ret (One (nth 0 res Undefined)) else ret (Many res).

(** [this.get(port)] with one argument returns [res[0]]. *)
Definition get1 (port : portref) : M maybeIP :=
  let* r := get [port] in
  match r with
  | One p => ret p
  | Many _ => ret Undefined
  end.

(** The name and the index of a port argument, and the access form that
    fits the port: a plain name for a plain port, a pair for an addressable
    one. *)
Definition ref_name (port : portref) : string :=
  match port with PName n => n | PIdx n _ => n end.

Definition ref_index (port : portref) : Index :=
  match port with PName _ => None | PIdx _ i => Some i end.

Definition well_addressed (port : portref) (p : InPort) : Prop :=
  addressable p = match port with PName _ => false | PIdx _ _ => true end.

(** The partition a port argument designates. *)
Definition pending_ref (s : State) (port : portref) : nat :=
  match port with
  | PName n => pending s n None
  | PIdx n i => pending s n (Some i)
  end.

(** *** getData *)

(** [while (packet.type !== 'data') { packet = this.get(port);
    if (!packet) { break; } }] *)
Fixpoint getData_while (fuel : nat) (port : portref) (packet : IP)
  : M maybeIP :=
  match ip_type packet with
  | data => ret (Pkt packet)
  | _ =>
      match fuel with
      | 0 => out_of_fuel
      | S fuel' =>
          let* next := get1 port in
          match next with
          | Pkt p => getData_while fuel' port p
          | _ => ret next
          end
      end
  end.

(** The payload pushed for an absent packet is the packet itself. *)
Definition absent_value (p : maybeIP) : value :=
  match p with
  | Null => VNull
  | _ => VUndefined
  end.

Definition getData_port (port : portref) : M value :=
  let* packet := get1 port in
  match packet with
  | Pkt p =>
      let* bound := gets (fun s => pending_ref s port) in
      let* found := getData_while (S bound) port p in
      match found with
      | Pkt d => ret (ip_data d)
      | _ => throw (TypeError "data")
      end
  | _ => ret (absent_value packet)
  end.

Fixpoint getData_forEach (args : list portref) (datas : list value)
  : M (list value) :=
  match args with
  | [] => ret datas
  | port :: rest =>
      let* d := getData_port port in
      getData_forEach rest (datas ++ [d])
  end.

Definition getData (params : list portref) : M (OneOrMany value) :=
  let args := default_in (PName "in") params in
  let* datas := getData_forEach args [] in
  if length args =? 1 then ret (One (default VUndefined (last datas)))
  else ret (Many datas).

(** *** getStream *)

(** The loop variables of one port. *)
Record StreamVars := mkStreamVars {
  portBrackets : list value;
  portPackets : list IP;
  hasData_seen : bool
}.

(** One pass through the body of [while (ip)], up to the next read; the
    boolean tells whether the body left the loop with [break]. *)
Definition stream_body (v : StreamVars) (p : IP) : StreamVars * bool :=
  match ip_type p with
  | openBracket =>
      let v' :=
        match portBrackets v with
        | [] => mkStreamVars [] [] false
        | _ => v
        end in
      (mkStreamVars (portBrackets v' ++ [ip_data p]) (portPackets v' ++ [p])
         (hasData_seen v'), false)
  | data =>
      (mkStreamVars (portBrackets v) (portPackets v ++ [p]) true,
       match portBrackets v with [] => true | _ => false end)
  | closeBracket =>
      let brackets := removelast (portBrackets v) in
      (mkStreamVars brackets (portPackets v ++ [p]) (hasData_seen v),
       hasData_seen v && match brackets with [] => true | _ => false end)
  end.

Fixpoint getStream_while (fuel : nat) (port : portref) (current : maybeIP)
    (v : StreamVars) : M (list IP) :=
  match current with
  | Pkt p =>
      let '(v', stop) := stream_body v p in
      if stop then ret (portPackets v')
      else
        match fuel with
        | 0 => out_of_fuel
        | S fuel' =>
            let* next := get1 port in
            getStream_while fuel' port next v'
        end
  | _ => ret (portPackets v)
  end.

(** An entry of [datas]: [undefined], or the packets of a stream. *)
Inductive StreamEntry :=
| SUndefined
| SPackets (l : list IP).

Definition getStream_port (port : portref) : M (list StreamEntry) :=
  let* first := get1 port in
  let* bound := gets (fun s => pending_ref s port) in
  let* packets := getStream_while (S bound) port first (mkStreamVars [] [] false) in
  ret ((if falsy first then [SUndefined] else []) ++ [SPackets packets]).

Fixpoint getStream_loop (args : list portref) (datas : list StreamEntry)
  : M (list StreamEntry) :=
  match args with
  | [] => ret datas
  | port :: rest =>
      let* pushed := getStream_port port in
      getStream_loop rest (datas ++ pushed)
  end.

Definition getStream (params : list portref) : M (OneOrMany StreamEntry) :=
  let args := default_in (PName "in") params in
  let* datas := getStream_loop args [] in
  if length args =? 1 then ret (One (default SUndefined (last datas)))
  else ret (Many datas).

(** ** Concrete configurations *)

(** A port with one unscoped partition, under index [idx]. *)
Definition port_with (addr : bool) (idx : Index) (buf : list IP) : InPort :=
  mkInPort addr [] (<[(None, idx) := buf]> ∅).

(** A node before its first activation: no bracket context, an empty
    result, nothing allocated. *)
Definition fresh_node (ps : gmap string InPort) (fwd : gset string)
    (ord : bool) : State :=
  mkState ps None false "node" ord 0 fwd ∅ None None None [] [].

Definition D (n : Z) : IP := mkIP data (VNum n).
Definition OB (l : string) : IP := mkIP openBracket (VStr l).
Definition CB (l : string) : IP := mkIP closeBracket (VStr l).

(** A node with an addressable port "p" holding a data packet under index
    0, a plain port "q" holding one, and an empty plain port "in". *)
Definition pairs_node : State :=
  fresh_node (<["p" := port_with true (Some 0) [D 1]]>
             (<["q" := port_with false None [D 2]]>
             (<["in" := port_with false None []]> ∅))) ∅ false.

(** Two plain, non-forwarding ports: "in" holds one opening bracket,
    "other" holds a data packet. *)
Definition bracket_only_node : State :=
  fresh_node (<["in" := port_with false None [OB "a"]]>
             (<["other" := port_with false None [D 1]]> ∅)) ∅ false.

(** A node whose only port is "in". *)
Definition one_port_node : State :=
  fresh_node (<["in" := port_with false None [D 1]]> ∅) ∅ false.


(** An ordered node whose only port, "in", holds one data packet. *)
Definition ordered_node : State :=
  fresh_node (<["in" := port_with false None [D 1]]> ∅) ∅ true.

Definition three_reads : list (list portref) :=
  [[PName "in"]; [PName "nope"]; []].

(** ** Sequences of calls *)

(** A precondition query of the component logic. *)
Inductive query :=
| QHas (params : list (param Validator))
| QHasData (params : list portref)
| QHasStream (params : list (param StreamValidator)).

Definition run_query (q : query) : M bool :=
  match q with
  | QHas params => has params
  | QHasData params => hasData params
  | QHasStream params => hasStream params
  end.

(** The state after a series of queries, whatever each one answers or
    throws. *)
Definition after_queries (qs : list query) (s : State) : State :=
  foldl (fun st q => snd (run_query q st)) s qs.

(** The state after a series of [get] calls of one invocation, whatever
    each one returns or throws. *)
Definition after_gets (calls : list (list portref)) (s : State) : State :=
  foldl (fun st params => snd (get params st)) s calls.

(** ** Relations between the state before and after a computation *)

(** [m] relates every state to the state it leaves, in every outcome. *)
Definition preserves {A} (R : relation State) (m : M A) : Prop :=
  forall s, R s (snd (m s)).

(** The activation record of an invocation: the activated mark, the load
    of the node, its ordering mode and the resolved flag of the result. *)
Definition same_activation (s s' : State) : Prop :=
  activated s' = activated s /\ load s' = load s
  /\ ordered s' = ordered s /\ __resolved s' = __resolved s.

(** ** Bracket stacks and buffers *)

(** The live bracket stack of a port, and the array that holds it. *)
Definition stack_ref (s : State) (port : string) (idx : Index) : option ref :=
  bracketContext s !! (port, scope s, idx).

Definition stack_of (s : State) (port : string) (idx : Index) : list ref :=
  match stack_ref s port idx with
  | Some r => array_read r s
  | None => []
  end.

(** The stack registered for the port, if any, is an allocated array. *)
Definition live_ok (s : State) (port : string) (idx : Index) : Prop :=
  match stack_ref s port idx with
  | Some r => r < length (arrays s)
  | None => True
  end.

(** The snapshot array stored in the result for a port. *)
Definition snapshot_ref (s : State) (port : string) : option ref :=
  match __bracketContext s with
  | Some m => m !! port
  | None => None
  end.

(** The packets of a buffer before its first data packet, and that data
    packet. *)
Fixpoint bracket_prefix (buf : list IP) : list IP :=
  match buf with
  | [] => []
  | p :: rest =>
      match ip_type p with
      | data => []
      | _ => p :: bracket_prefix rest
      end
  end.

Fixpoint first_data (buf : list IP) : maybeIP :=
  match buf with
  | [] => Null
  | p :: rest =>
      match ip_type p with
      | data => Pkt p
      | _ => first_data rest
      end
  end.

(** A closing bracket of the prefix meets an empty stack, when the stack
    holds [depth] frames at the start. *)
Fixpoint underflows (depth : nat) (prefix : list IP) : bool :=
  match prefix with
  | [] => false
  | p :: rest =>
      match ip_type p with
      | closeBracket =>
          match depth with
          | 0 => true
          | S d => underflows d rest
          end
      | openBracket => underflows (S depth) rest
      | data => underflows depth rest
      end
  end.

(** A push or a pop on an array. *)
Inductive stack_op :=
| Push (x : ref)
| Pop.

Definition apply_stack_op (r : ref) (op : stack_op) : M unit :=
  match op with
  | Push x => array_push r x
  | Pop => array_pop r ;;; ret tt
  end.

Definition after_stack_ops (r : ref) (ops : list stack_op) (s : State)
  : State :=
  foldl (fun st op => snd (apply_stack_op r op st)) s ops.

(** The state differs from [s] in its ports at most. *)
Definition ports_only (s s' : State) : Prop :=
  s' = set_ports (fun _ => ports s') s.

(** The state differs from [s] in its activation record at most. *)
Definition activation_only (s s' : State) : Prop :=
  s' = set___resolved (__resolved s')
         (set_load (load s') (set_activated (activated s') s)).

(** ** The stream loop as a function of the buffer *)

Definition no_stream : StreamVars := mkStreamVars [] [] false.

(** The packets [getStream] collects from a buffer read packet by packet,
    starting with the loop variables [v]. *)
Fixpoint assemble (v : StreamVars) (buf : list IP) : list IP :=
  match buf with
  | [] => portPackets v
  | p :: rest =>
      let '(v', stop) := stream_body v p in
      if stop then portPackets v' else assemble v' rest
  end.

(** The loop variables after the packets [pre], when the loop is still
    running after them. *)
Fixpoint stream_vars_after (v : StreamVars) (pre : list IP)
  : option StreamVars :=
  match pre with
  | [] => Some v
  | p :: rest =>
      let '(v', stop) := stream_body v p in
      if stop then None else stream_vars_after v' rest
  end.

(** A plain port "in" holding a bracket that is never closed around a
    complete bracketed stream. *)
Definition unclosed_node : State :=
  fresh_node
    (<["in" := port_with false None [OB "a"; D 1; OB "b"; D 2; CB "b"]]> ∅)
    ∅ false.

(** A plain port "in" holding a stray closing bracket before a stream. *)
Definition stray_close_node : State :=
  fresh_node
    (<["in" := port_with false None [CB "z"; OB "b"; D 2; CB "b"]]> ∅)
    ∅ false.

(** The stack of the port lives in the array [r] and holds [l]. *)
Definition stack_is (s : State) (port : string) (idx : Index) (r : ref)
    (l : list ref) : Prop :=
  stack_ref s port idx = Some r /\ arrays s !! r = Some l.

(** A forwarding plain port "in" whose buffer starts with a closing
    bracket, on a node with no bracket context. *)
Definition close_first_node : State :=
  fresh_node (<["in" := port_with false None [CB "a"; D 1]]> ∅) {["in"]} false.

(** An outcome that reports a defect with an error of the gateway's own,
    as opposed to a crash of the engine. *)
Definition surfaced_as_defect {A} (o : Outcome A) : Prop :=
  exists e, o = Throw e /\ kind e <> Crash.

(** A forwarding plain port "in" holding one bracketed data packet, on an
    ordered node with no bracket context. *)
Definition bracketed_node : State :=
  fresh_node (<["in" := port_with false None [OB "L"; D 7; CB "L"]]> ∅)
    {["in"]} true.

(** ** Termination of the loops *)

(** [m] never stops for lack of fuel: the bound given to every loop covers
    the iterations the loop makes. *)
Definition total {A} (m : M A) : Prop :=
  forall s, fst (m s) <> OutOfFuel.

(** The state keeps its ports and its scope. *)
Definition same_buffers (s s' : State) : Prop :=
  ports s' = ports s /\ scope s' = scope s.

(** ** getData as a function of the buffer *)

(** What [getData] makes of the buffer of a plain, non-forwarding port: an
    absent value for an empty buffer, the payload of the first data packet,
    and a TypeError when the buffer holds brackets only. *)
Definition read_value (buf : list IP) : Outcome (OneOrMany value) :=
  match buf with
  | [] => Return (One VUndefined)
  | _ =>
      match first_data buf with
      | Pkt d => Return (One (ip_data d))
      | _ => Throw (TypeError "data")
      end
  end.

(** ** Well-formed stores *)

(** Every registered bracket stack is an allocated array. *)
Definition wf_stacks (s : State) : Prop :=
  forall k r, bracketContext s !! k = Some r -> r < length (arrays s).

Definition keeps_wf (s s' : State) : Prop := wf_stacks s -> wf_stacks s'.

(** ** Stateless predicates and plain ports *)

(** A callback [(ip) => f(ip)] that keeps no state of its own. *)
Definition pure_validator (f : IP -> bool) : Validator :=
  {| vstate := unit; vinit := tt; vstep := fun _ p => (tt, f p) |}.

(** The port [n] is registered, plain, and one of the packets waiting in
    its partition of the current scope satisfies [f]. *)
Definition plain_port_holds (f : IP -> bool) (s : State) (n : string) : Prop :=
  exists p, ports s !! n = Some p /\ addressable p = false
            /\ existsb f (buffer p (scope s) None) = true.

(** [(ip) => ip.type === 'data'] as a boolean function. *)
Definition is_data (p : IP) : bool := bool_decide (ip_type p = data).

(** A node with two plain ports holding a data packet each, one of them
    behind an opening bracket. *)
Definition two_ports_node : State :=
  fresh_node (<["a" := port_with false None [OB "x"; D 1]]>
             (<["b" := port_with false None [D 2]]> ∅)) ∅ false.

(** An addressable port "in" attached at the indices 0 and 2, and a plain
    port "b" attached once. *)
Definition attached_node : State :=
  fresh_node (<["in" := mkInPort true [0; 2] ∅]>
             (<["b" := mkInPort false [0] ∅]> ∅)) ∅ false.

(** ** Complete streams *)

(** The loop of [getStream] leaves by [break] somewhere in the buffer. *)
Definition completes (buf : list IP) : bool :=
  match stream_vars_after no_stream buf with
  | None => true
  | Some _ => false
  end.

(** The packets of a buffer that the loop of [getStream] has not read when
    it ends. *)
Fixpoint stream_rest (v : StreamVars) (buf : list IP) : list IP :=
  match buf with
  | [] => []
  | p :: rest =>
      let '(v', stop) := stream_body v p in
      if stop then rest else stream_rest v' rest
  end.

(** A plain port "in" holding a stray closing bracket, a bracketed stream
    and one more data packet. *)
Definition stream_and_more_node : State :=
  fresh_node
    (<["in" := port_with false None [CB "z"; OB "b"; D 2; CB "b"; D 3]]> ∅)
    ∅ false.

(** A plain port "in" holding one bracketed stream of two data packets. *)
Definition two_data_node : State :=
  fresh_node (<["in" := port_with false None [OB "b"; D 1; D 2; CB "b"]]> ∅)
    ∅ false.

(** A stream predicate that accepts the payload 1 only. *)
Definition accepts_one : StreamValidator :=
  fun p _ => bool_decide (ip_data p = VNum 1).

(** ** Repeated reads *)

(** What [n] successive calls [get(port)] return. *)
Fixpoint reads (n : nat) (port : portref) (s : State)
  : list (Outcome (OneOrMany maybeIP)) :=
  match n with
  | 0 => []
  | S n' => let '(o, s') := get [port] s in o :: reads n' port s'
  end.

(** ** Forwarding reads as functions of the buffer *)

(** The packets of a buffer behind its first data packet. *)
Fixpoint after_data (buf : list IP) : list IP :=
  match buf with
  | [] => []
  | p :: rest =>
      match ip_type p with
      | data => rest
      | _ => after_data rest
      end
  end.

(** The number of frames on a stack of [depth] frames once the brackets of
    a prefix have been applied to it. *)
Fixpoint depth_after (depth : nat) (prefix : list IP) : nat :=
  match prefix with
  | [] => depth
  | p :: rest =>
      match ip_type p with
      | closeBracket => depth_after (pred depth) rest
      | openBracket => depth_after (S depth) rest
      | data => depth_after depth rest
      end
  end.

(** A forwarding plain port "in": two opening brackets, a closing bracket,
    a data packet and a packet behind it. *)
Definition nested_node : State :=
  fresh_node
    (<["in" := port_with false None [OB "a"; OB "b"; CB "b"; D 5; CB "a"]]> ∅)
    {["in"]} false.

(** The frame with its closing packet filled in. *)
Definition closed_by (fr : BracketContext) (c : IP) : BracketContext :=
  mkBracketContext (ip fr) (bc_ports fr) (source fr) (Some c).

(** A forwarding plain port "in" whose frame 0, opened by an earlier read,
    is on the stack (array 0) and in the snapshot that read stored (array
    1); the buffer holds the closing bracket and a data packet. *)
Definition closing_node : State :=
  mkState (<["in" := port_with false None [CB "L"; D 8]]> ∅) None true "node"
    false 1 {["in"]} (<[("in"%string, None, None) := 0]> ∅) None None
    (Some (<["in" := 1]> ∅)) [[0]; [0]]
    [mkBracketContext (OB "L") [] "in" None].

(** ** What a read leaves alone *)

(** The packets of the partition (scope, index) of a port, and what a port
    is apart from its buffers. *)
Definition partition (s : State) (n : string) (sc : Scope) (idx : Index)
  : option (list IP) :=
  match ports s !! n with
  | Some p => buffers p !! (sc, idx)
  | None => None
  end.

Definition port_shape (s : State) (n : string) : option (bool * list nat) :=
  match ports s !! n with
  | Some p => Some (addressable p, attachedSockets p)
  | None => None
  end.

(** The partitions that a call with the port arguments [args] names. *)
Definition named_partitions (args : list portref) : list (string * Index) :=
  (fun r => (ref_name r, ref_index r)) <$> args.

(** From [s] to [s'], with [sc0] the scope of [s]: the scope is kept, no
    port is added, removed or changed in kind, and every partition that is
    not one of [K] in the scope [sc0] holds the same packets. *)
Definition touches_only (K : list (string * Index)) (sc0 : Scope)
    (s s' : State) : Prop :=
  scope s = sc0 ->
  scope s' = sc0
  /\ (forall n, port_shape s' n = port_shape s n)
  /\ (forall n sc idx, (n, idx) ∉ K \/ sc <> sc0 ->
        partition s' n sc idx = partition s n sc idx).

(** Two scopes and two indices of an addressable port "p", and a plain
    port "q". *)
Definition partitioned_node : State :=
  mkState
    (<["p" := mkInPort true [0; 1]
                (<[(Some "x"%string, Some 0) := [D 1]]>
                 (<[(Some "y"%string, Some 0) := [D 2]]>
                  (<[(Some "x"%string, Some 1) := [D 3]]> ∅)))]>
     (<["q" := mkInPort false [] (<[(Some "x"%string, None) := [D 4]]> ∅)]> ∅))
    (Some "x"%string) false "node" false 0 ∅ ∅ None None None [] [].

(** From [s] to [s'] the scope is kept, no port is added, removed or
    changed in kind, and every partition other than those of [K] in the
    scope of [s] holds the same packets. *)
Definition leaves_alone (K : list (string * Index)) (s s' : State) : Prop :=
  scope s' = scope s
  /\ (forall n, port_shape s' n = port_shape s n)
  /\ (forall n sc idx, (n, idx) ∉ K \/ sc <> scope s ->
        partition s' n sc idx = partition s n sc idx).

(** A plain port [n] of [s] that does not forward brackets and has nothing
    to read in the current scope. *)
Definition empty_plain_port (s : State) (n : string) : Prop :=
  exists p, ports s !! n = Some p /\ addressable p = false
            /\ (n ∉ forwardBrackets s) /\ buffer p (scope s) None = [].

(** Two plain ports with nothing to read. *)
Definition idle_node : State :=
  fresh_node (<["a" := port_with false None []]>
             (<["b" := port_with false None []]> ∅)) ∅ false.

(** * Properties *)

(** ** hasStream with a function as its only argument *)

(** [has] filters its arguments before it substitutes the default port, so
    a lone function leaves it with the port "in". *)
Lemma has_lone_function_checks_in (f : Validator) :
  default_in (PName "in") (string_params [Fn f]) = [PName "in"].
Proof. reflexivity. Qed.

(** C10: when [hasStream] is called with a stream-validation function as
    its only argument, the test for an empty argument list runs while the
    function is still in the list, so no port is substituted; once the
    function is popped the port list is empty, and the call returns [true]
    in every state without looking at a buffer: the state may even have no
    port at all. *)
Theorem hasStream_lone_function (f : StreamValidator) (s : State) :
  default_in (Port (PName "in")) [Fn f] = [Fn f]
  /\ removelast (default_in (Port (PName "in")) [Fn f]) = []
  /\ hasStream [Fn f] s = (Return true, s).
Proof. repeat split. Qed.

(** ** Arguments that are [name, index] pairs in has *)

(** A pair is not a string: [has] drops it, and a call whose only port
    argument is a pair behaves as the call without arguments. *)
Lemma has_drops_pairs (n : string) (i : nat) (s : State) :
  has [Port (PIdx n i)] s = has [] s.
Proof. reflexivity. Qed.

Lemma has_drops_pairs_before_function (n : string) (i : nat) (f : Validator)
    (s : State) :
  has [Port (PIdx n i); Fn f] s = has [Fn f] s.
Proof. reflexivity. Qed.

(** C2: on [pairs_node], [has(['p', 0])] does not evaluate the sub-port 0
    of the addressable port "p", which holds a packet: it answers [false],
    the answer for the empty port "in".  [has(['q', 0])] on the plain port
    "q" raises no error and answers for "in" as well.  With the plain name
    on the addressable port the error is raised, and [get] raises it for
    both misuses. *)
Theorem has_pair_evaluates_default_port :
  (exists p, ports pairs_node !! "p" = Some p
     /\ addressable p = true
     /\ snd (InPort_has p (scope pairs_node) (Some 0) always_true tt) = true)
  /\ fst (has [Port (PIdx "p" 0)] pairs_node) = Return false
  /\ fst (has [Port (PIdx "q" 0)] pairs_node) = Return false
  /\ fst (has [Port (PName "p")] pairs_node) = Throw (AddressableError "p")
  /\ fst (get [PName "p"] pairs_node) = Throw (AddressableError "portname")
  /\ fst (get [PIdx "q" 0] pairs_node) = Throw (NonAddressableError "portname").
Proof.
  split; [eexists; split; [vm_compute; reflexivity|by split]|].
  repeat split; vm_compute; reflexivity.
Qed.

(** ** getData on a port that runs out of packets *)

(** C3: on the port "in" of [bracket_only_node] the first read returns the
    bracket, the second finds the buffer exhausted and leaves the loop with
    [packet] undefined, and [packet.data] then raises a TypeError:
    [getData] does not return an absent value.  Read together with the port
    "other", which has a data packet, the call fails as a whole instead of
    returning the payload and an absent entry. *)
Theorem getData_exhausted_after_bracket :
  fst (getData [PName "in"] bracket_only_node) = Throw (TypeError "data")
  /\ fst (getData [PName "other"] bracket_only_node) = Return (One (VNum 1))
  /\ fst (getData [PName "other"; PName "in"] bracket_only_node)
     = Throw (TypeError "data").
Proof. repeat split; vm_compute; reflexivity. Qed.

(** With an empty buffer the first read already finds nothing, and the
    absent packet is pushed. *)
Lemma getData_empty_buffer :
  fst (getData [PName "in"]
         (fresh_node (<["in" := port_with false None []]> ∅) ∅ false))
  = Return (One VUndefined).
Proof. vm_compute; reflexivity. Qed.

(** ** Ports that are not registered *)

(** C9: [has] and [attached] report a missing port with the "has no port"
    error, but [get] and the reads built on it call [isAddressable] on the
    missing port and fail with a TypeError.  The port "in" is also
    substituted when the call has arguments and none of them is a string:
    [has(['nope', 0])] answers for "in". *)
Theorem get_unknown_port_crashes :
  fst (has [Port (PName "nope")] one_port_node)
    = Throw (NoPortError "node" "nope")
  /\ fst (attached ["nope"%string] one_port_node)
    = Throw (NoPortError "node" "nope")
  /\ fst (get [PName "nope"] one_port_node) = Throw (TypeError "isAddressable")
  /\ fst (get [PIdx "nope" 0] one_port_node) = Throw (TypeError "isAddressable")
  /\ fst (getData [PName "nope"] one_port_node)
    = Throw (TypeError "isAddressable")
  /\ fst (getStream [PName "nope"] one_port_node)
    = Throw (TypeError "isAddressable")
  /\ fst (has [Port (PIdx "nope" 0)] one_port_node) = Return true.
Proof. repeat split; vm_compute; reflexivity. Qed.

(** ** Precondition queries leave the state alone *)

Lemma has_loop_pure (validate : Validator) (args : list portref)
    (v : vstate validate) (s : State) :
  snd (has_loop validate args v s) = s.
Proof.
  revert v. induction args as [|[name|name idx] rest IH]; intros v; [done| |].
  - cbn. unfold bind, gets, throw, ret.
    destruct (ports s !! name) as [p|]; [|done].
    destruct (addressable p); [done|].
    destruct (InPort_has p (scope s) None validate v) as [v' []]; [apply IH|done].
  - cbn. unfold bind, gets, throw, ret.
    destruct (ports s !! name) as [p|]; [|done].
    destruct (addressable p); [|done]. cbn.
    destruct (InPort_has p (scope s) (Some idx) validate v) as [v' []];
      [apply IH|done].
Qed.

Lemma has_pure (params : list (param Validator)) (s : State) :
  snd (has params s) = s.
Proof. apply has_loop_pure. Qed.

Lemma hasData_pure (params : list portref) (s : State) :
  snd (hasData params s) = s.
Proof. apply has_pure. Qed.

Lemma hasStream_loop_pure (f : StreamValidator)
    (args : list (param StreamValidator)) (s : State) :
  snd (hasStream_loop f args s) = s.
Proof.
  induction args as [|port rest IH]; [done|].
  cbn [hasStream_loop]. unfold bind.
  pose proof (has_pure [as_has_param port; Fn (stream_validate f)] s) as Hp.
  destruct (has _ s) as [[[]| |] s']; cbn in Hp; subst s'; try done.
Qed.

Lemma hasStream_pure (params : list (param StreamValidator)) (s : State) :
  snd (hasStream params s) = s.
Proof.
  unfold hasStream. destruct (last_function _); apply hasStream_loop_pure.
Qed.

Lemma run_query_pure (q : query) (s : State) : snd (run_query q s) = s.
Proof.
  destruct q; [apply has_pure|apply hasData_pure|apply hasStream_pure].
Qed.

Lemma after_queries_id (qs : list query) (s : State) : after_queries qs s = s.
Proof.
  induction qs as [|q qs IH]; [done|].
  cbn. rewrite run_query_pure. apply IH.
Qed.

(** C6: a precondition query ([has], [hasData] or [hasStream], with any
    arguments and callbacks, answering or throwing) returns the state it
    was given, and after any number of them a [get], [getData] or
    [getStream] returns what it returns without them and leaves the same
    state. *)
Theorem precondition_queries_consume_nothing (qs : list query)
    (params : list portref) (s : State) :
  Forall (fun q => snd (run_query q s) = s) qs
  /\ get params (after_queries qs s) = get params s
  /\ getData params (after_queries qs s) = getData params s
  /\ getStream params (after_queries qs s) = getStream params s.
Proof.
  rewrite after_queries_id. split; [|done].
  apply Forall_forall. intros q _. apply run_query_pure.
Qed.

(** ** Framing: what a computation leaves unchanged *)

Section Preserves.
Context (R : relation State) `{!PreOrder R}.

Lemma preserves_ret {A} (a : A) : preserves R (ret a).
Proof. intros s. reflexivity. Qed.

Lemma preserves_throw {A} (e : Exception) : preserves R (@throw A e).
Proof. intros s. reflexivity. Qed.

Lemma preserves_out_of_fuel {A} : preserves R (@out_of_fuel A).
Proof. intros s. reflexivity. Qed.

Lemma preserves_gets {A} (f : State -> A) : preserves R (gets f).
Proof. intros s. reflexivity. Qed.

Lemma preserves_modify (f : State -> State) :
  (forall s, R s (f s)) -> preserves R (modify f).
Proof. intros H s. apply H. Qed.

Lemma preserves_bind {A B} (m : M A) (k : A -> M B) :
  preserves R m -> (forall a, preserves R (k a)) -> preserves R (bind m k).
Proof.
  intros Hm Hk s. unfold bind. specialize (Hm s).
  destruct (m s) as [[a|e|] s']; cbn in Hm; [|done..].
  etransitivity; [exact Hm|apply Hk].
Qed.
End Preserves.

(** Breaks a computation into its primitive steps; [known] closes the
    steps that have a lemma of their own, [upd] the state updates. *)
Ltac frame_with R known upd :=
  repeat first
    [ solve [known]
    | apply (preserves_ret R) | apply (preserves_throw R)
    | apply (preserves_out_of_fuel R) | apply (preserves_gets R)
    | apply preserves_modify; intros ?; solve [upd]
    | apply (preserves_bind R); [|intros ?]
    | match goal with
      | |- preserves _ (match ?x with _ => _ end) => destruct x
      end ].

#[local] Instance same_activation_preorder : PreOrder same_activation.
Proof.
  split.
  - intros s. repeat split.
  - intros s1 s2 s3 (?&?&?&?) (?&?&?&?). repeat split; congruence.
Qed.

Create HintDb activation_frame.

Section ActivationFrame.
Local Abbreviation keeps := (preserves same_activation).
Local Ltac frame :=
  frame_with same_activation
    ltac:(auto with activation_frame nocore) ltac:(repeat split).

Lemma port_deref_activation n m : keeps (port_deref n m).
Proof. intros s. unfold port_deref. destruct (ports s !! n); repeat split. Qed.

Lemma getBracketContext_activation port sc idx :
  keeps (getBracketContext port sc idx).
Proof.
  intros s. unfold getBracketContext.
  destruct (bracketContext s !! _); repeat split.
Qed.

Lemma array_pop_activation r : keeps (array_pop r).
Proof. intros s. unfold array_pop. destruct (last _); repeat split. Qed.

Lemma array_push_activation r x : keeps (array_push r x).
Proof. intros s. repeat split. Qed.

Lemma array_slice_activation r : keeps (array_slice r).
Proof. intros s. repeat split. Qed.

Lemma new_frame_activation fr : keeps (new_frame fr).
Proof. intros s. repeat split. Qed.

Lemma set_closeIp_activation c p : keeps (set_closeIp c p).
Proof. intros s. repeat split. Qed.

Hint Resolve port_deref_activation getBracketContext_activation
  array_pop_activation array_push_activation array_slice_activation
  new_frame_activation set_closeIp_activation : activation_frame.

Lemma port_get_activation port sc idx : keeps (port_get port sc idx).
Proof. unfold port_get. frame. Qed.
Hint Resolve port_get_activation : activation_frame.

Lemma read_until_data_activation fuel port idx prefix :
  keeps (read_until_data fuel port idx prefix).
Proof.
  revert prefix. induction fuel as [|fuel IH]; intros prefix; cbn; frame.
Qed.
Hint Resolve read_until_data_activation : activation_frame.

Lemma forward_step_activation port idx p : keeps (forward_step port idx p).
Proof. unfold forward_step. frame. Qed.
Hint Resolve forward_step_activation : activation_frame.

Lemma forward_prefix_activation port idx prefix :
  keeps (forward_prefix port idx prefix).
Proof. induction prefix as [|p rest IH]; cbn [forward_prefix]; frame. Qed.
Hint Resolve forward_prefix_activation : activation_frame.

Lemma snapshot_context_activation port idx :
  keeps (snapshot_context port idx).
Proof. unfold snapshot_context. frame. Qed.
Hint Resolve snapshot_context_activation : activation_frame.

Lemma __getForForwarding_activation port idx :
  keeps (__getForForwarding port idx).
Proof. unfold __getForForwarding. frame. Qed.
Hint Resolve __getForForwarding_activation : activation_frame.

Lemma get_port_activation port : keeps (get_port port).
Proof. unfold get_port. frame. Qed.
Hint Resolve get_port_activation : activation_frame.

Lemma get_loop_activation args res : keeps (get_loop args res).
Proof. revert res. induction args as [|port rest IH]; intros res; cbn; frame. Qed.
End ActivationFrame.

(** ** Activation *)

Lemma activate_returns (s : State) : fst (activate s) = Return tt.
Proof.
  unfold activate, bind, gets. cbn.
  destruct (activated s); [done|]. destruct (ordered s); done.
Qed.

Lemma activate_noop (s : State) :
  activated s = true -> activate s = (Return tt, s).
Proof. intros H. unfold activate, bind, gets. cbn. by rewrite H. Qed.

Lemma activate_first (s : State) :
  activated s = false ->
  let s' := snd (activate s) in
  activated s' = true /\ load s' = S (load s) /\ ordered s' = ordered s
  /\ __resolved s' = (if ordered s then Some false else __resolved s).
Proof.
  intros H. unfold activate, bind, gets. cbn. rewrite H.
  destruct (ordered s) eqn:Ho; cbn; by rewrite ?Ho.
Qed.

Lemma get_after_activate (params : list portref) (s : State) :
  same_activation (snd (activate s)) (snd (get params s)).
Proof.
  unfold get. unfold bind at 1.
  pose proof (activate_returns s) as Hr.
  destruct (activate s) as [[[]|e|] s1]; cbn in Hr; try done.
  cbn [snd].
  assert (preserves same_activation
    (let* res := get_loop (default_in (PName "in") params) [] in
     if length (default_in (PName "in") params) =? 1
     then ret (One (nth 0 res Undefined)) else ret (Many res))) as Hk.
  { apply (preserves_bind same_activation); [apply get_loop_activation|].
    intros res. destruct (_ =? _); apply (preserves_ret same_activation). }
  apply Hk.
Qed.

Lemma get_activates (params : list portref) (s : State) :
  activated (snd (get params s)) = true.
Proof.
  destruct (get_after_activate params s) as (Ha & _). rewrite Ha.
  destruct (activated s) eqn:E.
  - by rewrite activate_noop.
  - by apply activate_first.
Qed.

Lemma get_when_activated (params : list portref) (s : State) :
  activated s = true -> same_activation s (snd (get params s)).
Proof.
  intros H. pose proof (get_after_activate params s) as Hg.
  by rewrite activate_noop in Hg.
Qed.

Lemma after_gets_when_activated (calls : list (list portref)) (s : State) :
  activated s = true -> same_activation s (after_gets calls s).
Proof.
  revert s. induction calls as [|params calls IH]; intros s H; [done|].
  cbn. etransitivity; [apply get_when_activated, H|].
  apply IH, get_activates.
Qed.

(** C7: every [get] leaves the invocation activated, whatever its
    arguments and whether it returns a packet, returns nothing or throws;
    [activate] on an activated invocation changes nothing; and over any
    non-empty series of [get] calls of an invocation that starts out not
    activated, the load of the node goes up by exactly one, the invocation
    is marked activated, and the resolved flag of the result is set to
    [false] for an ordered component and left alone otherwise. *)
Theorem activation_happens_once (calls : list (list portref)) (s : State) :
  activated s = false ->
  calls <> [] ->
  (forall params st, activated (snd (get params st)) = true)
  /\ (forall st, activated st = true -> activate st = (Return tt, st))
  /\ activated (after_gets calls s) = true
  /\ load (after_gets calls s) = S (load s)
  /\ ordered (after_gets calls s) = ordered s
  /\ __resolved (after_gets calls s)
     = (if ordered s then Some false else __resolved s).
Proof.
  intros Hs Hc. split; [apply get_activates|]. split; [apply activate_noop|].
  destruct calls as [|params calls]; [done|]. cbn.
  destruct (after_gets_when_activated calls (snd (get params s))
              (get_activates params s)) as (Ha & Hl & Ho & Hr).
  destruct (get_after_activate params s) as (Ha' & Hl' & Ho' & Hr').
  destruct (activate_first s Hs) as (Ha0 & Hl0 & Ho0 & Hr0).
  unfold after_gets in *. repeat split; congruence.
Qed.

(** Three reads on an ordered node: a port with one packet, a missing
    port, and the default port, by then empty. *)
Lemma activation_happens_once_witness :
  activated ordered_node = false
  /\ three_reads <> []
  /\ load (after_gets three_reads ordered_node) = S (load ordered_node)
  /\ __resolved (after_gets three_reads ordered_node) = Some false.
Proof.
  split; [reflexivity|]. split; [discriminate|].
  destruct (activation_happens_once three_reads ordered_node)
    as (_ & _ & _ & Hl & _ & Hr); [reflexivity|discriminate|].
  split; [exact Hl|exact Hr].
Defined.

(** ** Running the reads *)

Lemma bind_returns {A B} (m : M A) (k : A -> M B) (s s1 : State) (a : A) :
  m s = (Return a, s1) -> bind m k s = k a s1.
Proof. intros H. unfold bind. by rewrite H. Qed.

Lemma bind_throws {A B} (m : M A) (k : A -> M B) (s s1 : State) e :
  m s = (Throw e, s1) -> bind m k s = (Throw e, s1).
Proof. intros H. unfold bind. by rewrite H. Qed.

Lemma activate_activation_only (s : State) :
  activation_only s (snd (activate s)).
Proof.
  unfold activation_only, activate, bind, gets. cbn.
  destruct s as [ps sc act nid ord ld fwd bc res cl bcr arr frs]. cbn.
  destruct act; [done|]. by destruct ord.
Qed.

Lemma activate_run (s : State) : activate s = (Return tt, snd (activate s)).
Proof.
  pose proof (activate_returns s). destruct (activate s) as [o s']. cbn in *.
  by subst.
Qed.

(** A read of one port is the port's read in the activated state. *)
Lemma get1_eq (port : portref) (s : State) :
  get1 port s = get_port port (snd (activate s)).
Proof.
  unfold get1, get. unfold bind at 1 2.
  pose proof (activate_returns s) as Hr.
  destruct (activate s) as [o s1]. cbn in Hr. subst o. cbn [snd].
  cbn [default_in get_loop]. unfold bind.
  destruct (get_port port s1) as [[p| |] s']; done.
Qed.

Lemma buffer_with_buffer (p : InPort) sc idx buf :
  buffer (with_buffer p sc idx buf) sc idx = buf.
Proof. unfold buffer, with_buffer. cbn. by rewrite lookup_insert_eq. Qed.

Lemma port_get_nil (s : State) port p sc idx :
  ports s !! port = Some p -> buffer p sc idx = [] ->
  port_get port sc idx s = (Return Undefined, s).
Proof.
  intros Hp Hb. unfold port_get, port_deref, bind, InPort_get.
  by rewrite Hp, Hb.
Qed.

Lemma port_get_cons (s : State) port p sc idx x rest :
  ports s !! port = Some p -> buffer p sc idx = x :: rest ->
  port_get port sc idx s
  = (Return (Pkt x), set_ports (insert port (with_buffer p sc idx rest)) s).
Proof.
  intros Hp Hb. unfold port_get, port_deref, bind, InPort_get.
  by rewrite Hp, Hb.
Qed.

Lemma get_port_plain (s : State) port p :
  ports s !! port = Some p -> addressable p = false ->
  port ∉ forwardBrackets s ->
  get_port (PName port) s = port_get port (scope s) None s.
Proof.
  intros Hp Ha Hf. unfold get_port, port_deref, bind, isForwardingInport, gets.
  rewrite Hp, Ha. cbn. by rewrite bool_decide_eq_false_2.
Qed.

Lemma get_port_forwarding (s : State) port p :
  ports s !! port = Some p -> addressable p = false ->
  port ∈ forwardBrackets s ->
  get_port (PName port) s = __getForForwarding port None s.
Proof.
  intros Hp Ha Hf. unfold get_port, port_deref, bind, isForwardingInport, gets.
  rewrite Hp, Ha. cbn. by rewrite bool_decide_eq_true_2.
Qed.

Lemma get_port_forwarding_ref (s : State) (port : portref) (p : InPort) :
  ports s !! ref_name port = Some p -> well_addressed port p ->
  ref_name port ∈ forwardBrackets s ->
  get_port port s = __getForForwarding (ref_name port) (ref_index port) s.
Proof.
  intros Hp Ha Hf. unfold well_addressed in Ha.
  destruct port as [n|n i]; cbn in *;
    unfold get_port, port_deref, bind, isForwardingInport, gets;
    rewrite Hp, Ha; cbn; by rewrite bool_decide_eq_true_2.
Qed.

Lemma ports_only_refl (s : State) : ports_only s s.
Proof. by destruct s. Qed.

Lemma ports_only_trans (s1 s2 s3 : State) :
  ports_only s1 s2 -> ports_only s2 s3 -> ports_only s1 s3.
Proof. unfold ports_only. intros H1 H2. rewrite H2, H1. done. Qed.

Lemma ports_only_set_ports f (s : State) : ports_only s (set_ports f s).
Proof. done. Qed.

(** The read loop of a forwarding read returns the brackets in front of the
    first data packet and that packet, and touches the ports only. *)
Lemma read_until_data_spec (port : string) (idx : Index) (fuel : nat) :
  forall (s : State) (p : InPort) (pre : list IP),
    ports s !! port = Some p ->
    length (buffer p (scope s) idx) < fuel ->
    exists s',
      read_until_data fuel port idx pre s
      = (Return (pre ++ bracket_prefix (buffer p (scope s) idx),
                 first_data (buffer p (scope s) idx)), s')
      /\ ports_only s s'.
Proof.
  induction fuel as [|fuel IH]; intros s p pre Hp Hlen; [lia|].
  cbn [read_until_data]. unfold bind at 1. cbn.
  destruct (buffer p (scope s) idx) as [|x rest] eqn:Hb.
  - rewrite (bind_returns _ _ _ _ _ (port_get_nil s port p _ idx Hp Hb)).
    exists s. cbn. rewrite app_nil_r. split; [done|apply ports_only_refl].
  - rewrite (bind_returns _ _ _ _ _ (port_get_cons s port p _ idx x rest Hp Hb)).
    cbn [bracket_prefix first_data].
    destruct (ip_type x) eqn:Hx.
    + eexists. split; [by rewrite app_nil_r|apply ports_only_set_ports].
    + edestruct (IH (set_ports (insert port (with_buffer p (scope s) idx rest)) s)
                   (with_buffer p (scope s) idx rest) (pre ++ [x]))
        as (s' & Hr & Ho).
      { cbn. by rewrite lookup_insert_eq. }
      { cbn. rewrite buffer_with_buffer. cbn in Hlen. lia. }
      cbn in Hr. rewrite buffer_with_buffer in Hr.
      exists s'. rewrite Hr, <- app_assoc. split; [done|].
      eapply ports_only_trans; [apply ports_only_set_ports|exact Ho].
    + edestruct (IH (set_ports (insert port (with_buffer p (scope s) idx rest)) s)
                   (with_buffer p (scope s) idx rest) (pre ++ [x]))
        as (s' & Hr & Ho).
      { cbn. by rewrite lookup_insert_eq. }
      { cbn. rewrite buffer_with_buffer. cbn in Hlen. lia. }
      cbn in Hr. rewrite buffer_with_buffer in Hr.
      exists s'. rewrite Hr, <- app_assoc. split; [done|].
      eapply ports_only_trans; [apply ports_only_set_ports|exact Ho].
Qed.

Lemma activation_only_fields (s s' : State) :
  activation_only s s' ->
  ports s' = ports s /\ scope s' = scope s
  /\ forwardBrackets s' = forwardBrackets s
  /\ bracketContext s' = bracketContext s /\ arrays s' = arrays s
  /\ frames s' = frames s /\ __bracketContext s' = __bracketContext s
  /\ __bracketClosingBefore s' = __bracketClosingBefore s.
Proof. intros H. rewrite H. repeat split. Qed.

Lemma snapshot_context_returns (port : string) (idx : Index) (s : State) :
  fst (snapshot_context port idx s) = Return tt.
Proof.
  unfold snapshot_context, bind, gets, modify, ret, getBracketContext,
    array_slice.
  destruct (__bracketContext s); cbn;
    destruct (bracketContext s !! _); reflexivity.
Qed.

(** A forwarding read whose buffer starts with a data packet returns it. *)
Lemma forwarding_data_first (s : State) port idx p d rest :
  ports s !! port = Some p ->
  buffer p (scope s) idx = d :: rest -> ip_type d = data ->
  fst (__getForForwarding port idx s) = Return (Pkt d).
Proof.
  intros Hp Hb Hd. unfold __getForForwarding. unfold bind at 1. cbn.
  destruct (read_until_data_spec port idx (S (pending s port idx)) s p [] Hp)
    as (s' & Hr & _).
  { unfold pending. rewrite Hp. lia. }
  rewrite (bind_returns _ _ _ _ _ Hr). rewrite Hb. cbn. rewrite Hd. cbn.
  unfold bind at 1. cbn. unfold bind.
  pose proof (snapshot_context_returns port idx s') as Hs.
  destruct (snapshot_context port idx s') as [o s'']. cbn in Hs. by subst o.
Qed.

Lemma get1_data_first (s : State) port p d rest :
  ports s !! port = Some p -> addressable p = false ->
  buffer p (scope s) None = d :: rest -> ip_type d = data ->
  fst (get1 (PName port) s) = Return (Pkt d).
Proof.
  intros Hp Ha Hb Hd. rewrite get1_eq.
  destruct (activation_only_fields _ _ (activate_activation_only s))
    as (Hps & Hsc & Hfw & _).
  set (s1 := snd (activate s)) in *.
  rewrite <- Hps in Hp. rewrite <- Hsc in Hb.
  destruct (decide (port ∈ forwardBrackets s1)) as [Hf|Hf].
  - rewrite (get_port_forwarding s1 port p Hp Ha Hf).
    by apply (forwarding_data_first s1 port None p d rest).
  - rewrite (get_port_plain s1 port p Hp Ha Hf).
    by rewrite (port_get_cons s1 port p _ None d rest Hp Hb).
Qed.

(** ** A bare data packet is a stream *)

(** C8: for a registered port read by its plain name whose buffer holds
    exactly one data packet, [hasStream] returns [true] and consumes
    nothing, and [getStream] returns the one-element sequence of that
    packet, on forwarding and non-forwarding ports alike. *)
Theorem bare_data_is_a_stream (s : State) (port : string) (p : InPort)
    (d : IP) :
  ports s !! port = Some p ->
  addressable p = false ->
  buffer p (scope s) None = [d] ->
  ip_type d = data ->
  hasStream [Port (PName port)] s = (Return true, s)
  /\ fst (getStream [PName port] s) = Return (One (SPackets [d])).
Proof.
  intros Hp Ha Hb Hd. split.
  - unfold hasStream. cbn. unfold bind, gets. cbn.
    rewrite Hp, Ha. cbn. unfold InPort_has. rewrite Hb. cbn. by rewrite Hd.
  - unfold getStream. cbn [default_in getStream_loop].
    unfold bind at 1. unfold bind at 1. unfold getStream_port. unfold bind at 1.
    pose proof (get1_data_first s port p d [] Hp Ha Hb Hd) as Hg.
    destruct (get1 (PName port) s) as [o s2]. cbn in Hg. subst o.
    unfold bind at 1. cbn [gets]. unfold bind at 1.
    cbn [getStream_while]. unfold stream_body. rewrite Hd. cbn. reflexivity.
Qed.

Lemma bare_data_is_a_stream_witness :
  ports one_port_node !! "in" = Some (port_with false None [D 1])
  /\ addressable (port_with false None [D 1]) = false
  /\ buffer (port_with false None [D 1]) (scope one_port_node) None = [D 1]
  /\ ip_type (D 1) = data
  /\ hasStream [Port (PName "in")] one_port_node = (Return true, one_port_node)
  /\ fst (getStream [PName "in"] one_port_node)
     = Return (One (SPackets [D 1])).
Proof.
  assert (ports one_port_node !! "in" = Some (port_with false None [D 1]))
    as Hp by (vm_compute; reflexivity).
  assert (buffer (port_with false None [D 1]) (scope one_port_node) None
          = [D 1]) as Hb by (vm_compute; reflexivity).
  split; [exact Hp|]. split; [reflexivity|]. split; [exact Hb|].
  split; [reflexivity|].
  exact (bare_data_is_a_stream one_port_node "in" _ (D 1) Hp eq_refl Hb eq_refl).
Defined.

(** ** Streams *)

Lemma set_buffer_lookup (s : State) port (p' : InPort) :
  ports (set_ports (insert port p') s) !! port = Some p'.
Proof. cbn. by rewrite lookup_insert_eq. Qed.

(** On a plain, non-forwarding port the stream loop sees the buffer packet
    by packet. *)
Lemma getStream_while_plain (port : string) (fuel : nat) :
  forall (s : State) (p : InPort) (v : StreamVars) (x : IP),
    ports s !! port = Some p -> addressable p = false ->
    port ∉ forwardBrackets s ->
    length (buffer p (scope s) None) < fuel ->
    fst (getStream_while fuel (PName port) (Pkt x) v s)
    = Return (assemble v (x :: buffer p (scope s) None)).
Proof.
  induction fuel as [|fuel IH]; intros s p v x Hp Ha Hf Hlen; [lia|].
  cbn [getStream_while assemble].
  destruct (stream_body v x) as [v' []]; [done|].
  unfold bind at 1. rewrite get1_eq.
  destruct (activation_only_fields _ _ (activate_activation_only s))
    as (Hps & Hsc & Hfw & _).
  set (s1 := snd (activate s)) in *.
  rewrite <- Hps in Hp. rewrite <- Hsc in Hlen |- *. rewrite <- Hfw in Hf.
  rewrite (get_port_plain s1 port p Hp Ha Hf).
  destruct (buffer p (scope s1) None) as [|y rest] eqn:Hb.
  - rewrite (port_get_nil s1 port p _ None Hp Hb). cbn. by destruct fuel.
  - rewrite (port_get_cons s1 port p _ None y rest Hp Hb). cbn [fst snd].
    rewrite (IH _ (with_buffer p (scope s1) None rest)).
    + cbn. by rewrite buffer_with_buffer.
    + apply set_buffer_lookup.
    + done.
    + done.
    + cbn. rewrite buffer_with_buffer. cbn in Hlen. lia.
Qed.

Lemma getStream_plain (s : State) (port : string) (p : InPort) :
  ports s !! port = Some p -> addressable p = false ->
  port ∉ forwardBrackets s ->
  fst (getStream [PName port] s)
  = Return (One (SPackets (assemble no_stream (buffer p (scope s) None)))).
Proof.
  intros Hp Ha Hf. unfold getStream. cbn [default_in getStream_loop].
  unfold bind at 1. unfold bind at 1. unfold getStream_port. unfold bind at 1.
  rewrite get1_eq.
  destruct (activation_only_fields _ _ (activate_activation_only s))
    as (Hps & Hsc & Hfw & _).
  set (s1 := snd (activate s)) in *.
  rewrite <- Hps in Hp. rewrite <- Hsc. rewrite <- Hfw in Hf.
  rewrite (get_port_plain s1 port p Hp Ha Hf).
  destruct (buffer p (scope s1) None) as [|y rest] eqn:Hb.
  - rewrite (port_get_nil s1 port p _ None Hp Hb). reflexivity.
  - rewrite (port_get_cons s1 port p _ None y rest Hp Hb).
    unfold bind at 1. cbn [gets]. unfold bind at 1.
    set (s2 := set_ports _ s1).
    pose proof (getStream_while_plain port (S (pending_ref s2 (PName port)))
                  s2 (with_buffer p (scope s1) None rest) no_stream y
                  (set_buffer_lookup _ _ _) Ha Hf) as Hw.
    cbn [scope s2 set_ports] in Hw. rewrite buffer_with_buffer in Hw.
    destruct (getStream_while _ _ _ _ s2) as [o s3]. cbn in Hw.
    rewrite Hw; [reflexivity|].
    unfold pending. cbn. rewrite lookup_insert_eq. cbn.
    rewrite buffer_with_buffer. lia.
Qed.

Lemma assemble_app (pre buf : list IP) :
  forall v v', stream_vars_after v pre = Some v' ->
    assemble v (pre ++ buf) = assemble v' buf.
Proof.
  induction pre as [|x pre IH]; intros v v' H; cbn in *.
  - by injection H as ->.
  - destruct (stream_body v x) as [v1 []]; [done|]. by apply IH.
Qed.

Lemma stream_body_reset (v : StreamVars) (o : IP) :
  ip_type o = openBracket -> portBrackets v = [] ->
  stream_body v o = (mkStreamVars [ip_data o] [o] false, false).
Proof. intros Ho Hv. unfold stream_body. by rewrite Ho, Hv. Qed.

Lemma assemble_reset (v : StreamVars) (o : IP) (rest : list IP) :
  ip_type o = openBracket -> portBrackets v = [] ->
  assemble v (o :: rest) = assemble no_stream (o :: rest).
Proof.
  intros Ho Hv. cbn [assemble].
  rewrite (stream_body_reset v o Ho Hv), (stream_body_reset no_stream o Ho); done.
Qed.

(** C5, as stated, fails: on [OpenBracket, Data, OpenBracket, Data,
    CloseBracket] the second opening bracket is read at depth one, nothing
    is dropped, and [getStream] returns all five packets, not the final
    three. *)
Lemma unclosed_bracket_keeps_all_packets :
  fst (getStream [PName "in"] unclosed_node)
    = Return (One (SPackets [OB "a"; D 1; OB "b"; D 2; CB "b"]))
  /\ fst (getStream [PName "in"] unclosed_node)
    <> Return (One (SPackets [OB "b"; D 2; CB "b"])).
Proof. split; vm_compute; [reflexivity|discriminate]. Qed.

(** C5, amended: on a plain, non-forwarding port, an opening bracket read
    by [getStream] while the bracket depth is zero resets the working
    packet list and the seen-data flag: once the loop has gone through the
    packets [pre] and stands at depth zero, the opening bracket [o] leaves
    the list [[o]] and the flag [false], and the call returns what it
    returns for the buffer [o :: rest] alone.  On a buffer [OpenBracket,
    Data, OpenBracket, Data, CloseBracket] the second opening bracket is
    read at depth one, and all five packets are returned. *)
Theorem open_bracket_at_depth_zero_resets (s : State) (port : string)
    (p : InPort) :
  ports s !! port = Some p ->
  addressable p = false ->
  port ∉ forwardBrackets s ->
  (forall pre o rest v,
     buffer p (scope s) None = pre ++ o :: rest ->
     stream_vars_after no_stream pre = Some v ->
     portBrackets v = [] ->
     ip_type o = openBracket ->
     stream_body v o = (mkStreamVars [ip_data o] [o] false, false)
     /\ fst (getStream [PName port] s)
        = Return (One (SPackets (assemble no_stream (o :: rest)))))
  /\ (forall o1 d1 o2 d2 c,
     buffer p (scope s) None = [o1; d1; o2; d2; c] ->
     ip_type o1 = openBracket -> ip_type d1 = data ->
     ip_type o2 = openBracket -> ip_type d2 = data ->
     ip_type c = closeBracket ->
     fst (getStream [PName port] s)
     = Return (One (SPackets [o1; d1; o2; d2; c]))).
Proof.
  intros Hp Ha Hf. split.
  - intros pre o rest v Hb Hpre Hv Ho.
    split; [by apply stream_body_reset|].
    rewrite (getStream_plain s port p Hp Ha Hf), Hb.
    rewrite (assemble_app pre (o :: rest) no_stream v Hpre).
    by rewrite (assemble_reset v o rest Ho Hv).
  - intros o1 d1 o2 d2 c Hb H1 H2 H3 H4 H5.
    rewrite (getStream_plain s port p Hp Ha Hf), Hb.
    cbn. unfold stream_body. cbn. rewrite H1. cbn. rewrite H2. cbn.
    rewrite H3. cbn. rewrite H4. cbn. rewrite H5. cbn. reflexivity.
Qed.

(** The reset at work: the stray closing bracket in front of the stream is
    dropped when the opening bracket arrives. *)
Lemma open_bracket_at_depth_zero_resets_witness :
  ports stray_close_node !! "in"
    = Some (port_with false None [CB "z"; OB "b"; D 2; CB "b"])
  /\ addressable (port_with false None [CB "z"; OB "b"; D 2; CB "b"]) = false
  /\ ("in" ∉ forwardBrackets stray_close_node)
  /\ stream_vars_after no_stream [CB "z"]
     = Some (mkStreamVars [] [CB "z"] false)
  /\ fst (getStream [PName "in"] stray_close_node)
     = Return (One (SPackets [OB "b"; D 2; CB "b"])).
Proof.
  assert (ports stray_close_node !! "in"
          = Some (port_with false None [CB "z"; OB "b"; D 2; CB "b"]))
    as Hp by (vm_compute; reflexivity).
  assert ("in" ∉ forwardBrackets stray_close_node) as Hf
    by (vm_compute; intros H; inversion H).
  split; [exact Hp|]. split; [reflexivity|]. split; [exact Hf|].
  split; [reflexivity|].
  destruct (open_bracket_at_depth_zero_resets stray_close_node "in" _
              Hp eq_refl Hf) as (Hreset & _).
  destruct (Hreset [CB "z"] (OB "b") [D 2; CB "b"]
              (mkStreamVars [] [CB "z"] false)) as (_ & Hg).
  - vm_compute; reflexivity.
  - reflexivity.
  - reflexivity.
  - reflexivity.
  - exact Hg.
Defined.

(** ** Bracket stacks *)

Lemma stack_is_of (s : State) port idx r l :
  stack_is s port idx r l ->
  stack_of s port idx = l /\ live_ok s port idx.
Proof.
  intros [Hr Hl]. unfold stack_of, live_ok, array_read. rewrite Hr, Hl.
  split; [done|]. by eapply lookup_lt_Some.
Qed.

Lemma getBracketContext_stack (s : State) port idx :
  live_ok s port idx ->
  exists r s',
    getBracketContext port (scope s) idx s = (Return r, s')
    /\ stack_is s' port idx r (stack_of s port idx)
    /\ scope s' = scope s /\ frames s' = frames s
    /\ __bracketContext s' = __bracketContext s
    /\ length (arrays s) <= length (arrays s')
    /\ (forall k, k < length (arrays s) -> arrays s' !! k = arrays s !! k).
Proof.
  intros Hok. unfold getBracketContext, stack_of, live_ok, stack_ref in *.
  destruct (bracketContext s !! (port, scope s, idx)) as [r|] eqn:Hr.
  - exists r, s. repeat split; try done. unfold stack_ref, array_read.
    destruct (arrays s !! r) eqn:Hl; [done|].
    apply lookup_ge_None in Hl. lia.
  - eexists _, _. split; [reflexivity|]. repeat split.
    + unfold stack_ref. cbn. by rewrite lookup_insert_eq.
    + cbn. by rewrite lookup_app_r, Nat.sub_diag.
    + cbn. rewrite length_app. lia.
    + intros k Hk. cbn. by rewrite lookup_app_l.
Qed.

Lemma array_push_stack (s : State) port idx r l c :
  stack_is s port idx r l ->
  array_push r c s = (Return tt, set_arrays (<[r := l ++ [c]]>) s)
  /\ stack_is (set_arrays (<[r := l ++ [c]]>) s) port idx r (l ++ [c]).
Proof.
  intros [Hr Hl]. unfold array_push, modify, array_read. rewrite Hl. cbn.
  split; [done|]. split; [done|]. cbn.
  apply list_lookup_insert_eq. by eapply lookup_lt_Some.
Qed.

Lemma array_pop_empty (s : State) port idx r :
  stack_is s port idx r [] -> array_pop r s = (Return None, s).
Proof. intros [Hr Hl]. unfold array_pop, array_read. by rewrite Hl. Qed.

Lemma array_pop_stack (s : State) port idx r l c :
  stack_is s port idx r (l ++ [c]) ->
  array_pop r s = (Return (Some c), set_arrays (<[r := l]>) s)
  /\ stack_is (set_arrays (<[r := l]>) s) port idx r l.
Proof.
  intros [Hr Hl]. unfold array_pop, array_read. rewrite Hl. cbn.
  rewrite last_snoc, removelast_last. split; [done|]. split; [done|]. cbn.
  apply list_lookup_insert_eq. by eapply lookup_lt_Some.
Qed.

(** An opening bracket of the prefix pushes one frame. *)
Lemma forward_step_open (s : State) port idx p :
  ip_type p = openBracket -> live_ok s port idx ->
  exists r s',
    forward_step port idx p s = (Return tt, s')
    /\ stack_is s' port idx r (stack_of s port idx ++ [length (frames s)])
    /\ scope s' = scope s
    /\ frames s' = frames s ++ [mkBracketContext p [] port None]
    /\ __bracketContext s' = __bracketContext s.
Proof.
  intros Hp Hok. unfold forward_step. rewrite Hp.
  destruct (getBracketContext_stack s port idx Hok)
    as (r & s1 & Hg & Hst & Hsc & Hfr & Hbc & _).
  unfold bind at 1. cbn [gets]. rewrite (bind_returns _ _ _ _ _ Hg).
  unfold bind, new_frame.
  destruct (array_push_stack (set_frames (fun f => f ++ [mkBracketContext p [] port None]) s1)
              port idx r (stack_of s port idx) (length (frames s1)))
    as (Hpush & Hst'); [exact Hst|].
  rewrite Hpush. exists r. eexists. split; [reflexivity|].
  rewrite <- Hfr. split; [exact Hst'|]. cbn. by rewrite Hsc, Hbc.
Qed.

(** A closing bracket of the prefix that meets an empty stack. *)
Lemma forward_step_close_empty (s : State) port idx p :
  ip_type p = closeBracket -> live_ok s port idx ->
  stack_of s port idx = [] ->
  fst (forward_step port idx p s) = Throw (TypeError "closeIp").
Proof.
  intros Hp Hok Hemp. unfold forward_step. rewrite Hp.
  unfold bind at 1.
  set (s0 := snd ((let* closing := gets __bracketClosingBefore in
                   match closing with
                   | None => modify (set___bracketClosingBefore (Some []))
                   | Some _ => ret tt
                   end) s)).
  assert ((let* closing := gets __bracketClosingBefore in
           match closing with
           | None => modify (set___bracketClosingBefore (Some []))
           | Some _ => ret tt
           end) s = (Return tt, s0)) as Hinit.
  { unfold s0, bind, gets. cbn. by destruct (__bracketClosingBefore s). }
  rewrite Hinit.
  assert (live_ok s0 port idx /\ stack_of s0 port idx = [] /\ scope s0 = scope s)
    as (Hok0 & Hemp0 & Hsc0).
  { unfold s0, bind, gets. cbn. by destruct (__bracketClosingBefore s). }
  destruct (getBracketContext_stack s0 port idx Hok0)
    as (r & s1 & Hg & Hst & _).
  unfold bind at 1. cbn [gets]. rewrite (bind_returns _ _ _ _ _ Hg).
  rewrite Hemp0 in Hst.
  by rewrite (bind_returns _ _ _ _ _ (array_pop_empty s1 port idx r Hst)).
Qed.

(** A closing bracket of the prefix that finds a frame pops it. *)
Lemma forward_step_close (s : State) port idx p l c :
  ip_type p = closeBracket -> live_ok s port idx ->
  stack_of s port idx = l ++ [c] ->
  exists r s',
    forward_step port idx p s = (Return tt, s')
    /\ stack_is s' port idx r l /\ scope s' = scope s.
Proof.
  intros Hp Hok Hl. unfold forward_step. rewrite Hp.
  unfold bind at 1.
  set (s0 := snd ((let* closing := gets __bracketClosingBefore in
                   match closing with
                   | None => modify (set___bracketClosingBefore (Some []))
                   | Some _ => ret tt
                   end) s)).
  assert ((let* closing := gets __bracketClosingBefore in
           match closing with
           | None => modify (set___bracketClosingBefore (Some []))
           | Some _ => ret tt
           end) s = (Return tt, s0)) as Hinit.
  { unfold s0, bind, gets. cbn. by destruct (__bracketClosingBefore s). }
  rewrite Hinit.
  assert (live_ok s0 port idx /\ stack_of s0 port idx = l ++ [c]
          /\ scope s0 = scope s) as (Hok0 & Hl0 & Hsc0).
  { unfold s0, bind, gets. cbn. by destruct (__bracketClosingBefore s). }
  destruct (getBracketContext_stack s0 port idx Hok0)
    as (r & s1 & Hg & Hst & Hsc1 & _).
  unfold bind at 1. cbn [gets]. rewrite (bind_returns _ _ _ _ _ Hg).
  rewrite Hl0 in Hst.
  destruct (array_pop_stack s1 port idx r l c Hst) as (Hpop & Hst').
  rewrite (bind_returns _ _ _ _ _ Hpop).
  exists r. eexists. split; [reflexivity|].
  split; [exact Hst'|]. cbn. congruence.
Qed.

Lemma forward_step_data (s : State) port idx p :
  ip_type p = data -> forward_step port idx p s = (Return tt, s).
Proof. intros Hp. unfold forward_step. by rewrite Hp. Qed.

Lemma bind_fst_throws {A B} (m : M A) (k : A -> M B) (s : State) e :
  fst (m s) = Throw e -> fst (bind m k s) = Throw e.
Proof. unfold bind. destruct (m s) as [[a|e'|] s']; cbn; congruence. Qed.

(** Processing a prefix in which a closing bracket meets an empty stack
    ends in the TypeError of the assignment to [context.closeIp]. *)
Lemma forward_prefix_underflow (port : string) (idx : Index)
    (prefix : list IP) :
  forall s : State,
    live_ok s port idx ->
    underflows (length (stack_of s port idx)) prefix = true ->
    fst (forward_prefix port idx prefix s) = Throw (TypeError "closeIp").
Proof.
  induction prefix as [|p rest IH]; intros s Hok Hu; [done|].
  cbn [forward_prefix underflows] in *.
  destruct (ip_type p) eqn:Hp.
  - rewrite (bind_returns _ _ _ _ _ (forward_step_data s port idx p Hp)).
    by apply IH.
  - destruct (forward_step_open s port idx p Hp Hok)
      as (r & s' & Hstep & Hst & _).
    rewrite (bind_returns _ _ _ _ _ Hstep).
    destruct (stack_is_of _ _ _ _ _ Hst) as (Hof & Hok').
    apply IH; [done|]. rewrite Hof, length_app. cbn.
    by rewrite Nat.add_1_r.
  - destruct (stack_of s port idx) as [|c0 l0] eqn:Hl using rev_ind.
    + apply bind_fst_throws. by apply forward_step_close_empty.
    + clear IHl0.
      destruct (forward_step_close s port idx p l0 c0 Hp Hok Hl)
        as (r & s' & Hstep & Hst & _).
      rewrite (bind_returns _ _ _ _ _ Hstep).
      destruct (stack_is_of _ _ _ _ _ Hst) as (Hof & Hok').
      apply IH; [done|]. rewrite Hof.
      rewrite length_app in Hu. cbn in Hu. by rewrite Nat.add_1_r in Hu.
Qed.

Lemma ports_only_stack (s s' : State) port idx :
  ports_only s s' ->
  stack_of s' port idx = stack_of s port idx
  /\ (live_ok s port idx -> live_ok s' port idx).
Proof. intros H. rewrite H. done. Qed.

Lemma forwarding_underflow (s : State) port idx p :
  ports s !! port = Some p ->
  live_ok s port idx ->
  underflows (length (stack_of s port idx))
    (bracket_prefix (buffer p (scope s) idx)) = true ->
  fst (__getForForwarding port idx s) = Throw (TypeError "closeIp").
Proof.
  intros Hp Hok Hu. unfold __getForForwarding. unfold bind at 1. cbn [gets].
  destruct (read_until_data_spec port idx (S (pending s port idx)) s p [] Hp)
    as (s' & Hr & Ho).
  { unfold pending. rewrite Hp. lia. }
  rewrite (bind_returns _ _ _ _ _ Hr). cbn [app].
  destruct (ports_only_stack s s' port idx Ho) as (Hof & Hok').
  apply bind_fst_throws. apply forward_prefix_underflow; [by apply Hok'|].
  by rewrite Hof.
Qed.

Lemma get_single_throws (port : portref) (s : State) e :
  fst (get_port port (snd (activate s))) = Throw e ->
  fst (get [port] s) = Throw e.
Proof.
  intros H. unfold get. rewrite (bind_returns _ _ _ _ _ (activate_run s)).
  cbn [default_in get_loop]. by do 2 apply bind_fst_throws.
Qed.

(** ** A closing bracket with no open frame *)

(** C1, as stated, fails: on a forwarding port whose buffer starts with a
    closing bracket and whose bracket stack is empty, [get] ends in the
    TypeError that the engine raises for [context.closeIp = ip] on the
    undefined result of the pop; no error of the gateway's own reports the
    defect. *)
Lemma close_on_empty_stack_is_a_crash :
  stack_of close_first_node "in" None = []
  /\ fst (get [PName "in"] close_first_node) = Throw (TypeError "closeIp")
  /\ ~ surfaced_as_defect (fst (get [PName "in"] close_first_node)).
Proof.
  split; [reflexivity|].
  assert (fst (get [PName "in"] close_first_node) = Throw (TypeError "closeIp"))
    as H by (vm_compute; reflexivity).
  split; [exact H|]. rewrite H. intros (e & He & Hk).
  injection He as <-. by apply Hk.
Qed.

(** C1, amended: in a forwarding read, a closing bracket of the prefix that
    is reached when the bracket stack of the port is empty does not pass
    silently: the assignment to [closeIp] on the undefined frame raises a
    TypeError, which [get] passes on to its caller.  The prefix packets and
    the data packet have been dequeued by then, and no error of the
    gateway's own is raised. *)
Theorem close_bracket_on_empty_stack_crashes (s : State) (port : portref)
    (p : InPort) :
  ports s !! ref_name port = Some p ->
  well_addressed port p ->
  ref_name port ∈ forwardBrackets s ->
  live_ok s (ref_name port) (ref_index port) ->
  underflows (length (stack_of s (ref_name port) (ref_index port)))
    (bracket_prefix (buffer p (scope s) (ref_index port))) = true ->
  fst (get [port] s) = Throw (TypeError "closeIp")
  /\ ~ surfaced_as_defect (fst (get [port] s)).
Proof.
  intros Hp Ha Hf Hok Hu.
  cut (fst (get [port] s) = Throw (TypeError "closeIp")).
  { intros H. split; [exact H|]. rewrite H. intros (e & He & Hk).
    injection He as <-. by apply Hk. }
  apply get_single_throws.
  destruct (activation_only_fields _ _ (activate_activation_only s))
    as (Hps & Hsc & Hfw & Hbc & Harr & _).
  set (s1 := snd (activate s)) in *.
  rewrite <- Hps in Hp. rewrite <- Hfw in Hf.
  rewrite (get_port_forwarding_ref s1 port p Hp Ha Hf).
  apply (forwarding_underflow s1 _ _ p Hp).
  - unfold live_ok, stack_ref in *. by rewrite Hbc, Hsc, Harr.
  - unfold stack_of, stack_ref, array_read in *. by rewrite Hbc, Hsc, Harr.
Qed.

Lemma close_bracket_on_empty_stack_crashes_witness :
  ports close_first_node !! "in" = Some (port_with false None [CB "a"; D 1])
  /\ well_addressed (PName "in") (port_with false None [CB "a"; D 1])
  /\ ("in" ∈ forwardBrackets close_first_node)
  /\ live_ok close_first_node "in" None
  /\ underflows (length (stack_of close_first_node "in" None))
       (bracket_prefix
          (buffer (port_with false None [CB "a"; D 1])
             (scope close_first_node) None)) = true
  /\ fst (get [PName "in"] close_first_node) = Throw (TypeError "closeIp").
Proof.
  assert (ports close_first_node !! "in"
          = Some (port_with false None [CB "a"; D 1])) as Hp
    by (vm_compute; reflexivity).
  assert ("in" ∈ forwardBrackets close_first_node) as Hf
    by (refine (bool_decide_unpack _ _); vm_compute; exact I).
  assert (live_ok close_first_node "in" None) as Hok by (vm_compute; exact I).
  assert (underflows (length (stack_of close_first_node "in" None))
            (bracket_prefix
               (buffer (port_with false None [CB "a"; D 1])
                  (scope close_first_node) None)) = true) as Hu
    by (vm_compute; reflexivity).
  split; [exact Hp|]. split; [reflexivity|]. split; [exact Hf|].
  split; [exact Hok|]. split; [exact Hu|].
  exact (proj1 (close_bracket_on_empty_stack_crashes close_first_node
                  (PName "in") _ Hp eq_refl Hf Hok Hu)).
Defined.

(** ** The bracket context snapshot *)

Lemma snapshot_context_spec (s : State) port idx r l :
  stack_is s port idx r l ->
  exists s',
    snapshot_context port idx s = (Return tt, s')
    /\ stack_is s' port idx r l
    /\ snapshot_ref s' port = Some (length (arrays s))
    /\ arrays s' = arrays s ++ [l]
    /\ frames s' = frames s /\ scope s' = scope s.
Proof.
  intros [Hr Hl]. unfold snapshot_context.
  unfold bind at 1.
  set (s0 := snd ((let* bc := gets __bracketContext in
                   match bc with
                   | None => modify (set___bracketContext (Some ∅))
                   | Some _ => ret tt
                   end) s)).
  assert ((let* bc := gets __bracketContext in
           match bc with
           | None => modify (set___bracketContext (Some ∅))
           | Some _ => ret tt
           end) s = (Return tt, s0)) as Hinit.
  { unfold s0, bind, gets. cbn. by destruct (__bracketContext s). }
  rewrite Hinit.
  assert (stack_ref s0 port idx = Some r /\ arrays s0 = arrays s
          /\ frames s0 = frames s /\ scope s0 = scope s)
    as (Hr0 & Ha0 & Hf0 & Hs0).
  { unfold s0, bind, gets. cbn. by destruct (__bracketContext s). }
  unfold bind at 1. cbn [gets]. unfold bind at 1.
  unfold getBracketContext. unfold stack_ref in Hr0. rewrite Hr0.
  unfold bind, array_slice, modify, array_read. rewrite Ha0, Hl. cbn.
  eexists. split; [reflexivity|]. unfold stack_is, stack_ref, snapshot_ref.
  cbn. rewrite Hr0, Ha0, Hf0, Hs0, lookup_insert_eq.
  repeat split. rewrite lookup_app_l; [done|]. by eapply lookup_lt_Some.
Qed.

(** A forwarding read of a buffer that starts with an opening bracket and
    a data packet, on an empty bracket stack. *)
Lemma forwarding_open_data (s : State) port idx p o d rest :
  ports s !! port = Some p ->
  buffer p (scope s) idx = o :: d :: rest ->
  ip_type o = openBracket -> ip_type d = data ->
  live_ok s port idx -> stack_of s port idx = [] ->
  exists s' live snap f,
    __getForForwarding port idx s = (Return (Pkt d), s')
    /\ stack_is s' port idx live [f]
    /\ snapshot_ref s' port = Some snap /\ snap <> live
    /\ arrays s' !! snap = Some [f]
    /\ frames s' !! f = Some (mkBracketContext o [] port None).
Proof.
  intros Hp Hb Ho Hd Hok Hemp. unfold __getForForwarding.
  unfold bind at 1. cbn [gets].
  destruct (read_until_data_spec port idx (S (pending s port idx)) s p [] Hp)
    as (s2 & Hr & Hpo).
  { unfold pending. rewrite Hp. lia. }
  rewrite (bind_returns _ _ _ _ _ Hr). rewrite Hb. cbn. rewrite Ho, Hd. cbn.
  destruct (ports_only_stack s s2 port idx Hpo) as (Hof & Hok2).
  destruct (forward_step_open s2 port idx o Ho (Hok2 Hok))
    as (live & s3 & Hstep & Hst & Hsc & Hfr & _).
  rewrite Hof, Hemp in Hst. cbn in Hst.
  unfold bind at 1. unfold bind at 1. rewrite Hstep. cbn.
  destruct (snapshot_context_spec s3 port idx live _ Hst)
    as (s4 & Hsnap & Hst4 & Hsr & Harr & Hfr4 & _).
  rewrite (bind_returns _ _ _ _ _ Hsnap). cbn.
  exists s4, live, (length (arrays s3)), (length (frames s2)).
  split; [done|]. split; [done|]. split; [done|].
  destruct Hst as [_ Hlive]. apply lookup_lt_Some in Hlive.
  split; [lia|]. split.
  - by rewrite Harr, lookup_app_r, Nat.sub_diag.
  - by rewrite Hfr4, Hfr, lookup_app_r, Nat.sub_diag.
Qed.

(** Pushes and pops on one array leave the other arrays, the frames and the
    result alone. *)
Lemma after_stack_ops_frame (live : ref) (ops : list stack_op) :
  forall (s : State) (snap : ref),
    snap <> live ->
    arrays (after_stack_ops live ops s) !! snap = arrays s !! snap
    /\ frames (after_stack_ops live ops s) = frames s
    /\ __bracketContext (after_stack_ops live ops s) = __bracketContext s.
Proof.
  induction ops as [|op ops IH]; intros s snap Hne; [done|].
  cbn [after_stack_ops foldl]. fold (after_stack_ops live ops).
  destruct (IH (snd (apply_stack_op live op s)) snap Hne) as (Ha & Hf & Hb).
  unfold after_stack_ops in *. rewrite Ha, Hf, Hb.
  destruct op as [x|]; cbn.
  - by rewrite list_lookup_insert_ne.
  - unfold bind, array_pop. destruct (last (array_read live s)); cbn; [|done].
    by rewrite list_lookup_insert_ne.
Qed.

(** C4: on a forwarding port whose buffer holds an opening bracket [o],
    a data packet [d] and a closing bracket, with no frame on the port's
    bracket stack, one [getData] call returns the payload of [d], pushes
    one frame for [o] on the live stack, and stores under
    [result.__bracketContext[port]] an array of its own, different from the
    live stack, that holds that one frame, open and carrying [o] with its
    label.  Whatever is pushed to or popped from the live stack afterwards,
    the snapshot array still holds that frame and the frame is unchanged. *)
Theorem forwarding_read_snapshots_bracket_context (s : State)
    (port : portref) (p : InPort) (o d c : IP) :
  ports s !! ref_name port = Some p ->
  well_addressed port p ->
  ref_name port ∈ forwardBrackets s ->
  buffer p (scope s) (ref_index port) = [o; d; c] ->
  ip_type o = openBracket -> ip_type d = data -> ip_type c = closeBracket ->
  live_ok s (ref_name port) (ref_index port) ->
  stack_of s (ref_name port) (ref_index port) = [] ->
  exists s' live snap f,
    getData [port] s = (Return (One (ip_data d)), s')
    /\ stack_is s' (ref_name port) (ref_index port) live [f]
    /\ snapshot_ref s' (ref_name port) = Some snap
    /\ snap <> live
    /\ arrays s' !! snap = Some [f]
    /\ frames s' !! f = Some (mkBracketContext o [] (ref_name port) None)
    /\ forall ops : list stack_op,
         snapshot_ref (after_stack_ops live ops s') (ref_name port) = Some snap
         /\ arrays (after_stack_ops live ops s') !! snap = Some [f]
         /\ frames (after_stack_ops live ops s') !! f
            = Some (mkBracketContext o [] (ref_name port) None).
Proof.
  intros Hp Ha Hf Hb Ho Hd Hc Hok Hemp.
  destruct (activation_only_fields _ _ (activate_activation_only s))
    as (Hps & Hsc & Hfw & Hbc & Harr & _).
  set (s1 := snd (activate s)) in *.
  assert (live_ok s1 (ref_name port) (ref_index port)) as Hok1.
  { unfold live_ok, stack_ref in *. by rewrite Hbc, Hsc, Harr. }
  assert (stack_of s1 (ref_name port) (ref_index port) = []) as Hemp1.
  { unfold stack_of, stack_ref, array_read in *. by rewrite Hbc, Hsc, Harr. }
  rewrite <- Hps in Hp. rewrite <- Hsc in Hb. rewrite <- Hfw in Hf.
  destruct (forwarding_open_data s1 _ _ p o d [c] Hp Hb Ho Hd Hok1 Hemp1)
    as (s' & live & snap & f & Hrun & Hst & Hsr & Hne & Hsnap & Hfr).
  exists s', live, snap, f.
  split.
  - unfold getData. cbn [default_in getData_forEach].
    unfold bind at 1. unfold bind at 1. unfold getData_port. unfold bind at 1.
    rewrite get1_eq. fold s1.
    rewrite (get_port_forwarding_ref s1 port p Hp Ha Hf), Hrun.
    unfold bind at 1. cbn [gets]. unfold bind at 1.
    cbn [getData_while]. rewrite Hd. reflexivity.
  - repeat (split; [assumption|]).
    intros ops.
    destruct (after_stack_ops_frame live ops s' snap Hne) as (Ha' & Hf' & Hb').
    unfold snapshot_ref in *. by rewrite Ha', Hf', Hb'.
Qed.

Lemma forwarding_read_snapshots_bracket_context_witness :
  ports bracketed_node !! "in"
    = Some (port_with false None [OB "L"; D 7; CB "L"])
  /\ well_addressed (PName "in") (port_with false None [OB "L"; D 7; CB "L"])
  /\ ("in" ∈ forwardBrackets bracketed_node)
  /\ live_ok bracketed_node "in" None
  /\ stack_of bracketed_node "in" None = []
  /\ exists s' live snap f,
       getData [PName "in"] bracketed_node = (Return (One (VNum 7)), s')
       /\ stack_is s' "in" None live [f]
       /\ snapshot_ref s' "in" = Some snap
       /\ snap <> live
       /\ arrays s' !! snap = Some [f]
       /\ frames s' !! f = Some (mkBracketContext (OB "L") [] "in" None)
       /\ forall ops : list stack_op,
            snapshot_ref (after_stack_ops live ops s') "in" = Some snap
            /\ arrays (after_stack_ops live ops s') !! snap = Some [f]
            /\ frames (after_stack_ops live ops s') !! f
               = Some (mkBracketContext (OB "L") [] "in" None).
Proof.
  assert (ports bracketed_node !! "in"
          = Some (port_with false None [OB "L"; D 7; CB "L"])) as Hp
    by (vm_compute; reflexivity).
  assert ("in" ∈ forwardBrackets bracketed_node) as Hf
    by (refine (bool_decide_unpack _ _); vm_compute; exact I).
  assert (live_ok bracketed_node "in" None) as Hok by (vm_compute; exact I).
  assert (buffer (port_with false None [OB "L"; D 7; CB "L"])
            (scope bracketed_node) None = [OB "L"; D 7; CB "L"]) as Hb
    by (vm_compute; reflexivity).
  split; [exact Hp|]. split; [reflexivity|]. split; [exact Hf|].
  split; [exact Hok|]. split; [reflexivity|].
  exact (forwarding_read_snapshots_bracket_context bracketed_node (PName "in")
           _ (OB "L") (D 7) (CB "L") Hp eq_refl Hf Hb eq_refl eq_refl eq_refl
           Hok eq_refl).
Defined.

(** The frames themselves are shared: a later forwarding read that pops the
    frame writes [closeIp] into the object the earlier snapshot refers
    to. *)
Lemma later_close_marks_shared_frame :
  let s1 := snd (getData [PName "in"] bracketed_node) in
  let s2 := snd (getData [PName "in"] s1) in
  arrays s1 !! 1 = Some [0] /\ arrays s2 !! 1 = Some [0]
  /\ closeIp <$> frames s1 !! 0 = Some None
  /\ closeIp <$> frames s2 !! 0 = Some (Some (CB "L"))
  /\ __bracketClosingBefore s2 = Some [0].
Proof. vm_compute. repeat split. Qed.

(** ** The loops end within their bounds *)

Lemma total_ret {A} (a : A) : total (ret a).
Proof. intros s. done. Qed.

Lemma total_throw {A} (e : Exception) : total (@throw A e).
Proof. intros s. done. Qed.

Lemma total_gets {A} (f : State -> A) : total (gets f).
Proof. intros s. done. Qed.

Lemma total_modify (f : State -> State) : total (modify f).
Proof. intros s. done. Qed.

Lemma total_bind {A B} (m : M A) (k : A -> M B) :
  total m -> (forall a, total (k a)) -> total (bind m k).
Proof.
  intros Hm Hk s. unfold bind. specialize (Hm s).
  destruct (m s) as [[a|e|] s']; cbn in *; [apply Hk|done..].
Qed.

Ltac total_with known :=
  repeat first
    [ solve [known]
    | apply total_ret | apply total_throw | apply total_gets
    | apply total_modify
    | apply total_bind; [|intros ?]
    | match goal with
      | |- total (match ?x with _ => _ end) => destruct x
      end ].

Create HintDb total_db.

Lemma port_deref_total n m : total (port_deref n m).
Proof. intros s. unfold port_deref. by destruct (ports s !! n). Qed.

Lemma getBracketContext_total port sc idx :
  total (getBracketContext port sc idx).
Proof.
  intros s. unfold getBracketContext. by destruct (bracketContext s !! _).
Qed.

Lemma array_pop_total r : total (array_pop r).
Proof. intros s. unfold array_pop. by destruct (last _). Qed.

Lemma array_slice_total r : total (array_slice r).
Proof. intros s. done. Qed.

Lemma new_frame_total fr : total (new_frame fr).
Proof. intros s. done. Qed.

#[local] Hint Resolve port_deref_total getBracketContext_total array_pop_total
  array_slice_total new_frame_total : total_db.

Lemma port_get_total port sc idx : total (port_get port sc idx).
Proof. unfold port_get. total_with ltac:(auto with total_db nocore). Qed.

Lemma forward_step_total port idx p : total (forward_step port idx p).
Proof.
  unfold forward_step, array_push, set_closeIp.
  total_with ltac:(auto with total_db nocore).
Qed.

#[local] Hint Resolve port_get_total forward_step_total : total_db.

Lemma forward_prefix_total port idx prefix :
  total (forward_prefix port idx prefix).
Proof.
  induction prefix as [|p rest IH]; cbn [forward_prefix];
    total_with ltac:(auto with total_db nocore).
Qed.

Lemma snapshot_context_total port idx : total (snapshot_context port idx).
Proof.
  unfold snapshot_context. total_with ltac:(auto with total_db nocore).
Qed.

#[local] Hint Resolve forward_prefix_total snapshot_context_total : total_db.

Lemma __getForForwarding_total port idx : total (__getForForwarding port idx).
Proof.
  intros s. unfold __getForForwarding. unfold bind at 1. cbn [gets].
  destruct (ports s !! port) as [p|] eqn:Hp.
  - destruct (read_until_data_spec port idx (S (pending s port idx)) s p [] Hp)
      as (s' & Hr & _).
    { unfold pending. rewrite Hp. lia. }
    rewrite (bind_returns _ _ _ _ _ Hr).
    assert (total (forward_prefix port idx ([] ++ bracket_prefix (buffer p (scope s) idx)) ;;;
                   snapshot_context port idx ;;;
                   ret (first_data (buffer p (scope s) idx)))) as Ht
      by total_with ltac:(auto with total_db nocore).
    apply Ht.
  - cbn [read_until_data]. unfold bind at 1. unfold bind at 1. cbn [gets].
    unfold port_get, port_deref, bind. by rewrite Hp.
Qed.

#[local] Hint Resolve __getForForwarding_total : total_db.

Lemma isForwardingInport_total port : total (isForwardingInport port).
Proof. intros s. done. Qed.

#[local] Hint Resolve isForwardingInport_total : total_db.

Lemma get_port_total port : total (get_port port).
Proof. unfold get_port. total_with ltac:(auto with total_db nocore). Qed.

#[local] Hint Resolve get_port_total : total_db.

Lemma activate_total : total activate.
Proof. intros s. by rewrite activate_returns. Qed.

#[local] Hint Resolve activate_total : total_db.

Lemma get_loop_total args res : total (get_loop args res).
Proof.
  revert res. induction args as [|port rest IH]; intros res; cbn [get_loop];
    total_with ltac:(auto with total_db nocore).
Qed.

#[local] Hint Resolve get_loop_total : total_db.

Lemma get_total params : total (get params).
Proof. unfold get. total_with ltac:(auto with total_db nocore). Qed.

#[local] Hint Resolve get_total : total_db.

Lemma get1_total port : total (get1 port).
Proof. unfold get1. total_with ltac:(auto with total_db nocore). Qed.

#[local] Instance same_buffers_preorder : PreOrder same_buffers.
Proof.
  split.
  - intros s. by split.
  - intros s1 s2 s3 [? ?] [? ?]. split; congruence.
Qed.

Lemma forward_prefix_buffers port idx prefix :
  preserves same_buffers (forward_prefix port idx prefix).
Proof.
  induction prefix as [|p rest IH]; cbn [forward_prefix].
  - apply (preserves_ret same_buffers).
  - apply (preserves_bind same_buffers); [|intros _; exact IH].
    unfold forward_step, array_push, set_closeIp.
    frame_with same_buffers
      ltac:(first [ apply getBracketContext_total
                  | intros s; unfold getBracketContext, array_pop, new_frame;
                    repeat case_match; by split ])
      ltac:(by split).
Qed.

Lemma snapshot_context_buffers port idx :
  preserves same_buffers (snapshot_context port idx).
Proof.
  unfold snapshot_context.
  frame_with same_buffers
    ltac:(intros s; unfold getBracketContext, array_slice;
          repeat case_match; by split)
    ltac:(by split).
Qed.

Lemma read_until_data_S (port : string) (idx : Index) (fuel : nat)
    (s : State) (p : InPort) (pre : list IP) :
  ports s !! port = Some p ->
  read_until_data (S fuel) port idx pre s
  = match buffer p (scope s) idx with
    | [] => (Return (pre, Null), s)
    | x :: rest =>
        match ip_type x with
        | data =>
            (Return (pre, Pkt x),
             set_ports (insert port (with_buffer p (scope s) idx rest)) s)
        | _ =>
            read_until_data fuel port idx (pre ++ [x])
              (set_ports (insert port (with_buffer p (scope s) idx rest)) s)
        end
    end.
Proof.
  intros Hp. cbn [read_until_data]. unfold bind at 1. cbn [gets].
  destruct (buffer p (scope s) idx) as [|x rest] eqn:Hb.
  - by rewrite (bind_returns _ _ _ _ _ (port_get_nil s port p _ idx Hp Hb)).
  - rewrite (bind_returns _ _ _ _ _ (port_get_cons s port p _ idx x rest Hp Hb)).
    by destruct (ip_type x).
Qed.

Lemma read_until_data_pending (port : string) (idx : Index) (fuel : nat) :
  forall (s : State) (p : InPort) (pre : list IP),
    ports s !! port = Some p ->
    length (buffer p (scope s) idx) < fuel ->
    scope (snd (read_until_data fuel port idx pre s)) = scope s
    /\ pending (snd (read_until_data fuel port idx pre s)) port idx
       <= pending s port idx
    /\ (falsy (first_data (buffer p (scope s) idx)) = false ->
        pending (snd (read_until_data fuel port idx pre s)) port idx
        < pending s port idx).
Proof.
  induction fuel as [|fuel IH]; intros s p pre Hp Hlen; [lia|].
  rewrite (read_until_data_S port idx fuel s p pre Hp).
  destruct (buffer p (scope s) idx) as [|x rest] eqn:Hb.
  - cbn. split; [done|]. split; [lia|done].
  - set (s2 := set_ports _ s).
    assert (pending s2 port idx = length rest) as Hs2.
    { unfold pending, s2. cbn. rewrite lookup_insert_eq. cbn.
      by rewrite buffer_with_buffer. }
    assert (pending s port idx = S (length rest)) as Hs.
    { unfold pending. by rewrite Hp, Hb. }
    cbn [first_data].
    destruct (ip_type x) eqn:Hx; cbn [snd].
    + rewrite Hs2, Hs. split; [done|]. split; lia.
    + destruct (IH s2 (with_buffer p (scope s) idx rest) (pre ++ [x]))
        as (Hsc & Hle & _).
      { apply set_buffer_lookup. }
      { cbn. rewrite buffer_with_buffer. cbn in Hlen. lia. }
      split; [exact Hsc|]. split; [lia|intros _; lia].
    + destruct (IH s2 (with_buffer p (scope s) idx rest) (pre ++ [x]))
        as (Hsc & Hle & _).
      { apply set_buffer_lookup. }
      { cbn. rewrite buffer_with_buffer. cbn in Hlen. lia. }
      split; [exact Hsc|]. split; [lia|intros _; lia].
Qed.

Lemma same_buffers_pending (s s' : State) port idx :
  same_buffers s s' -> pending s' port idx = pending s port idx.
Proof. intros [Hp Hs]. unfold pending. by rewrite Hp, Hs. Qed.

(** A read that returns a packet has taken it from the buffer. *)
Lemma __getForForwarding_consumes (s s' : State) port idx p x :
  ports s !! port = Some p ->
  __getForForwarding port idx s = (Return (Pkt x), s') ->
  pending s' port idx < pending s port idx.
Proof.
  intros Hp. unfold __getForForwarding. unfold bind at 1. cbn [gets].
  assert (length (buffer p (scope s) idx) < S (pending s port idx)) as Hlen.
  { unfold pending. rewrite Hp. lia. }
  destruct (read_until_data_spec port idx _ s p [] Hp Hlen) as (s2 & Hr & _).
  destruct (read_until_data_pending port idx _ s p [] Hp Hlen) as (_ & _ & Hlt).
  rewrite Hr in Hlt. cbn [snd] in Hlt.
  rewrite (bind_returns _ _ _ _ _ Hr). cbn [app].
  unfold bind at 1.
  pose proof (forward_prefix_buffers port idx
                (bracket_prefix (buffer p (scope s) idx)) s2) as Hb1.
  destruct (forward_prefix _ _ _ s2) as [[[]|e|] s3]; try done.
  unfold bind at 1.
  pose proof (snapshot_context_buffers port idx s3) as Hb2.
  destruct (snapshot_context _ _ s3) as [[[]|e|] s4]; try done.
  cbn in Hb1, Hb2 |- *. intros [= Hd <-].
  rewrite (same_buffers_pending s3 s4 port idx Hb2).
  rewrite (same_buffers_pending s2 s3 port idx Hb1).
  apply Hlt. by rewrite Hd.
Qed.

Lemma port_get_consumes (s s' : State) port idx x :
  port_get port (scope s) idx s = (Return (Pkt x), s') ->
  pending s' port idx < pending s port idx.
Proof.
  unfold port_get, port_deref. unfold bind at 1. unfold pending at 2.
  destruct (ports s !! port) as [p|] eqn:Hp; [|done].
  unfold InPort_get.
  destruct (buffer p (scope s) idx) as [|y rest] eqn:Hb; [done|].
  cbn. intros [= _ <-]. unfold pending. cbn.
  rewrite lookup_insert_eq. rewrite buffer_with_buffer. cbn. lia.
Qed.

Lemma get_port_consumes (s s' : State) (port : portref) x :
  get_port port s = (Return (Pkt x), s') ->
  pending_ref s' port < pending_ref s port.
Proof.
  unfold get_port. unfold bind at 1.
  destruct port as [n|n i]; unfold bind at 1, port_deref;
    (destruct (ports s !! n) as [p|] eqn:Hp; [|done]).
  - destruct (addressable p); [done|]. cbn [negb ret throw].
    unfold bind at 1. cbn [isForwardingInport gets].
    case_bool_decide.
    + apply (__getForForwarding_consumes s s' n None p x Hp).
    + unfold bind at 1. cbn [gets]. apply port_get_consumes.
  - destruct (addressable p); [|done]. cbn [negb ret throw].
    unfold bind at 1. cbn [isForwardingInport gets].
    case_bool_decide.
    + apply (__getForForwarding_consumes s s' n (Some i) p x Hp).
    + unfold bind at 1. cbn [gets]. apply port_get_consumes.
Qed.

Lemma get1_consumes (s s' : State) (port : portref) x :
  get1 port s = (Return (Pkt x), s') ->
  pending_ref s' port < pending_ref s port.
Proof.
  rewrite get1_eq. intros H. apply get_port_consumes in H.
  destruct (activation_only_fields _ _ (activate_activation_only s))
    as (Hps & Hsc & _).
  destruct port; unfold pending_ref, pending in *; by rewrite <- Hps, <- Hsc.
Qed.

Lemma getStream_while_total (port : portref) (fuel : nat) :
  forall (s : State) (current : maybeIP) (v : StreamVars),
    pending_ref s port < fuel ->
    fst (getStream_while fuel port current v s) <> OutOfFuel.
Proof.
  induction fuel as [|fuel IH]; intros s current v Hlt; [lia|].
  cbn [getStream_while]. destruct current as [| |p]; [done..|].
  destruct (stream_body v p) as [v' []]; [done|].
  unfold bind. pose proof (get1_total port s) as Ht.
  destruct (get1 port s) as [[next|e|] s'] eqn:Hg; cbn in Ht; [|done..].
  destruct next as [| |y].
  - by destruct fuel.
  - by destruct fuel.
  - apply IH. apply get1_consumes in Hg. lia.
Qed.

Lemma getData_while_total (port : portref) (fuel : nat) :
  forall (s : State) (packet : IP),
    pending_ref s port < fuel ->
    fst (getData_while fuel port packet s) <> OutOfFuel.
Proof.
  induction fuel as [|fuel IH]; intros s packet Hlt; [lia|].
  cbn [getData_while]. destruct (ip_type packet); [done| |].
  - unfold bind. pose proof (get1_total port s) as Ht.
    destruct (get1 port s) as [[next|e|] s'] eqn:Hg; cbn in Ht; [|done..].
    destruct next as [| |y]; [done..|].
    destruct fuel as [|fuel'].
    + apply get1_consumes in Hg. lia.
    + apply IH. apply get1_consumes in Hg. lia.
  - unfold bind. pose proof (get1_total port s) as Ht.
    destruct (get1 port s) as [[next|e|] s'] eqn:Hg; cbn in Ht; [|done..].
    destruct next as [| |y]; [done..|].
    destruct fuel as [|fuel'].
    + apply get1_consumes in Hg. lia.
    + apply IH. apply get1_consumes in Hg. lia.
Qed.

Lemma getStream_port_total port : total (getStream_port port).
Proof.
  intros s. unfold getStream_port. unfold bind at 1.
  pose proof (get1_total port s) as Ht.
  destruct (get1 port s) as [[first|e|] s'] eqn:Hg; cbn in Ht; [|done..].
  unfold bind at 1. cbn [gets]. unfold bind.
  pose proof (getStream_while_total port (S (pending_ref s' port)) s' first
                no_stream (Nat.lt_succ_diag_r _)) as Hw.
  fold no_stream.
  by destruct (getStream_while _ port first no_stream s') as [[l|e|] s''].
Qed.

Lemma getData_port_total port : total (getData_port port).
Proof.
  intros s. unfold getData_port. unfold bind at 1.
  pose proof (get1_total port s) as Ht.
  destruct (get1 port s) as [[first|e|] s'] eqn:Hg; cbn in Ht; [|done..].
  destruct first as [| |p]; [done..|].
  unfold bind at 1. cbn [gets]. unfold bind.
  pose proof (getData_while_total port (S (pending_ref s' port)) s' p
                (Nat.lt_succ_diag_r _)) as Hw.
  destruct (getData_while _ port p s') as [[[| |d]|e|] s'']; done.
Qed.

Lemma getStream_loop_total args datas : total (getStream_loop args datas).
Proof.
  revert datas. induction args as [|port rest IH]; intros datas;
    cbn [getStream_loop]; [apply total_ret|].
  apply total_bind; [apply getStream_port_total|intros; apply IH].
Qed.

Lemma getData_forEach_total args datas : total (getData_forEach args datas).
Proof.
  revert datas. induction args as [|port rest IH]; intros datas;
    cbn [getData_forEach]; [apply total_ret|].
  apply total_bind; [apply getData_port_total|intros; apply IH].
Qed.

(** The bounds computed from the buffers cover every loop: no read ends
    for lack of fuel, in any state and for any arguments. *)
Theorem reads_end_within_their_bounds (params : list portref) :
  total (get params) /\ total (getData params) /\ total (getStream params).
Proof.
  split; [apply get_total|]. split.
  - unfold getData. apply total_bind; [apply getData_forEach_total|].
    intros datas. destruct (_ =? _); apply total_ret.
  - unfold getStream. apply total_bind; [apply getStream_loop_total|].
    intros datas. destruct (_ =? _); apply total_ret.
Qed.

(** ** getData on plain ports *)

Lemma getData_while_plain (port : string) (fuel : nat) :
  forall (s : State) (p : InPort) (x : IP),
    ports s !! port = Some p -> addressable p = false ->
    port ∉ forwardBrackets s ->
    length (buffer p (scope s) None) < fuel ->
    fst (getData_while fuel (PName port) x s)
    = Return (match first_data (x :: buffer p (scope s) None) with
              | Pkt d => Pkt d
              | _ => Undefined
              end).
Proof.
  induction fuel as [|fuel IH]; intros s p x Hp Ha Hf Hlen; [lia|].
  cbn [getData_while first_data].
  assert (fst ((let* next := get1 (PName port) in
                match next with
                | Pkt p0 => getData_while fuel (PName port) p0
                | _ => ret next
                end) s)
          = Return (match first_data (buffer p (scope s) None) with
                    | Pkt d => Pkt d
                    | _ => Undefined
                    end)) as Hloop.
  { unfold bind at 1. rewrite get1_eq.
    destruct (activation_only_fields _ _ (activate_activation_only s))
      as (Hps & Hsc & Hfw & _).
    set (s1 := snd (activate s)) in *.
    rewrite <- Hps in Hp. rewrite <- Hsc in Hlen |- *. rewrite <- Hfw in Hf.
    rewrite (get_port_plain s1 port p Hp Ha Hf).
    destruct (buffer p (scope s1) None) as [|y rest] eqn:Hb.
    - by rewrite (port_get_nil s1 port p _ None Hp Hb).
    - rewrite (port_get_cons s1 port p _ None y rest Hp Hb).
      rewrite (IH _ (with_buffer p (scope s1) None rest)).
      + cbn. by rewrite buffer_with_buffer.
      + apply set_buffer_lookup.
      + done.
      + done.
      + cbn. rewrite buffer_with_buffer. cbn in Hlen. lia. }
  destruct (ip_type x); [done|exact Hloop..].
Qed.

(** On a plain, non-forwarding port [getData] returns an absent value for
    an empty buffer and the payload of the first data packet otherwise,
    except that it fails when the buffer holds brackets only. *)
Lemma getData_plain (s : State) (port : string) (p : InPort) :
  ports s !! port = Some p -> addressable p = false ->
  port ∉ forwardBrackets s ->
  fst (getData [PName port] s) = read_value (buffer p (scope s) None).
Proof.
  intros Hp Ha Hf. unfold getData. cbn [default_in getData_forEach].
  unfold bind at 1. unfold bind at 1. unfold getData_port. unfold bind at 1.
  rewrite get1_eq.
  destruct (activation_only_fields _ _ (activate_activation_only s))
    as (Hps & Hsc & Hfw & _).
  set (s1 := snd (activate s)) in *.
  rewrite <- Hps in Hp. rewrite <- Hsc. rewrite <- Hfw in Hf.
  rewrite (get_port_plain s1 port p Hp Ha Hf).
  destruct (buffer p (scope s1) None) as [|y rest] eqn:Hb.
  - by rewrite (port_get_nil s1 port p _ None Hp Hb).
  - rewrite (port_get_cons s1 port p _ None y rest Hp Hb).
    unfold bind at 1. cbn [gets]. unfold bind at 1.
    set (s2 := set_ports _ s1).
    pose proof (getData_while_plain port (S (pending_ref s2 (PName port)))
                  s2 (with_buffer p (scope s1) None rest) y
                  (set_buffer_lookup _ _ _) Ha Hf) as Hw.
    cbn [scope s2 set_ports] in Hw. rewrite buffer_with_buffer in Hw.
    destruct (getData_while _ _ _ s2) as [o s3]. cbn [fst] in Hw.
    rewrite Hw.
    + unfold read_value. by destruct (first_data (y :: rest)).
    + unfold pending_ref, pending, s2. cbn. rewrite lookup_insert_eq. cbn.
      rewrite buffer_with_buffer. lia.
Qed.

(** ** Mismatched and missing ports in get *)

Lemma get_single (port : portref) (s : State) :
  get [port] s
  = match get_port port (snd (activate s)) with
    | (Return p, s') => (Return (One p), s')
    | (Throw e, s') => (Throw e, s')
    | (OutOfFuel, s') => (OutOfFuel, s')
    end.
Proof.
  unfold get. rewrite (bind_returns _ _ _ _ _ (activate_run s)).
  cbn [default_in get_loop]. unfold bind.
  by destruct (get_port port _) as [[p| |] s'].
Qed.

Lemma get_port_mismatch (s : State) (n : string) (i : nat) (p : InPort) :
  ports s !! n = Some p ->
  (addressable p = true ->
     get_port (PName n) s = (Throw (AddressableError "portname"), s))
  /\ (addressable p = false ->
     get_port (PIdx n i) s = (Throw (NonAddressableError "portname"), s)).
Proof.
  intros Hp. split; intros Ha; unfold get_port, port_deref, bind;
    by rewrite Hp, Ha.
Qed.

(** A single-port [get] that names an addressable port by its plain name,
    or a plain port by a pair, throws the mismatch error and leaves every
    buffer as it was. *)
Lemma get_mismatch (s : State) (n : string) (i : nat) (p : InPort) :
  ports s !! n = Some p ->
  (addressable p = true ->
     fst (get [PName n] s) = Throw (AddressableError "portname")
     /\ ports (snd (get [PName n] s)) = ports s)
  /\ (addressable p = false ->
     fst (get [PIdx n i] s) = Throw (NonAddressableError "portname")
     /\ ports (snd (get [PIdx n i] s)) = ports s).
Proof.
  intros Hp.
  destruct (activation_only_fields _ _ (activate_activation_only s))
    as (Hps & _).
  rewrite <- Hps in Hp.
  destruct (get_port_mismatch (snd (activate s)) n i p Hp) as [H1 H2].
  split; intros Ha; rewrite get_single.
  - by rewrite (H1 Ha).
  - by rewrite (H2 Ha).
Qed.

(** A single-port [get] on a name that is not registered ends in the
    TypeError of the call on [undefined]. *)
Lemma get_missing_port (s : State) (n : string) (i : nat) :
  ports s !! n = None ->
  fst (get [PName n] s) = Throw (TypeError "isAddressable")
  /\ fst (get [PIdx n i] s) = Throw (TypeError "isAddressable").
Proof.
  intros Hp.
  destruct (activation_only_fields _ _ (activate_activation_only s))
    as (Hps & _).
  rewrite <- Hps in Hp.
  split; rewrite get_single; unfold get_port, port_deref, bind;
    by rewrite Hp.
Qed.

(** [has] and [attached] report a name that is not registered. *)
Lemma has_missing_port (s : State) (n : string) :
  ports s !! n = None ->
  has [Port (PName n)] s = (Throw (NoPortError (nodeId s) n), s)
  /\ attached [n] s = (Throw (NoPortError (nodeId s) n), s).
Proof.
  intros Hp. split.
  - unfold has. cbn. unfold bind, gets. by rewrite Hp.
  - unfold attached. cbn. unfold bind, gets. by rewrite Hp.
Qed.

(** ** The bracket stacks stay allocated *)

#[local] Instance keeps_wf_preorder : PreOrder keeps_wf.
Proof.
  split; [intros s H; exact H|]. intros s1 s2 s3 H1 H2 H. by apply H2, H1.
Qed.

Lemma getBracketContext_wf port sc idx :
  preserves keeps_wf (getBracketContext port sc idx).
Proof.
  intros s Hwf. unfold getBracketContext.
  destruct (bracketContext s !! (port, sc, idx)) as [r|] eqn:Hr; [done|].
  intros k r. cbn. rewrite length_app. cbn.
  destruct (decide ((port, sc, idx) = k)) as [->|Hne].
  - rewrite lookup_insert_eq. intros [= <-]. lia.
  - rewrite lookup_insert_ne by done. intros Hk. specialize (Hwf k r Hk). lia.
Qed.

Lemma set_arrays_insert_wf (s : State) r (l : list ref) :
  keeps_wf s (set_arrays (<[r := l]>) s).
Proof. intros Hwf k r' Hk. cbn in *. rewrite length_insert. by eapply Hwf. Qed.

Lemma array_pop_wf r : preserves keeps_wf (array_pop r).
Proof.
  intros s. unfold array_pop. destruct (last _); [|done].
  apply set_arrays_insert_wf.
Qed.

Lemma array_push_wf r x : preserves keeps_wf (array_push r x).
Proof. intros s. apply set_arrays_insert_wf. Qed.

Lemma array_slice_wf r : preserves keeps_wf (array_slice r).
Proof.
  intros s Hwf k r' Hk. cbn in *. rewrite length_app. cbn.
  specialize (Hwf k r' Hk). lia.
Qed.

Lemma new_frame_wf fr : preserves keeps_wf (new_frame fr).
Proof. by intros s Hwf. Qed.

Lemma set_closeIp_wf c p : preserves keeps_wf (set_closeIp c p).
Proof. by intros s Hwf. Qed.

Lemma port_deref_wf n m : preserves keeps_wf (port_deref n m).
Proof. intros s. unfold port_deref. by destruct (ports s !! n). Qed.

Create HintDb wf_db.

#[local] Hint Resolve getBracketContext_wf array_pop_wf array_push_wf
  array_slice_wf new_frame_wf set_closeIp_wf port_deref_wf : wf_db.

Ltac wf_frame :=
  frame_with keeps_wf ltac:(auto with wf_db nocore) ltac:(by intros ?).

Lemma port_get_wf port sc idx : preserves keeps_wf (port_get port sc idx).
Proof. unfold port_get. wf_frame. Qed.

#[local] Hint Resolve port_get_wf : wf_db.

Lemma read_until_data_wf fuel port idx prefix :
  preserves keeps_wf (read_until_data fuel port idx prefix).
Proof.
  revert prefix. induction fuel as [|fuel IH]; intros prefix; cbn; wf_frame.
Qed.

Lemma forward_step_wf port idx p : preserves keeps_wf (forward_step port idx p).
Proof. unfold forward_step. wf_frame. Qed.

#[local] Hint Resolve read_until_data_wf forward_step_wf : wf_db.

Lemma forward_prefix_wf port idx prefix :
  preserves keeps_wf (forward_prefix port idx prefix).
Proof. induction prefix as [|p rest IH]; cbn [forward_prefix]; wf_frame. Qed.

Lemma snapshot_context_wf port idx :
  preserves keeps_wf (snapshot_context port idx).
Proof. unfold snapshot_context. wf_frame. Qed.

#[local] Hint Resolve forward_prefix_wf snapshot_context_wf : wf_db.

Lemma __getForForwarding_wf port idx :
  preserves keeps_wf (__getForForwarding port idx).
Proof. unfold __getForForwarding. wf_frame. Qed.

#[local] Hint Resolve __getForForwarding_wf : wf_db.

Lemma get_port_wf port : preserves keeps_wf (get_port port).
Proof. unfold get_port, isForwardingInport. wf_frame. Qed.

#[local] Hint Resolve get_port_wf : wf_db.

Lemma get_loop_wf args res : preserves keeps_wf (get_loop args res).
Proof.
  revert res. induction args as [|port rest IH]; intros res; cbn [get_loop];
    wf_frame.
Qed.

#[local] Hint Resolve get_loop_wf : wf_db.

Lemma get_wf params : preserves keeps_wf (get params).
Proof.
  unfold get, activate, isOrdered, nodeInstance_activate. wf_frame.
Qed.

#[local] Hint Resolve get_wf : wf_db.

Lemma get1_wf port : preserves keeps_wf (get1 port).
Proof. unfold get1. wf_frame. Qed.

#[local] Hint Resolve get1_wf : wf_db.

Lemma getData_wf params : preserves keeps_wf (getData params).
Proof.
  assert (forall fuel port packet,
            preserves keeps_wf (getData_while fuel port packet)) as Hw.
  { induction fuel as [|fuel IH]; intros port packet; cbn; wf_frame. }
  assert (forall args datas, preserves keeps_wf (getData_forEach args datas))
    as Hl.
  { induction args as [|port rest IH]; intros datas; cbn [getData_forEach];
      [wf_frame|].
    apply (preserves_bind keeps_wf); [|intros d; apply IH].
    unfold getData_port. wf_frame. }
  unfold getData. wf_frame.
Qed.

Lemma getStream_wf params : preserves keeps_wf (getStream params).
Proof.
  assert (forall fuel port current v,
            preserves keeps_wf (getStream_while fuel port current v)) as Hw.
  { induction fuel as [|fuel IH]; intros port current v; cbn; wf_frame. }
  assert (forall args datas, preserves keeps_wf (getStream_loop args datas))
    as Hl.
  { induction args as [|port rest IH]; intros datas; cbn [getStream_loop];
      [wf_frame|].
    apply (preserves_bind keeps_wf); [|intros d; apply IH].
    unfold getStream_port. wf_frame. }
  unfold getStream. wf_frame.
Qed.

(** A node that has not read yet is well formed, every read keeps the
    store well formed, and in a well-formed store the stack of every port
    is an allocated array. *)
Theorem stacks_stay_allocated (params : list portref) (s : State) :
  wf_stacks (fresh_node (ports s) (forwardBrackets s) (ordered s))
  /\ (wf_stacks s ->
      wf_stacks (snd (get params s))
      /\ wf_stacks (snd (getData params s))
      /\ wf_stacks (snd (getStream params s)))
  /\ (wf_stacks s -> forall port idx, live_ok s port idx).
Proof.
  split; [by intros k r|]. split.
  - intros Hwf. split; [by apply get_wf|].
    split; [by apply getData_wf|by apply getStream_wf].
  - intros Hwf port idx. unfold live_ok, stack_ref.
    destruct (bracketContext s !! _) as [r|] eqn:Hr; [|done].
    by eapply Hwf.
Qed.

(** * Further properties of the gateway *)

(** ** attached *)

Lemma attached_forEach_pure (args : list string) :
  forall (res : list (list nat)) (s : State),
    snd (attached_forEach args res s) = s.
Proof.
  induction args as [|n rest IH]; intros res s; [done|].
  cbn [attached_forEach]. unfold bind, gets. cbn.
  destruct (ports s !! n); [apply IH|done].
Qed.

Lemma attached_forEach_known (args : list string) :
  forall (ps : list InPort) (res : list (list nat)) (s : State),
    Forall2 (fun n p => ports s !! n = Some p) args ps ->
    fst (attached_forEach args res s)
    = Return (res ++ (attachedSockets <$> ps)).
Proof.
  induction args as [|n rest IH]; intros ps res s H.
  - apply Forall2_nil_inv_l in H as ->. cbn. by rewrite app_nil_r.
  - apply Forall2_cons_inv_l in H as (p & ps' & Hp & Hrest & ->).
    cbn [attached_forEach]. unfold bind, gets. cbn. rewrite Hp.
    rewrite (IH ps' _ s Hrest). cbn. by rewrite <- app_assoc.
Qed.

Lemma attached_forEach_missing (known : list string) :
  forall (n : string) (rest : list string) (res : list (list nat)) (s : State),
    Forall (fun k => is_Some (ports s !! k)) known ->
    ports s !! n = None ->
    fst (attached_forEach (known ++ n :: rest) res s)
    = Throw (NoPortError (nodeId s) n).
Proof.
  induction known as [|k known IH]; intros n rest res s Hk Hn.
  - cbn. unfold bind, gets. cbn. by rewrite Hn.
  - apply Forall_cons in Hk as [[p Hp] Hk].
    cbn [app attached_forEach]. unfold bind, gets. cbn. rewrite Hp.
    by apply IH.
Qed.

(** X1: [attached] changes nothing, whatever it returns or throws: no
    packet is consumed and the node is not activated.  When every requested
    port is registered it returns their attachment lists in the order of
    the request (the list itself for one port), and otherwise it throws
    the "has no port" error for the first name that is not registered. *)
Theorem attached_lists_in_request_order (params : list string) (s : State) :
  snd (attached params s) = s
  /\ (forall ps,
        Forall2 (fun n p => ports s !! n = Some p)
          (default_in "in"%string params) ps ->
        fst (attached params s)
        = Return (if length ps =? 1
                  then One (last (attachedSockets <$> ps))
                  else Many (Some <$> (attachedSockets <$> ps))))
  /\ (forall known n rest,
        default_in "in"%string params = known ++ n :: rest ->
        Forall (fun k => is_Some (ports s !! k)) known ->
        ports s !! n = None ->
        fst (attached params s) = Throw (NoPortError (nodeId s) n)).
Proof.
  split; [|split].
  - unfold attached. unfold bind.
    pose proof (attached_forEach_pure (default_in "in"%string params) [] s) as H.
    destruct (attached_forEach _ [] s) as [[res|e|] s']; cbn in H; subst;
      [by destruct (_ =? _)|done..].
  - intros ps Hps. unfold attached. unfold bind.
    pose proof (attached_forEach_known _ ps [] s Hps) as H.
    rewrite (Forall2_length _ _ _ Hps).
    destruct (attached_forEach _ [] s) as [o s']. cbn in H. subst o. cbn.
    by destruct (length ps =? 1).
  - intros known n rest Hd Hk Hn. unfold attached. apply bind_fst_throws.
    rewrite Hd. by apply attached_forEach_missing.
Qed.

Lemma attached_lists_in_request_order_witness :
  Forall2 (fun n p => ports attached_node !! n = Some p)
    (default_in "in"%string ["in"; "b"]%string)
    [mkInPort true [0; 2] ∅; mkInPort false [0] ∅]
  /\ fst (attached ["in"; "b"]%string attached_node)
     = Return (Many [Some [0; 2]; Some [0]])
  /\ fst (attached ["in"; "nope"; "b"]%string attached_node)
     = Throw (NoPortError "node" "nope").
Proof.
  assert (Forall2 (fun n p => ports attached_node !! n = Some p)
            (default_in "in"%string ["in"; "b"]%string)
            [mkInPort true [0; 2] ∅; mkInPort false [0] ∅]) as Hps.
  { repeat constructor; vm_compute; reflexivity. }
  split; [exact Hps|]. split.
  - exact (proj1 (proj2 (attached_lists_in_request_order
                           ["in"; "b"]%string attached_node)) _ Hps).
  - apply (proj2 (proj2 (attached_lists_in_request_order
                           ["in"; "nope"; "b"]%string attached_node))
             ["in"%string] "nope"%string ["b"%string]).
    + reflexivity.
    + repeat constructor. vm_compute. eexists; reflexivity.
    + vm_compute; reflexivity.
Defined.

(** ** has with a stateless predicate *)

Lemma scan_pure_validator (f : IP -> bool) (buf : list IP) :
  scan (vstep (pure_validator f)) tt buf = (tt, existsb f buf).
Proof.
  induction buf as [|x rest IH]; [done|]. cbn.
  destruct (f x); [done|exact IH].
Qed.

Lemma has_loop_pure_cons (f : IP -> bool) (n : string) (rest : list portref)
    (s : State) :
  has_loop (pure_validator f) (PName n :: rest) tt s
  = match ports s !! n with
    | None => (Throw (NoPortError (nodeId s) n), s)
    | Some p =>
        if addressable p then (Throw (AddressableError n), s)
        else if existsb f (buffer p (scope s) None)
             then has_loop (pure_validator f) rest tt s
             else (Return false, s)
    end.
Proof.
  cbn [has_loop]. unfold bind at 1. unfold gets at 1. cbn [fst snd].
  destruct (ports s !! n) as [p|]; [|done].
  destruct (addressable p); [done|].
  unfold bind at 1. cbn [gets]. unfold InPort_has.
  rewrite scan_pure_validator. by destruct (existsb f _).
Qed.

Lemma has_loop_pure_validator (f : IP -> bool) (names : list string)
    (s : State) :
  fst (has_loop (pure_validator f) (PName <$> names) tt s) = Return true
  <-> Forall (plain_port_holds f s) names.
Proof.
  induction names as [|n rest IH]; [by split|].
  cbn [fmap list_fmap]. rewrite has_loop_pure_cons. split.
  - destruct (ports s !! n) as [p|] eqn:Hp; [|done].
    destruct (addressable p) eqn:Ha; [done|].
    destruct (existsb f _) eqn:He; [|done].
    intros H. constructor; [by exists p|]. by apply IH.
  - intros H. apply Forall_cons in H as [(p & Hp & Ha & He) Hrest].
    rewrite Hp, Ha, He. by apply IH.
Qed.

Lemma string_params_names {F} (names : list string) (f : F) :
  string_params ((Port <$> (PName <$> names)) ++ [Fn f]) = PName <$> names.
Proof.
  unfold string_params. rewrite omap_app. cbn. rewrite app_nil_r.
  induction names as [|n rest IH]; [done|]. cbn. by rewrite IH.
Qed.

Lemma last_function_snoc {F} (l : list (param F)) (f : F) :
  last_function (l ++ [Fn f]) = Some f.
Proof. unfold last_function. by rewrite last_snoc. Qed.

Lemma has_names_eq (names : list string) (V : Validator) (s : State) :
  names <> [] ->
  has ((Port <$> (PName <$> names)) ++ [Fn V]) s
  = has_loop V (PName <$> names) (vinit V) s.
Proof.
  intros Hne. unfold has.
  rewrite string_params_names, last_function_snoc. cbn [default].
  by destruct names.
Qed.

Lemma has_true_iff_every_port_holds_aux (f : IP -> bool)
    (names : list string) (s : State) :
  fst (has ((Port <$> (PName <$> default_in "in"%string names))
            ++ [Fn (pure_validator f)]) s) = Return true
  <-> Forall (plain_port_holds f s) (default_in "in"%string names).
Proof.
  rewrite has_names_eq by (by destruct names).
  apply has_loop_pure_validator.
Qed.

(** X2: called with plain port names and a stateless predicate, [has]
    answers [true] exactly when every named port is registered, is not
    addressable, and holds in its buffer for the current scope a packet
    that satisfies the predicate. *)
Theorem has_true_iff_every_port_holds (f : IP -> bool) (names : list string)
    (s : State) :
  names <> [] ->
  fst (has ((Port <$> (PName <$> names)) ++ [Fn (pure_validator f)]) s)
    = Return true
  <-> Forall (plain_port_holds f s) names.
Proof.
  intros Hne. rewrite (has_names_eq names _ s Hne).
  apply has_loop_pure_validator.
Qed.

Lemma has_true_iff_every_port_holds_witness :
  ["a"; "b"]%string <> []
  /\ Forall (plain_port_holds is_data two_ports_node) ["a"; "b"]%string
  /\ fst (has [Port (PName "a"); Port (PName "b");
               Fn (pure_validator is_data)] two_ports_node) = Return true.
Proof.
  assert (fst (has [Port (PName "a"); Port (PName "b");
                    Fn (pure_validator is_data)] two_ports_node)
          = Return true) as H by (vm_compute; reflexivity).
  split; [discriminate|]. split; [|exact H].
  apply (proj1 (has_true_iff_every_port_holds is_data ["a"; "b"]%string
                  two_ports_node ltac:(discriminate)) H).
Defined.

(** X3: with a stateless predicate [has] is the conjunction of the
    single-port checks: the call on several plain names answers [true]
    exactly when the call on each name alone does. *)
Theorem has_is_conjunction (f : IP -> bool) (names : list string)
    (s : State) :
  names <> [] ->
  fst (has ((Port <$> (PName <$> names)) ++ [Fn (pure_validator f)]) s)
    = Return true
  <-> Forall (fun n =>
        fst (has [Port (PName n); Fn (pure_validator f)] s) = Return true)
      names.
Proof.
  intros Hne. rewrite (has_names_eq names _ s Hne), has_loop_pure_validator.
  apply Forall_iff. intros n.
  pose proof (has_names_eq [n] (pure_validator f) s ltac:(discriminate)) as He.
  cbn [fmap list_fmap app] in He. rewrite He.
  pose proof (has_loop_pure_validator f [n] s) as H1.
  rewrite Forall_singleton in H1. symmetry. exact H1.
Qed.

Lemma has_is_conjunction_witness :
  ["a"; "b"]%string <> []
  /\ fst (has [Port (PName "a"); Port (PName "b");
               Fn (pure_validator is_data)] two_ports_node) = Return true
  /\ Forall (fun n =>
        fst (has [Port (PName n); Fn (pure_validator is_data)] two_ports_node)
        = Return true) ["a"; "b"]%string.
Proof.
  assert (fst (has [Port (PName "a"); Port (PName "b");
                    Fn (pure_validator is_data)] two_ports_node)
          = Return true) as H by (vm_compute; reflexivity).
  split; [discriminate|]. split; [exact H|].
  apply (proj1 (has_is_conjunction is_data ["a"; "b"]%string
                  two_ports_node ltac:(discriminate)) H).
Defined.

(** X4: [has] stops at the first port that fails the check: when the first
    named port is registered and plain and none of its packets satisfies
    the predicate, the answer is [false] and nothing further is looked at,
    so a later argument that names a missing port, or an addressable one by
    its plain name, raises no error. *)
Theorem has_stops_at_first_failing_port (f : IP -> bool) (n : string)
    (more : list (param Validator)) (s : State) (p : InPort) :
  ports s !! n = Some p ->
  addressable p = false ->
  existsb f (buffer p (scope s) None) = false ->
  has (Port (PName n) :: more ++ [Fn (pure_validator f)]) s = (Return false, s).
Proof.
  intros Hp Ha He. unfold has.
  assert (last_function (Port (PName n) :: more ++ [Fn (pure_validator f)])
          = Some (pure_validator f)) as Hl
    by apply (last_function_snoc (Port (PName n) :: more)).
  rewrite Hl. cbn [default].
  change (string_params (Port (PName n) :: more ++ [Fn (pure_validator f)]))
    with (PName n :: string_params (more ++ [Fn (pure_validator f)])).
  change (has_loop (pure_validator f)
            (PName n :: string_params (more ++ [Fn (pure_validator f)])) tt s
          = (Return false, s)).
  by rewrite has_loop_pure_cons, Hp, Ha, He.
Qed.

Lemma has_stops_at_first_failing_port_witness :
  ports two_ports_node !! "a" = Some (port_with false None [OB "x"; D 1])
  /\ existsb (fun _ => false) [OB "x"; D 1] = false
  /\ has [Port (PName "a"); Port (PName "nope");
          Fn (pure_validator (fun _ => false))] two_ports_node
     = (Return false, two_ports_node).
Proof.
  assert (ports two_ports_node !! "a"
          = Some (port_with false None [OB "x"; D 1])) as Hp
    by (vm_compute; reflexivity).
  split; [exact Hp|]. split; [reflexivity|].
  apply (has_stops_at_first_failing_port (fun _ => false) "a"
           [Port (PName "nope")] two_ports_node _ Hp eq_refl).
  vm_compute; reflexivity.
Defined.

(** ** hasData *)

(** X5: [hasData] on plain port names (the port "in" when none is given)
    answers [true] exactly when every such port is registered, is not
    addressable, and has a data packet somewhere in its buffer for the
    current scope, also behind brackets. *)
Theorem hasData_true_iff_data_buffered (names : list string) (s : State) :
  fst (hasData (PName <$> names) s) = Return true
  <-> Forall (plain_port_holds is_data s) (default_in "in"%string names).
Proof.
  unfold hasData.
  replace (default_in (PName "in") (PName <$> names))
    with (PName <$> default_in "in"%string names) by (by destruct names).
  change is_data_validator with (pure_validator is_data).
  apply has_true_iff_every_port_holds_aux.
Qed.

(** ** hasStream and getStream *)

(** The closure of [hasStream] and the loop body of [getStream] keep the
    same bracket stack and the same seen-data flag, and stop at the same
    packet. *)
Lemma stream_validate_scan (buf : list IP) :
  forall (pb : list value) (hd : bool) (v : StreamVars),
    portBrackets v = pb -> hasData_seen v = hd -> (pb = [] -> hd = false) ->
    snd (scan (vstep (stream_validate (fun _ _ => true))) (pb, hd) buf)
    = match stream_vars_after v buf with
      | None => true
      | Some _ => false
      end.
Proof.
  induction buf as [|x rest IH]; intros pb hd v Hpb Hhd Hz; [done|].
  destruct v as [pb0 pp hd0]. cbn in Hpb, Hhd. subst pb0 hd0.
  cbn [scan stream_vars_after vstep stream_validate]. unfold stream_body.
  cbn [portBrackets portPackets hasData_seen].
  destruct (ip_type x).
  - destruct pb as [|b pb']; [done|]. by apply IH.
  - destruct pb as [|b pb'].
    + rewrite (Hz eq_refl). by apply IH.
    + by apply IH.
  - destruct (removelast pb) as [|b pb'] eqn:Hr.
    + destruct hd; [done|]. cbn. by apply IH.
    + rewrite andb_false_r. by apply IH.
Qed.

Lemma hasStream_foretells_getStream_aux (s : State) (port : string)
    (p : InPort) :
  ports s !! port = Some p ->
  addressable p = false ->
  hasStream [Port (PName port)] s
  = (Return (completes (buffer p (scope s) None)), s).
Proof.
  intros Hp Ha. unfold hasStream. cbn. unfold bind, gets. cbn.
  rewrite Hp, Ha. cbn. unfold InPort_has, completes.
  pose proof (stream_validate_scan (buffer p (scope s) None) [] false
                no_stream eq_refl eq_refl (fun _ => eq_refl)) as H.
  destruct (scan _ _ _) as [st b]. cbn in H. subst b.
  by destruct (stream_vars_after _ _).
Qed.

(** X6: on a registered plain port, [hasStream] without a predicate of the
    caller's answers [true] exactly when the loop of [getStream], run over
    the same buffer, would leave by [break] with a complete stream; it
    consumes nothing. *)
Theorem hasStream_foretells_getStream (s : State) (port : string)
    (p : InPort) :
  ports s !! port = Some p ->
  addressable p = false ->
  hasStream [Port (PName port)] s
  = (Return (completes (buffer p (scope s) None)), s).
Proof. apply hasStream_foretells_getStream_aux. Qed.

Lemma hasStream_foretells_getStream_witness :
  ports stream_and_more_node !! "in"
    = Some (port_with false None [CB "z"; OB "b"; D 2; CB "b"; D 3])
  /\ completes [CB "z"; OB "b"; D 2; CB "b"; D 3] = true
  /\ hasStream [Port (PName "in")] stream_and_more_node
     = (Return true, stream_and_more_node).
Proof.
  assert (ports stream_and_more_node !! "in"
          = Some (port_with false None [CB "z"; OB "b"; D 2; CB "b"; D 3]))
    as Hp by (vm_compute; reflexivity).
  split; [exact Hp|]. split; [reflexivity|].
  exact (hasStream_foretells_getStream stream_and_more_node "in" _ Hp eq_refl).
Defined.

Lemma scan_bracketed_datas (f : StreamValidator) (l : value) (d c : IP)
    (ds : list IP) :
  Forall (fun x => ip_type x = data) ds ->
  ip_type d = data -> ip_type c = closeBracket ->
  forall hd : bool,
    snd (scan (vstep (stream_validate f)) ([l], hd) (ds ++ [d; c]))
    = f d [l].
Proof.
  intros Hds Hd Hc. induction Hds as [|x ds Hx _ IH]; intros hd.
  - cbn. rewrite Hd. cbn. rewrite Hc. cbn. by destruct (f d [l]).
  - cbn [app scan vstep stream_validate]. rewrite Hx. apply IH.
Qed.

(** X7: for a buffer that holds exactly one bracketed stream, an opening
    bracket, data packets and the closing bracket, [hasStream] with a
    stream predicate answers what the predicate says of the last data
    packet: the result for each data packet overwrites the one before, so
    the earlier data packets do not count. *)
Theorem hasStream_last_data_decides (s : State) (port : string) (p : InPort)
    (f : StreamValidator) (o d c : IP) (ds : list IP) :
  ports s !! port = Some p ->
  addressable p = false ->
  buffer p (scope s) None = o :: ds ++ [d; c] ->
  ip_type o = openBracket ->
  Forall (fun x => ip_type x = data) ds ->
  ip_type d = data ->
  ip_type c = closeBracket ->
  hasStream [Port (PName port); Fn f] s = (Return (f d [ip_data o]), s).
Proof.
  intros Hp Ha Hb Ho Hds Hd Hc. unfold hasStream. cbn. unfold bind, gets. cbn.
  rewrite Hp, Ha. cbn. unfold InPort_has. rewrite Hb.
  cbn [scan vstep stream_validate]. rewrite Ho. cbn [app].
  pose proof (scan_bracketed_datas f (ip_data o) d c ds Hds Hd Hc false) as H.
  destruct (scan _ _ _) as [st b]. cbn in H. subst b.
  by destruct (f d [ip_data o]).
Qed.

(** The first data packet passes the predicate, the last does not. *)
Lemma hasStream_last_data_decides_witness :
  ports two_data_node !! "in"
    = Some (port_with false None [OB "b"; D 1; D 2; CB "b"])
  /\ accepts_one (D 1) [VStr "b"] = true
  /\ hasStream [Port (PName "in"); Fn accepts_one] two_data_node
     = (Return false, two_data_node).
Proof.
  assert (ports two_data_node !! "in"
          = Some (port_with false None [OB "b"; D 1; D 2; CB "b"])) as Hp
    by (vm_compute; reflexivity).
  split; [exact Hp|]. split; [reflexivity|].
  apply (hasStream_last_data_decides two_data_node "in" _ accepts_one
           (OB "b") (D 2) (CB "b") [D 1] Hp eq_refl).
  - vm_compute; reflexivity.
  - reflexivity.
  - repeat constructor.
  - reflexivity.
  - reflexivity.
Defined.

(** ** What getStream takes from the buffer *)

(** The buffer of [port] in [s'] for the scope of [s]. *)
Lemma getStream_while_plain_rest (port : string) (fuel : nat) :
  forall (s : State) (p : InPort) (v : StreamVars) (x : IP),
    ports s !! port = Some p -> addressable p = false ->
    port ∉ forwardBrackets s ->
    length (buffer p (scope s) None) < fuel ->
    exists p',
      ports (snd (getStream_while fuel (PName port) (Pkt x) v s)) !! port
        = Some p'
      /\ buffer p' (scope s) None
         = stream_rest v (x :: buffer p (scope s) None).
Proof.
  induction fuel as [|fuel IH]; intros s p v x Hp Ha Hf Hlen; [lia|].
  cbn [getStream_while stream_rest].
  destruct (stream_body v x) as [v' []]; [by exists p|].
  unfold bind at 1. rewrite get1_eq.
  destruct (activation_only_fields _ _ (activate_activation_only s))
    as (Hps & Hsc & Hfw & _).
  set (s1 := snd (activate s)) in *.
  rewrite <- Hps in Hp. rewrite <- Hsc in Hlen |- *. rewrite <- Hfw in Hf.
  rewrite (get_port_plain s1 port p Hp Ha Hf).
  destruct (buffer p (scope s1) None) as [|y rest] eqn:Hb.
  - rewrite (port_get_nil s1 port p _ None Hp Hb). cbn.
    exists p. split; [by destruct fuel|done].
  - rewrite (port_get_cons s1 port p _ None y rest Hp Hb). cbn [fst snd].
    destruct (IH (set_ports (insert port (with_buffer p (scope s1) None rest)) s1)
                (with_buffer p (scope s1) None rest) v' y)
      as (p' & Hp' & Hb').
    + apply set_buffer_lookup.
    + done.
    + done.
    + cbn. rewrite buffer_with_buffer. cbn in Hlen. lia.
    + exists p'. split; [exact Hp'|].
      cbn in Hb'. by rewrite buffer_with_buffer in Hb'.
Qed.

Lemma stream_body_keeps_segment (v : StreamVars) (x : IP)
    (consumed : list IP) :
  (exists pre, consumed = pre ++ portPackets v) ->
  exists pre, consumed ++ [x] = pre ++ portPackets (fst (stream_body v x)).
Proof.
  intros [pre ->]. unfold stream_body.
  destruct (ip_type x); cbn; try (exists pre; by rewrite app_assoc).
  destruct (portBrackets v); cbn.
  - by exists (pre ++ portPackets v).
  - exists pre. by rewrite app_assoc.
Qed.

Lemma assemble_segment (buf : list IP) :
  forall (v : StreamVars) (consumed : list IP),
    (exists pre, consumed = pre ++ portPackets v) ->
    exists pre, consumed ++ buf = pre ++ assemble v buf ++ stream_rest v buf.
Proof.
  induction buf as [|x rest IH]; intros v consumed Hc.
  - destruct Hc as [pre ->]. exists pre. cbn. by rewrite !app_nil_r.
  - pose proof (stream_body_keeps_segment v x consumed Hc) as Hx.
    cbn [assemble stream_rest].
    destruct (stream_body v x) as [v' stop]. cbn [fst] in Hx.
    destruct stop.
    + destruct Hx as [pre Hx]. exists pre.
      rewrite (app_assoc pre), <- Hx, <- app_assoc. done.
    + destruct (IH v' (consumed ++ [x]) Hx) as [pre Hpre].
      exists pre. rewrite <- Hpre, <- app_assoc. done.
Qed.

Lemma stream_rest_incomplete (buf : list IP) :
  forall v : StreamVars,
    is_Some (stream_vars_after v buf) -> stream_rest v buf = [].
Proof.
  induction buf as [|x rest IH]; intros v H; [done|].
  cbn in *. destruct (stream_body v x) as [v' []]; [by destruct H|].
  by apply IH.
Qed.

Lemma getStream_port_plain (s : State) (port : string) (p : InPort) :
  ports s !! port = Some p -> addressable p = false ->
  port ∉ forwardBrackets s ->
  exists s' p',
    getStream_port (PName port) s
    = (Return ((match buffer p (scope s) None with
                | [] => [SUndefined]
                | _ => []
                end)
               ++ [SPackets (assemble no_stream (buffer p (scope s) None))]),
       s')
    /\ ports s' !! port = Some p'
    /\ buffer p' (scope s) None = stream_rest no_stream (buffer p (scope s) None).
Proof.
  intros Hp Ha Hf. unfold getStream_port. unfold bind at 1. rewrite get1_eq.
  destruct (activation_only_fields _ _ (activate_activation_only s))
    as (Hps & Hsc & Hfw & _).
  set (s1 := snd (activate s)) in *.
  rewrite <- Hps in Hp. rewrite <- Hsc. rewrite <- Hfw in Hf.
  rewrite (get_port_plain s1 port p Hp Ha Hf).
  destruct (buffer p (scope s1) None) as [|y more] eqn:Hb.
  - rewrite (port_get_nil s1 port p _ None Hp Hb). cbn.
    exists s1, p. by rewrite Hb.
  - rewrite (port_get_cons s1 port p _ None y more Hp Hb).
    unfold bind at 1. cbn [gets]. unfold bind at 1.
    set (s2 := set_ports _ s1). fold no_stream.
    assert (length (buffer (with_buffer p (scope s1) None more) (scope s2) None)
            < S (pending_ref s2 (PName port))) as Hlen.
    { unfold pending_ref, pending, s2. cbn. rewrite lookup_insert_eq. lia. }
    pose proof (getStream_while_plain port _ s2 _ no_stream y
                  (set_buffer_lookup _ _ _) Ha Hf Hlen) as Hfst.
    destruct (getStream_while_plain_rest port _ s2 _ no_stream y
                (set_buffer_lookup _ _ _) Ha Hf Hlen) as (p' & Hp' & Hb').
    cbn [scope s2 set_ports] in Hfst, Hb'.
    rewrite buffer_with_buffer in Hfst, Hb'.
    destruct (getStream_while _ _ _ no_stream s2) as [o s3].
    cbn [fst snd] in Hfst, Hp'. subst o. cbn.
    exists s3, p'. done.
Qed.

(** X8: on a registered plain, non-forwarding port, one [getStream] call
    splits the buffer in three: packets it drops, the packets it returns,
    which stood next to each other in the buffer in that order, and the
    packets it leaves in the buffer for the next read.  When the buffer
    holds no complete stream ([hasStream] answers [false]) nothing is left:
    the whole buffer is consumed and the partial stream is returned. *)
Theorem getStream_splits_the_buffer (s : State) (port : string) (p : InPort) :
  ports s !! port = Some p ->
  addressable p = false ->
  port ∉ forwardBrackets s ->
  exists (dropped packets rest : list IP) (p' : InPort),
    buffer p (scope s) None = dropped ++ packets ++ rest
    /\ fst (getStream [PName port] s) = Return (One (SPackets packets))
    /\ ports (snd (getStream [PName port] s)) !! port = Some p'
    /\ buffer p' (scope s) None = rest
    /\ (fst (hasStream [Port (PName port)] s) = Return false -> rest = []).
Proof.
  intros Hp Ha Hf.
  destruct (assemble_segment (buffer p (scope s) None) no_stream [])
    as [dropped Hseg]; [by exists []|]. cbn [app] in Hseg.
  destruct (getStream_port_plain s port p Hp Ha Hf) as (s' & p' & Hrun & Hp' & Hb').
  exists dropped, (assemble no_stream (buffer p (scope s) None)),
    (stream_rest no_stream (buffer p (scope s) None)), p'.
  assert (getStream [PName port] s
          = (Return (One (SPackets (assemble no_stream (buffer p (scope s) None)))),
             s')) as Hget.
  { unfold getStream. cbn [default_in getStream_loop].
    rewrite (bind_returns _ _ _ _ _ (bind_returns _ _ _ _ _ Hrun)).
    cbn. by destruct (buffer p (scope s) None). }
  rewrite Hget. cbn [fst snd]. repeat split; try done.
  rewrite (hasStream_foretells_getStream_aux s port p Hp Ha). cbn.
  unfold completes. intros H. apply stream_rest_incomplete.
  destruct (stream_vars_after _ _); [done|discriminate].
Qed.

Lemma getStream_splits_the_buffer_witness :
  ports stream_and_more_node !! "in"
    = Some (port_with false None [CB "z"; OB "b"; D 2; CB "b"; D 3])
  /\ ("in" ∉ forwardBrackets stream_and_more_node)
  /\ exists (dropped packets rest : list IP) (p' : InPort),
       buffer (port_with false None [CB "z"; OB "b"; D 2; CB "b"; D 3])
         (scope stream_and_more_node) None = dropped ++ packets ++ rest
       /\ fst (getStream [PName "in"] stream_and_more_node)
          = Return (One (SPackets packets))
       /\ ports (snd (getStream [PName "in"] stream_and_more_node)) !! "in"
          = Some p'
       /\ buffer p' (scope stream_and_more_node) None = rest
       /\ (fst (hasStream [Port (PName "in")] stream_and_more_node)
           = Return false -> rest = []).
Proof.
  assert (ports stream_and_more_node !! "in"
          = Some (port_with false None [CB "z"; OB "b"; D 2; CB "b"; D 3]))
    as Hp by (vm_compute; reflexivity).
  assert ("in" ∉ forwardBrackets stream_and_more_node) as Hf
    by (vm_compute; intros H; inversion H).
  split; [exact Hp|]. split; [exact Hf|].
  exact (getStream_splits_the_buffer stream_and_more_node "in" _ Hp eq_refl Hf).
Defined.

(** ** Reading a plain port packet by packet *)

Lemma get_plain_cons (s : State) port p x rest :
  ports s !! port = Some p -> addressable p = false ->
  port ∉ forwardBrackets s ->
  buffer p (scope s) None = x :: rest ->
  exists s',
    get [PName port] s = (Return (One (Pkt x)), s')
    /\ ports s' !! port = Some (with_buffer p (scope s) None rest)
    /\ scope s' = scope s /\ forwardBrackets s' = forwardBrackets s.
Proof.
  intros Hp Ha Hf Hb. rewrite get_single.
  destruct (activation_only_fields _ _ (activate_activation_only s))
    as (Hps & Hsc & Hfw & _).
  set (s1 := snd (activate s)) in *.
  rewrite <- Hps in Hp. rewrite <- Hsc in Hb |- *. rewrite <- Hfw in Hf |- *.
  rewrite (get_port_plain s1 port p Hp Ha Hf).
  rewrite (port_get_cons s1 port p _ None x rest Hp Hb).
  eexists. split; [reflexivity|]. split; [apply set_buffer_lookup|done].
Qed.

Lemma get_plain_nil (s : State) port p :
  ports s !! port = Some p -> addressable p = false ->
  port ∉ forwardBrackets s ->
  buffer p (scope s) None = [] ->
  exists s',
    get [PName port] s = (Return (One Undefined), s')
    /\ ports s' = ports s
    /\ scope s' = scope s /\ forwardBrackets s' = forwardBrackets s.
Proof.
  intros Hp Ha Hf Hb. rewrite get_single.
  destruct (activation_only_fields _ _ (activate_activation_only s))
    as (Hps & Hsc & Hfw & _).
  set (s1 := snd (activate s)) in *.
  rewrite <- Hps in Hp. rewrite <- Hsc in Hb. rewrite <- Hfw in Hf.
  rewrite (get_port_plain s1 port p Hp Ha Hf).
  rewrite (port_get_nil s1 port p _ None Hp Hb).
  by exists s1.
Qed.

Lemma reads_empty (k : nat) :
  forall (s : State) port p,
    ports s !! port = Some p -> addressable p = false ->
    port ∉ forwardBrackets s ->
    buffer p (scope s) None = [] ->
    reads k (PName port) s = replicate k (Return (One Undefined)).
Proof.
  induction k as [|k IH]; intros s port p Hp Ha Hf Hb; [done|].
  cbn [reads replicate].
  destruct (get_plain_nil s port p Hp Ha Hf Hb) as (s' & Hg & Hps & Hsc & Hfw).
  rewrite Hg. f_equal. apply (IH s' port p).
  - by rewrite Hps.
  - done.
  - by rewrite Hfw.
  - by rewrite Hsc.
Qed.

(** X9: a registered plain, non-forwarding port is read first in, first
    out and each packet once: successive single-port [get] calls return
    the packets of the buffer in their order, one per call, and every call
    after the last packet returns [undefined]. *)
Theorem get_reads_each_packet_once_in_order (buf : list IP) :
  forall (s : State) (port : string) (p : InPort) (k : nat),
    ports s !! port = Some p ->
    addressable p = false ->
    port ∉ forwardBrackets s ->
    buffer p (scope s) None = buf ->
    reads (length buf + k) (PName port) s
    = ((fun x => Return (One (Pkt x))) <$> buf)
      ++ replicate k (Return (One Undefined)).
Proof.
  induction buf as [|x rest IH]; intros s port p k Hp Ha Hf Hb.
  - by apply (reads_empty k s port p).
  - cbn [length Nat.add reads fmap list_fmap app].
    destruct (get_plain_cons s port p x rest Hp Ha Hf Hb)
      as (s' & Hg & Hps & Hsc & Hfw).
    rewrite Hg. f_equal.
    apply (IH s' port (with_buffer p (scope s) None rest) k Hps Ha).
    + by rewrite Hfw.
    + rewrite Hsc. apply buffer_with_buffer.
Qed.

Lemma get_reads_each_packet_once_in_order_witness :
  ports two_data_node !! "in"
    = Some (port_with false None [OB "b"; D 1; D 2; CB "b"])
  /\ ("in" ∉ forwardBrackets two_data_node)
  /\ reads 6 (PName "in") two_data_node
     = [Return (One (Pkt (OB "b"))); Return (One (Pkt (D 1)));
        Return (One (Pkt (D 2))); Return (One (Pkt (CB "b")));
        Return (One Undefined); Return (One Undefined)].
Proof.
  assert (ports two_data_node !! "in"
          = Some (port_with false None [OB "b"; D 1; D 2; CB "b"])) as Hp
    by (vm_compute; reflexivity).
  assert ("in" ∉ forwardBrackets two_data_node) as Hf
    by (vm_compute; intros H; inversion H).
  split; [exact Hp|]. split; [exact Hf|].
  apply (get_reads_each_packet_once_in_order [OB "b"; D 1; D 2; CB "b"]
           two_data_node "in" _ 2 Hp eq_refl Hf).
  vm_compute; reflexivity.
Defined.

(** ** Forwarding reads *)

Lemma first_data_is_data (buf : list IP) :
  first_data buf = Null
  \/ exists d, first_data buf = Pkt d /\ ip_type d = data.
Proof.
  induction buf as [|x rest IH]; [by left|]. cbn.
  destruct (ip_type x) eqn:Hx; [right; by exists x|exact IH..].
Qed.

Lemma read_until_data_rest (port : string) (idx : Index) (fuel : nat) :
  forall (s : State) (p : InPort) (pre : list IP),
    ports s !! port = Some p ->
    length (buffer p (scope s) idx) < fuel ->
    exists p',
      ports (snd (read_until_data fuel port idx pre s)) !! port = Some p'
      /\ addressable p' = addressable p
      /\ buffer p' (scope s) idx = after_data (buffer p (scope s) idx).
Proof.
  induction fuel as [|fuel IH]; intros s p pre Hp Hlen; [lia|].
  rewrite (read_until_data_S port idx fuel s p pre Hp).
  destruct (buffer p (scope s) idx) as [|x rest] eqn:Hb.
  - exists p. by rewrite Hb.
  - cbn [after_data].
    assert (exists p',
              ports (snd (read_until_data fuel port idx (pre ++ [x])
                   (set_ports (insert port (with_buffer p (scope s) idx rest)) s)))
                !! port = Some p'
              /\ addressable p' = addressable p
              /\ buffer p' (scope s) idx = after_data rest) as Hrec.
    { destruct (IH (set_ports (insert port (with_buffer p (scope s) idx rest)) s)
                  (with_buffer p (scope s) idx rest) (pre ++ [x]))
        as (p' & Hp' & Ha' & Hb').
      - apply set_buffer_lookup.
      - cbn. rewrite buffer_with_buffer. cbn in Hlen. lia.
      - exists p'. cbn in Hb'. rewrite buffer_with_buffer in Hb'. done. }
    destruct (ip_type x); [|exact Hrec..].
    exists (with_buffer p (scope s) idx rest). cbn.
    rewrite lookup_insert_eq, buffer_with_buffer. done.
Qed.

(** The parts of a forwarding read: the read loop, then the bracket
    bookkeeping, which keeps the ports. *)
Lemma forwarding_read_parts (s : State) port idx p :
  ports s !! port = Some p ->
  exists s2 p',
    read_until_data (S (pending s port idx)) port idx [] s
    = (Return (bracket_prefix (buffer p (scope s) idx),
               first_data (buffer p (scope s) idx)), s2)
    /\ ports_only s s2
    /\ ports s2 !! port = Some p'
    /\ addressable p' = addressable p
    /\ buffer p' (scope s) idx = after_data (buffer p (scope s) idx)
    /\ __getForForwarding port idx s
       = (forward_prefix port idx (bracket_prefix (buffer p (scope s) idx)) ;;;
          snapshot_context port idx ;;;
          ret (first_data (buffer p (scope s) idx))) s2.
Proof.
  intros Hp.
  assert (length (buffer p (scope s) idx) < S (pending s port idx)) as Hlen.
  { unfold pending. rewrite Hp. lia. }
  destruct (read_until_data_spec port idx _ s p [] Hp Hlen) as (s2 & Hr & Ho).
  destruct (read_until_data_rest port idx _ s p [] Hp Hlen)
    as (p' & Hp' & Ha' & Hb').
  rewrite Hr in Hp'. cbn [snd] in Hp'.
  exists s2, p'. cbn [app] in Hr. repeat split; try done.
  unfold __getForForwarding. unfold bind at 1. cbn [gets].
  by rewrite (bind_returns _ _ _ _ _ Hr).
Qed.

Lemma bookkeeping_keeps_buffers (port : string) (idx : Index)
    (prefix : list IP) (r : maybeIP) :
  preserves same_buffers
    (forward_prefix port idx prefix ;;; snapshot_context port idx ;;; ret r).
Proof.
  apply (preserves_bind same_buffers); [apply forward_prefix_buffers|].
  intros _. apply (preserves_bind same_buffers);
    [apply snapshot_context_buffers|].
  intros _. apply (preserves_ret same_buffers).
Qed.

Lemma bookkeeping_returns (port : string) (idx : Index) (prefix : list IP)
    (r r' : maybeIP) (s : State) :
  fst ((forward_prefix port idx prefix ;;; snapshot_context port idx ;;; ret r) s)
    = Return r' -> r' = r.
Proof.
  unfold bind.
  destruct (forward_prefix port idx prefix s) as [[[]|e|] s1]; try done.
  destruct (snapshot_context port idx s1) as [[[]|e|] s2]; try done.
  cbn. congruence.
Qed.

(** X10: on a registered forwarding port, read in the form that fits it,
    [get] hands the component a data packet or [null], never a bracket:
    the brackets in front of the data packet are taken by the bracket
    bookkeeping. *)
Theorem forwarding_get_returns_data_or_null (s : State) (port : portref)
    (p : InPort) (r : maybeIP) :
  ports s !! ref_name port = Some p ->
  well_addressed port p ->
  ref_name port ∈ forwardBrackets s ->
  fst (get [port] s) = Return (One r) ->
  r = Null \/ exists d, r = Pkt d /\ ip_type d = data.
Proof.
  intros Hp Ha Hf. rewrite get_single.
  destruct (activation_only_fields _ _ (activate_activation_only s))
    as (Hps & Hsc & Hfw & _).
  set (s1 := snd (activate s)) in *.
  rewrite <- Hps in Hp. rewrite <- Hfw in Hf.
  rewrite (get_port_forwarding_ref s1 port p Hp Ha Hf).
  destruct (forwarding_read_parts s1 _ (ref_index port) p Hp)
    as (s2 & p' & _ & _ & _ & _ & _ & Hrun).
  rewrite Hrun.
  pose proof (bookkeeping_returns (ref_name port) (ref_index port)
                (bracket_prefix (buffer p (scope s1) (ref_index port)))
                (first_data (buffer p (scope s1) (ref_index port)))) as Hret.
  destruct ((forward_prefix _ _ _ ;;; _) s2) as [[r0|e|] s3] eqn:E;
    cbn; try discriminate.
  intros [= ->]. rewrite (Hret r s2) by (by rewrite E).
  apply first_data_is_data.
Qed.

Lemma forwarding_get_returns_data_or_null_witness :
  ports nested_node !! "in"
    = Some (port_with false None [OB "a"; OB "b"; CB "b"; D 5; CB "a"])
  /\ ("in" ∈ forwardBrackets nested_node)
  /\ fst (get [PName "in"] nested_node) = Return (One (Pkt (D 5)))
  /\ (Pkt (D 5) = Null \/ exists d, Pkt (D 5) = Pkt d /\ ip_type d = data).
Proof.
  assert (ports nested_node !! "in"
          = Some (port_with false None [OB "a"; OB "b"; CB "b"; D 5; CB "a"]))
    as Hp by (vm_compute; reflexivity).
  assert ("in" ∈ forwardBrackets nested_node) as Hf
    by (refine (bool_decide_unpack _ _); vm_compute; exact I).
  assert (fst (get [PName "in"] nested_node) = Return (One (Pkt (D 5))))
    as Hg by (vm_compute; reflexivity).
  split; [exact Hp|]. split; [exact Hf|]. split; [exact Hg|].
  exact (forwarding_get_returns_data_or_null nested_node (PName "in") _ _
           Hp eq_refl Hf Hg).
Defined.

(** X11: a forwarding read takes from the buffer the brackets in front of
    the first data packet and that data packet, and nothing else: after
    [get], whether it returned or failed on an unbalanced closing bracket,
    the port holds exactly the packets that stood behind the first data
    packet, and none when the buffer had no data packet. *)
Theorem forwarding_get_consumes_up_to_data (s : State) (port : portref)
    (p : InPort) :
  ports s !! ref_name port = Some p ->
  well_addressed port p ->
  ref_name port ∈ forwardBrackets s ->
  exists p',
    ports (snd (get [port] s)) !! ref_name port = Some p'
    /\ buffer p' (scope s) (ref_index port)
       = after_data (buffer p (scope s) (ref_index port)).
Proof.
  intros Hp Ha Hf. rewrite get_single.
  destruct (activation_only_fields _ _ (activate_activation_only s))
    as (Hps & Hsc & Hfw & _).
  set (s1 := snd (activate s)) in *.
  rewrite <- Hps in Hp. rewrite <- Hfw in Hf. rewrite <- Hsc.
  rewrite (get_port_forwarding_ref s1 port p Hp Ha Hf).
  destruct (forwarding_read_parts s1 _ (ref_index port) p Hp)
    as (s2 & p' & _ & _ & Hp' & _ & Hb' & Hrun).
  rewrite Hrun.
  pose proof (bookkeeping_keeps_buffers (ref_name port) (ref_index port)
                (bracket_prefix (buffer p (scope s1) (ref_index port)))
                (first_data (buffer p (scope s1) (ref_index port))) s2)
    as [Hsame _].
  exists p'. split; [|exact Hb'].
  destruct ((forward_prefix _ _ _ ;;; _) s2) as [[r0|e|] s3];
    cbn in Hsame |- *; by rewrite Hsame.
Qed.

Lemma forwarding_get_consumes_up_to_data_witness :
  ports nested_node !! "in"
    = Some (port_with false None [OB "a"; OB "b"; CB "b"; D 5; CB "a"])
  /\ ("in" ∈ forwardBrackets nested_node)
  /\ after_data [OB "a"; OB "b"; CB "b"; D 5; CB "a"] = [CB "a"]
  /\ exists p',
       ports (snd (get [PName "in"] nested_node)) !! "in" = Some p'
       /\ buffer p' (scope nested_node) None
          = after_data
              (buffer
                 (port_with false None [OB "a"; OB "b"; CB "b"; D 5; CB "a"])
                 (scope nested_node) None).
Proof.
  assert (ports nested_node !! "in"
          = Some (port_with false None [OB "a"; OB "b"; CB "b"; D 5; CB "a"]))
    as Hp by (vm_compute; reflexivity).
  assert ("in" ∈ forwardBrackets nested_node) as Hf
    by (refine (bool_decide_unpack _ _); vm_compute; exact I).
  split; [exact Hp|]. split; [exact Hf|]. split; [reflexivity|].
  exact (forwarding_get_consumes_up_to_data nested_node (PName "in") _
           Hp eq_refl Hf).
Defined.

(** When no closing bracket of the prefix meets an empty stack, the
    bookkeeping goes through and the stack ends at the balance of the
    prefix. *)
Lemma forward_prefix_balanced (port : string) (idx : Index)
    (prefix : list IP) :
  forall s : State,
    live_ok s port idx ->
    underflows (length (stack_of s port idx)) prefix = false ->
    exists s',
      forward_prefix port idx prefix s = (Return tt, s')
      /\ live_ok s' port idx
      /\ length (stack_of s' port idx)
         = depth_after (length (stack_of s port idx)) prefix
      /\ scope s' = scope s.
Proof.
  induction prefix as [|x rest IH]; intros s Hok Hu; [by exists s|].
  cbn [forward_prefix underflows depth_after] in *.
  destruct (ip_type x) eqn:Hx.
  - rewrite (bind_returns _ _ _ _ _ (forward_step_data s port idx x Hx)).
    by apply IH.
  - destruct (forward_step_open s port idx x Hx Hok)
      as (r & s1 & Hstep & Hst & Hsc & _).
    rewrite (bind_returns _ _ _ _ _ Hstep).
    destruct (stack_is_of _ _ _ _ _ Hst) as (Hof & Hok1).
    assert (length (stack_of s1 port idx) = S (length (stack_of s port idx)))
      as Hlen by (rewrite Hof, length_app; cbn; lia).
    destruct (IH s1 Hok1) as (s' & Hrun & Hok' & Hd & Hsc').
    { by rewrite Hlen. }
    exists s'. rewrite Hlen in Hd. repeat split; try done. congruence.
  - destruct (stack_of s port idx) as [|c0 l0] eqn:Hl using rev_ind;
      [done|]. clear IHl0.
    destruct (forward_step_close s port idx x l0 c0 Hx Hok Hl)
      as (r & s1 & Hstep & Hst & Hsc).
    rewrite (bind_returns _ _ _ _ _ Hstep).
    destruct (stack_is_of _ _ _ _ _ Hst) as (Hof & Hok1).
    rewrite length_app in Hu |- *. cbn [length] in Hu |- *.
    rewrite Nat.add_1_r in Hu |- *. cbn [pred].
    destruct (IH s1 Hok1) as (s' & Hrun & Hok' & Hd & Hsc').
    { by rewrite Hof. }
    exists s'. rewrite Hof in Hd. repeat split; try done. congruence.
Qed.

Lemma snapshot_context_live (s : State) port idx :
  live_ok s port idx ->
  exists s' live snap,
    snapshot_context port idx s = (Return tt, s')
    /\ stack_is s' port idx live (stack_of s port idx)
    /\ snapshot_ref s' port = Some snap
    /\ snap <> live
    /\ arrays s' !! snap = Some (stack_of s port idx)
    /\ scope s' = scope s.
Proof.
  intros Hok. unfold snapshot_context. unfold bind at 1.
  set (s0 := snd ((let* bc := gets __bracketContext in
                   match bc with
                   | None => modify (set___bracketContext (Some ∅))
                   | Some _ => ret tt
                   end) s)).
  assert ((let* bc := gets __bracketContext in
           match bc with
           | None => modify (set___bracketContext (Some ∅))
           | Some _ => ret tt
           end) s = (Return tt, s0)) as Hinit.
  { unfold s0, bind, gets. cbn. by destruct (__bracketContext s). }
  rewrite Hinit.
  assert (live_ok s0 port idx /\ stack_of s0 port idx = stack_of s port idx
          /\ scope s0 = scope s) as (Hok0 & Hof0 & Hsc0).
  { unfold s0, bind, gets. cbn. by destruct (__bracketContext s). }
  destruct (getBracketContext_stack s0 port idx Hok0)
    as (live & s1 & Hg & Hst & Hsc1 & _ & Hbc1 & _).
  unfold bind at 1. cbn [gets]. rewrite (bind_returns _ _ _ _ _ Hg).
  rewrite Hof0 in Hst. destruct Hst as [Hr Hl].
  unfold bind, array_slice, modify, array_read. rewrite Hl. cbn.
  exists (set___bracketContext
            (Some (<[port := length (arrays s1)]> (default ∅ (__bracketContext s1))))
            (set_arrays (fun a => a ++ [stack_of s port idx]) s1)),
    live, (length (arrays s1)).
  pose proof (lookup_lt_Some _ _ _ Hl) as Hlt.
  split; [reflexivity|]. unfold stack_is, stack_ref, snapshot_ref in *. cbn.
  rewrite lookup_insert_eq. repeat split.
  - exact Hr.
  - by rewrite lookup_app_l.
  - lia.
  - by rewrite lookup_app_r, Nat.sub_diag.
  - congruence.
Qed.

(** A forwarding read whose prefix is balanced against the stack. *)
Lemma forwarding_read_balanced (s : State) port idx p :
  ports s !! port = Some p ->
  live_ok s port idx ->
  underflows (length (stack_of s port idx))
    (bracket_prefix (buffer p (scope s) idx)) = false ->
  exists s' live snap l,
    __getForForwarding port idx s
    = (Return (first_data (buffer p (scope s) idx)), s')
    /\ stack_is s' port idx live l
    /\ length l = depth_after (length (stack_of s port idx))
                    (bracket_prefix (buffer p (scope s) idx))
    /\ snapshot_ref s' port = Some snap
    /\ snap <> live
    /\ arrays s' !! snap = Some l.
Proof.
  intros Hp Hok Hu.
  destruct (forwarding_read_parts s port idx p Hp)
    as (s2 & p' & _ & Hpo & _ & _ & _ & Hrun).
  destruct (ports_only_stack s s2 port idx Hpo) as (Hof & Hok2).
  destruct (forward_prefix_balanced port idx
              (bracket_prefix (buffer p (scope s) idx)) s2 (Hok2 Hok))
    as (s3 & Hfp & Hok3 & Hd & _).
  { by rewrite Hof. }
  destruct (snapshot_context_live s3 port idx Hok3)
    as (s4 & live & snap & Hsn & Hst & Hsr & Hne & Harr & _).
  exists s4, live, snap, (stack_of s3 port idx).
  rewrite Hrun, (bind_returns _ _ _ _ _ Hfp), (bind_returns _ _ _ _ _ Hsn).
  rewrite Hof in Hd. done.
Qed.

(** X12: on a registered forwarding port whose bracket stack is allocated,
    [get] fails, with the TypeError of the assignment to [closeIp], exactly
    when a closing bracket in front of the first data packet meets an empty
    stack; otherwise it returns the first data packet of the buffer, or
    [null] when the buffer holds none. *)
Theorem forwarding_get_outcome (s : State) (port : portref) (p : InPort) :
  ports s !! ref_name port = Some p ->
  well_addressed port p ->
  ref_name port ∈ forwardBrackets s ->
  live_ok s (ref_name port) (ref_index port) ->
  fst (get [port] s)
  = if underflows (length (stack_of s (ref_name port) (ref_index port)))
         (bracket_prefix (buffer p (scope s) (ref_index port)))
    then Throw (TypeError "closeIp")
    else Return (One (first_data (buffer p (scope s) (ref_index port)))).
Proof.
  intros Hp Ha Hf Hok. rewrite get_single.
  destruct (activation_only_fields _ _ (activate_activation_only s))
    as (Hps & Hsc & Hfw & Hbc & Harr & _).
  set (s1 := snd (activate s)) in *.
  assert (live_ok s1 (ref_name port) (ref_index port)) as Hok1.
  { unfold live_ok, stack_ref in *. by rewrite Hbc, Hsc, Harr. }
  assert (stack_of s1 (ref_name port) (ref_index port)
          = stack_of s (ref_name port) (ref_index port)) as Hof.
  { unfold stack_of, stack_ref, array_read in *. by rewrite Hbc, Hsc, Harr. }
  rewrite <- Hps in Hp. rewrite <- Hfw in Hf. rewrite <- Hsc, <- Hof.
  rewrite (get_port_forwarding_ref s1 port p Hp Ha Hf).
  destruct (underflows _ _) eqn:Hu.
  - pose proof (forwarding_underflow s1 _ _ p Hp Hok1 Hu) as Ht.
    destruct (__getForForwarding _ _ s1) as [o s']. cbn in Ht. by subst o.
  - destruct (forwarding_read_balanced s1 _ _ p Hp Hok1 Hu)
      as (s' & live & snap & l & Hrun & _).
    by rewrite Hrun.
Qed.

Lemma forwarding_get_outcome_witness :
  ports nested_node !! "in"
    = Some (port_with false None [OB "a"; OB "b"; CB "b"; D 5; CB "a"])
  /\ ("in" ∈ forwardBrackets nested_node)
  /\ live_ok nested_node "in" None
  /\ fst (get [PName "in"] nested_node) = Return (One (Pkt (D 5))).
Proof.
  assert (ports nested_node !! "in"
          = Some (port_with false None [OB "a"; OB "b"; CB "b"; D 5; CB "a"]))
    as Hp by (vm_compute; reflexivity).
  assert ("in" ∈ forwardBrackets nested_node) as Hf
    by (refine (bool_decide_unpack _ _); vm_compute; exact I).
  assert (live_ok nested_node "in" None) as Hok by (vm_compute; exact I).
  split; [exact Hp|]. split; [exact Hf|]. split; [exact Hok|].
  exact (forwarding_get_outcome nested_node (PName "in") _ Hp eq_refl Hf Hok).
Defined.

Lemma activated_stack (s : State) port idx :
  (live_ok s port idx -> live_ok (snd (activate s)) port idx)
  /\ stack_of (snd (activate s)) port idx = stack_of s port idx
  /\ ports (snd (activate s)) = ports s
  /\ scope (snd (activate s)) = scope s
  /\ forwardBrackets (snd (activate s)) = forwardBrackets s.
Proof.
  destruct (activation_only_fields _ _ (activate_activation_only s))
    as (Hps & Hsc & Hfw & Hbc & Harr & _).
  unfold live_ok, stack_of, stack_ref, array_read.
  by rewrite Hbc, Hsc, Harr.
Qed.

(** X13: on a registered forwarding port whose bracket stack is allocated,
    [getData] returns the payload of the first data packet of the buffer,
    and [null] when the buffer holds no data packet, also when it holds
    brackets only; it fails only on a closing bracket that meets an empty
    stack. *)
Theorem getData_forwarding_outcome (s : State) (port : portref) (p : InPort) :
  ports s !! ref_name port = Some p ->
  well_addressed port p ->
  ref_name port ∈ forwardBrackets s ->
  live_ok s (ref_name port) (ref_index port) ->
  fst (getData [port] s)
  = if underflows (length (stack_of s (ref_name port) (ref_index port)))
         (bracket_prefix (buffer p (scope s) (ref_index port)))
    then Throw (TypeError "closeIp")
    else Return (One (match first_data (buffer p (scope s) (ref_index port)) with
                      | Pkt d => ip_data d
                      | _ => VNull
                      end)).
Proof.
  intros Hp Ha Hf Hok.
  destruct (activated_stack s (ref_name port) (ref_index port))
    as (Hok1 & Hof & Hps & Hsc & Hfw).
  unfold getData. cbn [default_in getData_forEach].
  unfold bind at 1. unfold bind at 1. unfold getData_port. unfold bind at 1.
  rewrite get1_eq. set (s1 := snd (activate s)) in *.
  rewrite <- Hps in Hp. rewrite <- Hfw in Hf. rewrite <- Hsc, <- Hof.
  rewrite (get_port_forwarding_ref s1 port p Hp Ha Hf).
  destruct (underflows _ _) eqn:Hu.
  - pose proof (forwarding_underflow s1 _ _ p Hp (Hok1 Hok) Hu) as Ht.
    destruct (__getForForwarding _ _ s1) as [o s']. cbn in Ht. by subst o.
  - destruct (forwarding_read_balanced s1 _ _ p Hp (Hok1 Hok) Hu)
      as (s' & live & snap & l & Hrun & _).
    rewrite Hrun.
    destruct (first_data_is_data (buffer p (scope s1) (ref_index port)))
      as [Hn|(d & Hd & Hty)].
    + by rewrite Hn.
    + rewrite Hd. unfold bind at 1. cbn [gets]. unfold bind at 1.
      cbn [getData_while]. by rewrite Hty.
Qed.

Lemma getData_forwarding_outcome_witness :
  ports nested_node !! "in"
    = Some (port_with false None [OB "a"; OB "b"; CB "b"; D 5; CB "a"])
  /\ ("in" ∈ forwardBrackets nested_node)
  /\ live_ok nested_node "in" None
  /\ fst (getData [PName "in"] nested_node) = Return (One (VNum 5)).
Proof.
  assert (ports nested_node !! "in"
          = Some (port_with false None [OB "a"; OB "b"; CB "b"; D 5; CB "a"]))
    as Hp by (vm_compute; reflexivity).
  assert ("in" ∈ forwardBrackets nested_node) as Hf
    by (refine (bool_decide_unpack _ _); vm_compute; exact I).
  assert (live_ok nested_node "in" None) as Hok by (vm_compute; exact I).
  split; [exact Hp|]. split; [exact Hf|]. split; [exact Hok|].
  exact (getData_forwarding_outcome nested_node (PName "in") _
           Hp eq_refl Hf Hok).
Defined.

(** X14: after every forwarding read that returns, the bracket stack of
    the port holds as many frames as it held before, plus the opening and
    minus the closing brackets that stood in front of the data packet, and
    [result.__bracketContext[port]] refers to an array of its own that
    lists the same frames as the live stack. *)
Theorem forwarding_get_leaves_snapshot_of_stack (s : State) (port : portref)
    (p : InPort) :
  ports s !! ref_name port = Some p ->
  well_addressed port p ->
  ref_name port ∈ forwardBrackets s ->
  live_ok s (ref_name port) (ref_index port) ->
  underflows (length (stack_of s (ref_name port) (ref_index port)))
    (bracket_prefix (buffer p (scope s) (ref_index port))) = false ->
  exists s' live snap l,
    get [port] s
    = (Return (One (first_data (buffer p (scope s) (ref_index port)))), s')
    /\ stack_is s' (ref_name port) (ref_index port) live l
    /\ length l
       = depth_after (length (stack_of s (ref_name port) (ref_index port)))
           (bracket_prefix (buffer p (scope s) (ref_index port)))
    /\ snapshot_ref s' (ref_name port) = Some snap
    /\ snap <> live
    /\ arrays s' !! snap = Some l.
Proof.
  intros Hp Ha Hf Hok Hu.
  destruct (activated_stack s (ref_name port) (ref_index port))
    as (Hok1 & Hof & Hps & Hsc & Hfw).
  rewrite get_single. set (s1 := snd (activate s)) in *.
  rewrite <- Hps in Hp. rewrite <- Hfw in Hf.
  rewrite <- Hsc, <- Hof in Hu |- *.
  rewrite (get_port_forwarding_ref s1 port p Hp Ha Hf).
  destruct (forwarding_read_balanced s1 _ _ p Hp (Hok1 Hok) Hu)
    as (s' & live & snap & l & Hrun & Hrest).
  rewrite Hrun. by exists s', live, snap, l.
Qed.

Lemma forwarding_get_leaves_snapshot_of_stack_witness :
  ports nested_node !! "in"
    = Some (port_with false None [OB "a"; OB "b"; CB "b"; D 5; CB "a"])
  /\ ("in" ∈ forwardBrackets nested_node)
  /\ live_ok nested_node "in" None
  /\ underflows (length (stack_of nested_node "in" None))
       (bracket_prefix
          (buffer (port_with false None [OB "a"; OB "b"; CB "b"; D 5; CB "a"])
             (scope nested_node) None)) = false
  /\ exists s' live snap l,
       get [PName "in"] nested_node = (Return (One (Pkt (D 5))), s')
       /\ stack_is s' "in" None live l
       /\ length l = 1
       /\ snapshot_ref s' "in" = Some snap
       /\ snap <> live
       /\ arrays s' !! snap = Some l.
Proof.
  assert (ports nested_node !! "in"
          = Some (port_with false None [OB "a"; OB "b"; CB "b"; D 5; CB "a"]))
    as Hp by (vm_compute; reflexivity).
  assert ("in" ∈ forwardBrackets nested_node) as Hf
    by (refine (bool_decide_unpack _ _); vm_compute; exact I).
  assert (live_ok nested_node "in" None) as Hok by (vm_compute; exact I).
  assert (underflows (length (stack_of nested_node "in" None))
            (bracket_prefix
               (buffer
                  (port_with false None [OB "a"; OB "b"; CB "b"; D 5; CB "a"])
                  (scope nested_node) None)) = false) as Hu
    by (vm_compute; reflexivity).
  split; [exact Hp|]. split; [exact Hf|]. split; [exact Hok|].
  split; [exact Hu|].
  exact (forwarding_get_leaves_snapshot_of_stack nested_node (PName "in") _
           Hp eq_refl Hf Hok Hu).
Defined.

(** ** Closing a frame *)

Lemma forward_step_close_frame (s : State) port idx c r l f fr :
  ip_type c = closeBracket ->
  stack_is s port idx r (l ++ [f]) ->
  frames s !! f = Some fr ->
  exists s',
    forward_step port idx c s = (Return tt, s')
    /\ stack_is s' port idx r l
    /\ arrays s' = <[r := l]> (arrays s)
    /\ frames s' = <[f := closed_by fr c]> (frames s)
    /\ __bracketClosingBefore s'
       = Some (default [] (__bracketClosingBefore s) ++ [f])
    /\ scope s' = scope s /\ ports s' = ports s.
Proof.
  intros Hc [Hr Hl] Hfr. unfold stack_ref in Hr.
  unfold forward_step. rewrite Hc.
  unfold bind, gets, modify, ret, getBracketContext, array_pop, set_closeIp,
    array_read.
  destruct (__bracketClosingBefore s) as [cl|] eqn:Hcl; cbn;
    rewrite Hr; cbn; rewrite Hl; cbn; rewrite last_snoc, removelast_last; cbn;
    (eexists; split; [reflexivity|]);
    unfold stack_is, stack_ref, closed_by; cbn; rewrite Hr, Hfr, ?Hcl;
    (repeat split; try done);
    apply list_lookup_insert_eq; by eapply lookup_lt_Some.
Qed.

Lemma snapshot_context_closing (port : string) (idx : Index) (s : State) :
  __bracketClosingBefore (snd (snapshot_context port idx s))
  = __bracketClosingBefore s.
Proof.
  unfold snapshot_context, bind, gets, modify, ret, getBracketContext,
    array_slice.
  destruct (__bracketContext s); cbn;
    destruct (bracketContext s !! _); reflexivity.
Qed.

(** X15: when a forwarding port has the frame [f] on top of its bracket
    stack and its buffer starts with a closing bracket and a data packet,
    [get] returns the data packet, pops [f] from the stack, stores the
    closing bracket in the frame object as [closeIp], with the opening
    packet, ports and source of the frame untouched, and appends the frame
    to [result.__bracketClosingBefore].  Every other array, such as the
    snapshot an earlier read stored, is left as it was and so still refers
    to the frame that now carries the closing bracket. *)
Theorem forwarding_get_closes_top_frame (s : State) (port : portref)
    (p : InPort) (c d : IP) (rest : list IP) (r f : ref) (l : list ref)
    (fr : BracketContext) :
  ports s !! ref_name port = Some p ->
  well_addressed port p ->
  ref_name port ∈ forwardBrackets s ->
  buffer p (scope s) (ref_index port) = c :: d :: rest ->
  ip_type c = closeBracket -> ip_type d = data ->
  stack_is s (ref_name port) (ref_index port) r (l ++ [f]) ->
  frames s !! f = Some fr ->
  exists s',
    get [port] s = (Return (One (Pkt d)), s')
    /\ stack_is s' (ref_name port) (ref_index port) r l
    /\ frames s' !! f = Some (closed_by fr c)
    /\ __bracketClosingBefore s'
       = Some (default [] (__bracketClosingBefore s) ++ [f])
    /\ (forall a, a <> r -> a < length (arrays s) ->
          arrays s' !! a = arrays s !! a).
Proof.
  intros Hp Ha Hf Hb Hc Hd Hst Hfr.
  destruct (activation_only_fields _ _ (activate_activation_only s))
    as (Hps & Hsc & Hfw & Hbc & Harr & Hfrs & _ & Hcl).
  rewrite get_single. set (s1 := snd (activate s)) in *.
  assert (stack_is s1 (ref_name port) (ref_index port) r (l ++ [f])) as Hst1.
  { destruct Hst as [Hr Hl]. unfold stack_is, stack_ref in *.
    by rewrite Hbc, Hsc, Harr. }
  rewrite <- Hps in Hp. rewrite <- Hfw in Hf. rewrite <- Hsc in Hb.
  rewrite <- Hfrs in Hfr. rewrite <- Hcl, <- Harr.
  rewrite (get_port_forwarding_ref s1 port p Hp Ha Hf).
  destruct (forwarding_read_parts s1 _ (ref_index port) p Hp)
    as (s2 & p' & _ & Hpo & _ & _ & _ & Hrun).
  rewrite Hrun, Hb. cbn [bracket_prefix first_data]. rewrite Hc, Hd.
  assert (stack_is s2 (ref_name port) (ref_index port) r (l ++ [f])
          /\ frames s2 = frames s1 /\ arrays s2 = arrays s1
          /\ __bracketClosingBefore s2 = __bracketClosingBefore s1)
    as (Hst2 & Hfr2 & Harr2 & Hcl2).
  { rewrite Hpo. done. }
  rewrite <- Hfr2 in Hfr. rewrite <- Hcl2, <- Harr2.
  destruct (forward_step_close_frame s2 _ _ c r l f fr Hc Hst2 Hfr)
    as (s3 & Hstep & Hst3 & Harr3 & Hfr3 & Hcl3 & Hsc3 & _).
  cbn [forward_prefix]. unfold bind at 1. unfold bind at 1.
  rewrite Hstep. cbn [ret].
  destruct (snapshot_context_spec s3 _ _ r l Hst3)
    as (s4 & Hsnap & Hst4 & _ & Harr4 & Hfr4 & _).
  pose proof (snapshot_context_closing (ref_name port) (ref_index port) s3)
    as Hcl4.
  rewrite Hsnap in Hcl4. cbn [snd] in Hcl4.
  rewrite (bind_returns _ _ _ _ _ Hsnap). cbn.
  exists s4. split; [done|]. split; [done|]. split; [|split].
  - rewrite Hfr4, Hfr3. apply list_lookup_insert_eq. by eapply lookup_lt_Some.
  - by rewrite Hcl4, Hcl3.
  - intros a Hne Hlt. rewrite Harr4, Harr3.
    rewrite lookup_app_l by (by rewrite length_insert).
    by rewrite list_lookup_insert_ne.
Qed.

Lemma forwarding_get_closes_top_frame_witness :
  ports closing_node !! "in" = Some (port_with false None [CB "L"; D 8])
  /\ ("in" ∈ forwardBrackets closing_node)
  /\ stack_is closing_node "in" None 0 ([] ++ [0])
  /\ exists s',
       get [PName "in"] closing_node = (Return (One (Pkt (D 8))), s')
       /\ stack_is s' "in" None 0 []
       /\ frames s' !! 0
          = Some (closed_by (mkBracketContext (OB "L") [] "in" None) (CB "L"))
       /\ __bracketClosingBefore s' = Some [0]
       /\ (forall a, a <> 0 -> a < length (arrays closing_node) ->
             arrays s' !! a = arrays closing_node !! a).
Proof.
  assert (ports closing_node !! "in"
          = Some (port_with false None [CB "L"; D 8])) as Hp
    by (vm_compute; reflexivity).
  assert ("in" ∈ forwardBrackets closing_node) as Hf
    by (refine (bool_decide_unpack _ _); vm_compute; exact I).
  split; [exact Hp|]. split; [exact Hf|].
  split; [split; vm_compute; reflexivity|].
  apply (forwarding_get_closes_top_frame closing_node (PName "in") _
           (CB "L") (D 8) [] 0 0 [] (mkBracketContext (OB "L") [] "in" None)
           Hp eq_refl Hf).
  - vm_compute; reflexivity.
  - reflexivity.
  - reflexivity.
  - split; vm_compute; reflexivity.
  - vm_compute; reflexivity.
Defined.

(** ** What a read leaves alone *)

Lemma get_port_plain_ref (s : State) (port : portref) (p : InPort) :
  ports s !! ref_name port = Some p -> well_addressed port p ->
  ref_name port ∉ forwardBrackets s ->
  get_port port s = port_get (ref_name port) (scope s) (ref_index port) s.
Proof.
  intros Hp Ha Hf. unfold well_addressed in Ha.
  destruct port as [n|n i]; cbn in *;
    unfold get_port, port_deref, bind, isForwardingInport, gets;
    rewrite Hp, Ha; cbn; by rewrite bool_decide_eq_false_2.
Qed.

Section TouchesOnly.
Context (K : list (string * Index)) (sc0 : Scope).

#[local] Instance touches_only_preorder : PreOrder (touches_only K sc0).
Proof.
  split.
  - intros s Hs. done.
  - intros s1 s2 s3 H12 H23 Hs.
    destruct (H12 Hs) as (Hs2 & Hsh12 & Hp12).
    destruct (H23 Hs2) as (Hs3 & Hsh23 & Hp23).
    split; [done|]. split.
    + intros n. by rewrite Hsh23.
    + intros n sc idx H. rewrite Hp23 by done. by apply Hp12.
Qed.

Lemma touches_only_same (s s' : State) :
  ports s' = ports s -> scope s' = scope s -> touches_only K sc0 s s'.
Proof.
  intros Hp Hsc Hs. unfold port_shape, partition. rewrite Hp.
  split; [congruence|done].
Qed.

Lemma preserves_scope_bind {A} (k : Scope -> M A) :
  preserves (touches_only K sc0) (k sc0) ->
  preserves (touches_only K sc0) (bind (gets scope) k).
Proof.
  intros H s Hs. unfold bind, gets. cbn. rewrite Hs. by apply H.
Qed.

Lemma port_get_touch (port : string) (idx : Index) :
  (port, idx) ∈ K ->
  preserves (touches_only K sc0) (port_get port sc0 idx).
Proof.
  intros HK s Hs. unfold port_get, port_deref, bind.
  destruct (ports s !! port) as [p|] eqn:Hp; [|done].
  unfold InPort_get. destruct (buffer p sc0 idx) as [|x rest]; [done|].
  cbn. split; [done|]. unfold port_shape, partition. cbn. split.
  - intros n. destruct (decide (port = n)) as [<-|Hne].
    + by rewrite lookup_insert_eq, Hp.
    + by rewrite lookup_insert_ne.
  - intros n sc idx' Hout. destruct (decide (port = n)) as [<-|Hne].
    + rewrite lookup_insert_eq, Hp. cbn.
      apply lookup_insert_ne. intros [= <- <-]. by destruct Hout.
    + by rewrite lookup_insert_ne.
Qed.

Ltac touch :=
  repeat first
    [ solve [auto with nocore]
    | apply (preserves_ret (touches_only K sc0))
    | apply (preserves_throw (touches_only K sc0))
    | apply (preserves_out_of_fuel (touches_only K sc0))
    | apply preserves_scope_bind
    | apply (preserves_gets (touches_only K sc0))
    | apply preserves_modify; intros ?; apply touches_only_same; reflexivity
    | apply (preserves_bind (touches_only K sc0)); [|intros ?]
    | match goal with
      | |- preserves _ (match ?x with _ => _ end) => destruct x
      end ].

Lemma same_state_touch {A} (m : M A) :
  (forall s, ports (snd (m s)) = ports s /\ scope (snd (m s)) = scope s) ->
  preserves (touches_only K sc0) m.
Proof. intros H s. apply touches_only_same; apply H. Qed.

Lemma getBracketContext_touch port sc idx :
  preserves (touches_only K sc0) (getBracketContext port sc idx).
Proof.
  apply same_state_touch. intros s. unfold getBracketContext.
  by destruct (bracketContext s !! _).
Qed.

Lemma array_pop_touch r : preserves (touches_only K sc0) (array_pop r).
Proof.
  apply same_state_touch. intros s. unfold array_pop. by destruct (last _).
Qed.

Lemma bookkeeping_touch port idx prefix :
  preserves (touches_only K sc0) (forward_prefix port idx prefix)
  /\ preserves (touches_only K sc0) (snapshot_context port idx).
Proof.
  split.
  - apply same_state_touch. intros s.
    destruct (forward_prefix_buffers port idx prefix s) as [? ?]. done.
  - apply same_state_touch. intros s.
    destruct (snapshot_context_buffers port idx s) as [? ?]. done.
Qed.

Lemma read_until_data_touch fuel port idx prefix :
  (port, idx) ∈ K ->
  preserves (touches_only K sc0) (read_until_data fuel port idx prefix).
Proof.
  intros HK. revert prefix.
  induction fuel as [|fuel IH]; intros prefix; cbn [read_until_data].
  - touch.
  - apply preserves_scope_bind.
    apply (preserves_bind (touches_only K sc0)); [by apply port_get_touch|].
    intros got. touch. all: apply IH.
Qed.

Lemma __getForForwarding_touch port idx :
  (port, idx) ∈ K ->
  preserves (touches_only K sc0) (__getForForwarding port idx).
Proof.
  intros HK. unfold __getForForwarding.
  apply (preserves_bind (touches_only K sc0));
    [apply (preserves_gets (touches_only K sc0))|intros bound].
  apply (preserves_bind (touches_only K sc0));
    [by apply read_until_data_touch|intros [prefix dataIp]].
  destruct (bookkeeping_touch port idx prefix) as [H1 H2]. touch.
Qed.

Lemma touches_only_at {A} (m : Scope -> M A) :
  preserves (touches_only K sc0) (m sc0) ->
  forall s, touches_only K sc0 s (snd (m (scope s) s)).
Proof. intros H s Hs. rewrite Hs. by apply H. Qed.

Lemma get_port_touch (port : portref) :
  (ref_name port, ref_index port) ∈ K ->
  preserves (touches_only K sc0) (get_port port).
Proof.
  intros HK s.
  destruct (ports s !! ref_name port) as [p|] eqn:Hp.
  2:{ replace (snd (get_port port s)) with s; [reflexivity|].
      destruct port; cbn in Hp; unfold get_port, port_deref, bind;
        by rewrite Hp. }
  destruct (decide (addressable p
                    = match port with PName _ => false | PIdx _ _ => true end))
    as [Ha|Ha].
  2:{ replace (snd (get_port port s)) with s; [reflexivity|].
      destruct port; cbn in Hp, Ha; unfold get_port, port_deref, bind;
        rewrite Hp; by destruct (addressable p). }
  destruct (decide (ref_name port ∈ forwardBrackets s)) as [Hf|Hf].
  - rewrite (get_port_forwarding_ref s port p Hp Ha Hf).
    by apply __getForForwarding_touch.
  - rewrite (get_port_plain_ref s port p Hp Ha Hf).
    apply (touches_only_at (fun sc => port_get (ref_name port) sc (ref_index port))).
    by apply port_get_touch.
Qed.

Lemma get_loop_touch (args : list portref) :
  named_partitions args ⊆ K ->
  forall res, preserves (touches_only K sc0) (get_loop args res).
Proof.
  induction args as [|port rest IH]; intros HK res; cbn [get_loop]; [touch|].
  apply (preserves_bind (touches_only K sc0)).
  - apply get_port_touch. apply HK. cbn. left.
  - intros r. apply IH. intros k Hk. apply HK. cbn. by right.
Qed.

Lemma activate_touch : preserves (touches_only K sc0) activate.
Proof.
  apply same_state_touch. intros s.
  destruct (activation_only_fields _ _ (activate_activation_only s))
    as (Hps & Hsc & _). done.
Qed.

Lemma get_touch (params : list portref) :
  named_partitions (default_in (PName "in") params) ⊆ K ->
  preserves (touches_only K sc0) (get params).
Proof.
  intros HK. unfold get.
  apply (preserves_bind (touches_only K sc0)); [apply activate_touch|].
  intros _. apply (preserves_bind (touches_only K sc0));
    [by apply get_loop_touch|]. intros res. touch.
Qed.

Lemma get1_touch (port : portref) :
  (ref_name port, ref_index port) ∈ K ->
  preserves (touches_only K sc0) (get1 port).
Proof.
  intros HK. unfold get1.
  apply (preserves_bind (touches_only K sc0)).
  - apply get_touch. cbn. intros k Hk.
    inversion Hk as [|? ? ? Hk']; subst; [exact HK|inversion Hk'].
  - intros r. touch.
Qed.

Lemma getData_touch (params : list portref) :
  named_partitions (default_in (PName "in") params) ⊆ K ->
  preserves (touches_only K sc0) (getData params).
Proof.
  intros HK. unfold getData.
  assert (forall fuel port packet,
            (ref_name port, ref_index port) ∈ K ->
            preserves (touches_only K sc0) (getData_while fuel port packet))
    as Hw.
  { induction fuel as [|fuel IH]; intros port packet Hin; cbn [getData_while].
    - touch.
    - pose proof (get1_touch port Hin). pose proof (IH port).
      destruct (ip_type packet); touch; auto. }
  assert (forall args,
            named_partitions args ⊆ K ->
            forall datas,
              preserves (touches_only K sc0) (getData_forEach args datas))
    as Hl.
  { induction args as [|port rest IH]; intros Hsub datas;
      cbn [getData_forEach]; [touch|].
    assert ((ref_name port, ref_index port) ∈ K) as Hin
      by (apply Hsub; cbn; left).
    apply (preserves_bind (touches_only K sc0)).
    - unfold getData_port. pose proof (get1_touch port Hin).
      pose proof (fun fuel packet => Hw fuel port packet Hin). touch.
    - intros d. apply IH. intros k Hk. apply Hsub. cbn. by right. }
  apply (preserves_bind (touches_only K sc0)); [by apply Hl|].
  intros datas. touch.
Qed.

Lemma getStream_touch (params : list portref) :
  named_partitions (default_in (PName "in") params) ⊆ K ->
  preserves (touches_only K sc0) (getStream params).
Proof.
  intros HK. unfold getStream.
  assert (forall fuel port current v,
            (ref_name port, ref_index port) ∈ K ->
            preserves (touches_only K sc0)
              (getStream_while fuel port current v)) as Hw.
  { induction fuel as [|fuel IH]; intros port current v Hin;
      cbn [getStream_while].
    - touch.
    - pose proof (get1_touch port Hin). pose proof (IH port).
      touch; auto. }
  assert (forall args,
            named_partitions args ⊆ K ->
            forall datas,
              preserves (touches_only K sc0) (getStream_loop args datas))
    as Hl.
  { induction args as [|port rest IH]; intros Hsub datas;
      cbn [getStream_loop]; [touch|].
    assert ((ref_name port, ref_index port) ∈ K) as Hin
      by (apply Hsub; cbn; left).
    apply (preserves_bind (touches_only K sc0)).
    - unfold getStream_port. pose proof (get1_touch port Hin).
      pose proof (fun fuel current v => Hw fuel port current v Hin). touch.
    - intros d. apply IH. intros k Hk. apply Hsub. cbn. by right. }
  apply (preserves_bind (touches_only K sc0)); [by apply Hl|].
  intros datas. touch.
Qed.

End TouchesOnly.

(** X16: a read works on the partitions it is asked for and on no other:
    after [get], [getData] or [getStream], returned or failed, the scope
    is the same, the same ports are registered with the same kind and
    attachments, and every buffer partition other than those named by the
    arguments, under the scope of the invocation, holds the packets it
    held: other ports, other indices of an addressable port and other
    scopes are not read. *)
Theorem reads_leave_other_partitions_alone (params : list portref)
    (s : State) :
  leaves_alone (named_partitions (default_in (PName "in") params)) s
    (snd (get params s))
  /\ leaves_alone (named_partitions (default_in (PName "in") params)) s
       (snd (getData params s))
  /\ leaves_alone (named_partitions (default_in (PName "in") params)) s
       (snd (getStream params s)).
Proof.
  repeat split.
  all: try (apply (get_touch _ (scope s) params (reflexivity _) s eq_refl)).
  all: try (apply (getData_touch _ (scope s) params (reflexivity _) s eq_refl)).
  all: apply (getStream_touch _ (scope s) params (reflexivity _) s eq_refl).
Qed.

Lemma other_scope_untouched_example :
  partition (snd (get [PIdx "p" 0] partitioned_node)) "p" (Some "x"%string)
    (Some 0) = Some []
  /\ partition (snd (get [PIdx "p" 0] partitioned_node)) "p" (Some "y"%string)
       (Some 0) = Some [D 2]
  /\ partition (snd (get [PIdx "p" 0] partitioned_node)) "p" (Some "x"%string)
       (Some 1) = Some [D 3].
Proof. repeat split; vm_compute; reflexivity. Qed.

(** ** Calls on several ports *)

(** X17: a [get] on several ports is not all or nothing.  When the first
    port is a registered plain, non-forwarding port with a packet waiting
    and the second argument names a port that is missing, or an
    addressable port by its plain name, the call throws, and the packet of
    the first port has been taken from its buffer all the same. *)
Theorem get_consumes_before_it_fails (s : State) (a b : string)
    (pa : InPort) (x : IP) (rest : list IP) :
  ports s !! a = Some pa ->
  addressable pa = false ->
  a ∉ forwardBrackets s ->
  buffer pa (scope s) None = x :: rest ->
  a <> b ->
  (ports s !! b = None
   \/ exists pb, ports s !! b = Some pb /\ addressable pb = true) ->
  (exists e, fst (get [PName a; PName b] s) = Throw e)
  /\ exists pa',
       ports (snd (get [PName a; PName b] s)) !! a = Some pa'
       /\ buffer pa' (scope s) None = rest.
Proof.
  intros Hp Ha Hf Hb Hne Hbad.
  destruct (activation_only_fields _ _ (activate_activation_only s))
    as (Hps & Hsc & Hfw & _).
  assert (exists e,
            get [PName a; PName b] s
            = (Throw e,
               set_ports (insert a (with_buffer pa (scope s) None rest))
                 (snd (activate s)))) as [e He].
  { unfold get. rewrite (bind_returns _ _ _ _ _ (activate_run s)).
    set (s1 := snd (activate s)) in *.
    rewrite <- Hps in Hp, Hbad. rewrite <- Hsc in Hb |- *. rewrite <- Hfw in Hf.
    cbn [default_in get_loop].
    assert (get_port (PName a) s1
            = (Return (Pkt x),
               set_ports (insert a (with_buffer pa (scope s1) None rest)) s1))
      as Hga.
    { rewrite (get_port_plain s1 a pa Hp Ha Hf).
      apply (port_get_cons s1 a pa _ None x rest Hp Hb). }
    unfold bind at 1. rewrite (bind_returns _ _ _ _ _ Hga).
    set (s2 := set_ports _ s1).
    assert (ports s2 !! b = ports s1 !! b) as Hsame
      by (unfold s2; cbn; by rewrite lookup_insert_ne).
    unfold get_port, port_deref, bind. cbn beta. rewrite Hsame.
    destruct Hbad as [Hn|(pb & Hpb & Hab)].
    - rewrite Hn. by eexists.
    - rewrite Hpb, Hab. by eexists. }
  rewrite He. cbn [fst snd]. split; [by exists e|].
  exists (with_buffer pa (scope s) None rest). cbn.
  by rewrite lookup_insert_eq, buffer_with_buffer.
Qed.

Lemma get_consumes_before_it_fails_witness :
  ports two_ports_node !! "b" = Some (port_with false None [D 2])
  /\ ("b" ∉ forwardBrackets two_ports_node)
  /\ ports two_ports_node !! "nope" = None
  /\ (exists e, fst (get [PName "b"; PName "nope"] two_ports_node) = Throw e)
  /\ exists pa',
       ports (snd (get [PName "b"; PName "nope"] two_ports_node)) !! "b"
         = Some pa'
       /\ buffer pa' (scope two_ports_node) None = [].
Proof.
  assert (ports two_ports_node !! "b" = Some (port_with false None [D 2]))
    as Hp by (vm_compute; reflexivity).
  assert ("b" ∉ forwardBrackets two_ports_node) as Hf
    by (vm_compute; intros H; inversion H).
  assert (ports two_ports_node !! "nope" = None) as Hn
    by (vm_compute; reflexivity).
  split; [exact Hp|]. split; [exact Hf|]. split; [exact Hn|].
  apply (get_consumes_before_it_fails two_ports_node "b" "nope" _ (D 2) []
           Hp eq_refl Hf).
  - vm_compute; reflexivity.
  - discriminate.
  - left. exact Hn.
Defined.

Lemma get_loop_length (args : list portref) :
  forall (res res' : list maybeIP) (s s' : State),
    get_loop args res s = (Return res', s') ->
    length res' = length res + length args.
Proof.
  induction args as [|port rest IH]; intros res res' s s'; cbn [get_loop].
  - intros [= <- _]. cbn. lia.
  - unfold bind at 1. destruct (get_port port s) as [[r|e|] s1]; try done.
    intros H. apply IH in H. rewrite length_app in H. cbn in *. lia.
Qed.

Lemma getData_forEach_length (args : list portref) :
  forall (datas datas' : list value) (s s' : State),
    getData_forEach args datas s = (Return datas', s') ->
    length datas' = length datas + length args.
Proof.
  induction args as [|port rest IH]; intros datas datas' s s';
    cbn [getData_forEach].
  - intros [= <- _]. cbn. lia.
  - unfold bind at 1. destruct (getData_port port s) as [[r|e|] s1]; try done.
    intros H. apply IH in H. rewrite length_app in H. cbn in *. lia.
Qed.

(** X18: when [get] or [getData] returns a sequence, it has one entry for
    each requested port: an entry is pushed for every port, whether it had
    a packet or not. *)
Theorem get_and_getData_answer_port_by_port (params : list portref)
    (s : State) :
  (forall res, fst (get params s) = Return (Many res) ->
     length res = length params)
  /\ (forall datas, fst (getData params s) = Return (Many datas) ->
     length datas = length params).
Proof.
  split.
  - intros res. unfold get.
    rewrite (bind_returns _ _ _ _ _ (activate_run s)). unfold bind.
    destruct (get_loop _ [] _) as [[res'|e|] s'] eqn:E; try done.
    apply get_loop_length in E. cbn [length Nat.add] in E.
    destruct (length (default_in (PName "in") params) =? 1) eqn:El; [done|].
    cbn. intros [= <-]. rewrite E. destruct params as [|? [|? ?]]; done.
  - intros datas. unfold getData. unfold bind.
    destruct (getData_forEach _ [] _) as [[res'|e|] s'] eqn:E; try done.
    apply getData_forEach_length in E. cbn [length Nat.add] in E.
    destruct (length (default_in (PName "in") params) =? 1) eqn:El; [done|].
    cbn. intros [= <-]. rewrite E. destruct params as [|? [|? ?]]; done.
Qed.

Lemma get_and_getData_answer_port_by_port_witness :
  fst (get [PName "a"; PName "b"] idle_node)
    = Return (Many [Undefined; Undefined])
  /\ length [Undefined; Undefined] = length [PName "a"; PName "b"].
Proof.
  assert (fst (get [PName "a"; PName "b"] idle_node)
          = Return (Many [Undefined; Undefined])) as H
    by (vm_compute; reflexivity).
  split; [exact H|].
  exact (proj1 (get_and_getData_answer_port_by_port
                  [PName "a"; PName "b"] idle_node) _ H).
Defined.

Lemma getStream_port_empty (s : State) (n : string) :
  empty_plain_port s n ->
  getStream_port (PName n) s
  = (Return [SUndefined; SPackets []], snd (activate s)).
Proof.
  intros (p & Hp & Ha & Hf & Hb). unfold getStream_port. unfold bind at 1.
  rewrite get1_eq.
  destruct (activation_only_fields _ _ (activate_activation_only s))
    as (Hps & Hsc & Hfw & _).
  set (s1 := snd (activate s)) in *.
  rewrite <- Hps in Hp. rewrite <- Hsc in Hb. rewrite <- Hfw in Hf.
  rewrite (get_port_plain s1 n p Hp Ha Hf).
  by rewrite (port_get_nil s1 n p _ None Hp Hb).
Qed.

Lemma empty_plain_port_activated (s : State) (n : string) :
  empty_plain_port s n -> empty_plain_port (snd (activate s)) n.
Proof.
  intros (p & Hp & Ha & Hf & Hb).
  destruct (activation_only_fields _ _ (activate_activation_only s))
    as (Hps & Hsc & Hfw & _).
  exists p. by rewrite Hps, Hsc, Hfw.
Qed.

Lemma getStream_loop_empty (names : list string) :
  forall (datas : list StreamEntry) (s : State),
    Forall (empty_plain_port s) names ->
    fst (getStream_loop (PName <$> names) datas s)
    = Return (datas ++ flat_map (fun _ => [SUndefined; SPackets []]) names).
Proof.
  induction names as [|n rest IH]; intros datas s H.
  - cbn. by rewrite app_nil_r.
  - apply Forall_cons in H as [Hn Hrest].
    cbn [fmap list_fmap getStream_loop flat_map].
    rewrite (bind_returns _ _ _ _ _ (getStream_port_empty s n Hn)).
    rewrite IH.
    + by rewrite <- app_assoc.
    + eapply Forall_impl; [exact Hrest|].
      intros k. apply empty_plain_port_activated.
Qed.

(** X19: [getStream] pushes two entries for a port that has nothing to
    read, [undefined] and then the empty packet list.  Asked for one such
    port it therefore returns the empty list and not [undefined]; asked
    for several plain, non-forwarding ports that are all empty it returns
    twice as many entries as ports, so that the entries no longer line up
    with the request. *)
Theorem getStream_on_empty_ports (names : list string) (s : State) :
  Forall (empty_plain_port s) (default_in "in"%string names) ->
  fst (getStream (PName <$> names) s)
  = Return (if length (default_in "in"%string names) =? 1
            then One (SPackets [])
            else Many (flat_map (fun _ => [SUndefined; SPackets []])
                         (default_in "in"%string names))).
Proof.
  intros H. unfold getStream.
  replace (default_in (PName "in") (PName <$> names))
    with (PName <$> default_in "in"%string names) by (by destruct names).
  pose proof (getStream_loop_empty _ [] s H) as Hl. cbn [app] in Hl.
  unfold bind. destruct (getStream_loop _ [] s) as [o s']. cbn in Hl. subst o.
  rewrite length_fmap.
  destruct (default_in "in"%string names) as [|n [|m more]]; try done.
Qed.

Lemma getStream_on_empty_ports_witness :
  Forall (empty_plain_port idle_node) (default_in "in"%string ["a"; "b"]%string)
  /\ fst (getStream [PName "a"; PName "b"] idle_node)
     = Return (Many [SUndefined; SPackets []; SUndefined; SPackets []]).
Proof.
  assert (Forall (empty_plain_port idle_node)
            (default_in "in"%string ["a"; "b"]%string)) as H.
  { repeat constructor.
    - eexists. split; [vm_compute; reflexivity|]. split; [reflexivity|].
      split; [vm_compute; intros Hx; inversion Hx|reflexivity].
    - eexists. split; [vm_compute; reflexivity|]. split; [reflexivity|].
      split; [vm_compute; intros Hx; inversion Hx|reflexivity]. }
  split; [exact H|].
  exact (getStream_on_empty_ports ["a"; "b"]%string idle_node H).
Defined.

(** ** getData on a plain port *)

(** X20: on a registered plain, non-forwarding port, [getData] skips the
    brackets in front of the first data packet and returns its payload; it
    returns [undefined] when the buffer is empty, and fails with a
    TypeError when the buffer holds brackets and no data packet. *)
Theorem getData_skips_to_first_data (s : State) (port : string)
    (p : InPort) :
  ports s !! port = Some p ->
  addressable p = false ->
  port ∉ forwardBrackets s ->
  fst (getData [PName port] s)
  = match buffer p (scope s) None with
    | [] => Return (One VUndefined)
    | _ =>
        match first_data (buffer p (scope s) None) with
        | Pkt d => Return (One (ip_data d))
        | _ => Throw (TypeError "data")
        end
    end.
Proof. intros Hp Ha Hf. apply (getData_plain s port p Hp Ha Hf). Qed.

Lemma getData_skips_to_first_data_witness :
  ports two_ports_node !! "a" = Some (port_with false None [OB "x"; D 1])
  /\ ("a" ∉ forwardBrackets two_ports_node)
  /\ fst (getData [PName "a"] two_ports_node) = Return (One (VNum 1)).
Proof.
  assert (ports two_ports_node !! "a"
          = Some (port_with false None [OB "x"; D 1])) as Hp
    by (vm_compute; reflexivity).
  assert ("a" ∉ forwardBrackets two_ports_node) as Hf
    by (vm_compute; intros H; inversion H).
  split; [exact Hp|]. split; [exact Hf|].
  exact (getData_skips_to_first_data two_ports_node "a" _ Hp eq_refl Hf).
Defined.

(** ** getStream on a forwarding port *)

(** X21: on a registered forwarding port whose bracket stack is allocated,
    [getStream] never returns a bracketed stream: every read it makes
    hands it a data packet or [null], so it returns the first data packet
    of the buffer alone, and the empty list when the buffer holds no data
    packet; the brackets in front go to the bracket bookkeeping, and the
    call fails only on a closing bracket that meets an empty stack. *)
Theorem getStream_forwarding_single_packet (s : State) (port : portref)
    (p : InPort) :
  ports s !! ref_name port = Some p ->
  well_addressed port p ->
  ref_name port ∈ forwardBrackets s ->
  live_ok s (ref_name port) (ref_index port) ->
  fst (getStream [port] s)
  = if underflows (length (stack_of s (ref_name port) (ref_index port)))
         (bracket_prefix (buffer p (scope s) (ref_index port)))
    then Throw (TypeError "closeIp")
    else Return (One (SPackets
           (match first_data (buffer p (scope s) (ref_index port)) with
            | Pkt d => [d]
            | _ => []
            end))).
Proof.
  intros Hp Ha Hf Hok.
  destruct (activated_stack s (ref_name port) (ref_index port))
    as (Hok1 & Hof & Hps & Hsc & Hfw).
  unfold getStream. cbn [default_in getStream_loop].
  unfold bind at 1. unfold bind at 1. unfold getStream_port. unfold bind at 1.
  rewrite get1_eq. set (s1 := snd (activate s)) in *.
  rewrite <- Hps in Hp. rewrite <- Hfw in Hf. rewrite <- Hsc, <- Hof.
  rewrite (get_port_forwarding_ref s1 port p Hp Ha Hf).
  destruct (underflows _ _) eqn:Hu.
  - pose proof (forwarding_underflow s1 _ _ p Hp (Hok1 Hok) Hu) as Ht.
    destruct (__getForForwarding _ _ s1) as [o s']. cbn in Ht. by subst o.
  - destruct (forwarding_read_balanced s1 _ _ p Hp (Hok1 Hok) Hu)
      as (s' & live & snap & l & Hrun & _).
    rewrite Hrun.
    destruct (first_data_is_data (buffer p (scope s1) (ref_index port)))
      as [Hn|(d & Hd & Hty)].
    + by rewrite Hn.
    + rewrite Hd. unfold bind at 1. cbn [gets]. unfold bind at 1.
      cbn [getStream_while]. unfold stream_body. by rewrite Hty.
Qed.

Lemma getStream_forwarding_single_packet_witness :
  ports nested_node !! "in"
    = Some (port_with false None [OB "a"; OB "b"; CB "b"; D 5; CB "a"])
  /\ ("in" ∈ forwardBrackets nested_node)
  /\ live_ok nested_node "in" None
  /\ fst (getStream [PName "in"] nested_node)
     = Return (One (SPackets [D 5])).
Proof.
  assert (ports nested_node !! "in"
          = Some (port_with false None [OB "a"; OB "b"; CB "b"; D 5; CB "a"]))
    as Hp by (vm_compute; reflexivity).
  assert ("in" ∈ forwardBrackets nested_node) as Hf
    by (refine (bool_decide_unpack _ _); vm_compute; exact I).
  assert (live_ok nested_node "in" None) as Hok by (vm_compute; exact I).
  split; [exact Hp|]. split; [exact Hf|]. split; [exact Hok|].
  exact (getStream_forwarding_single_packet nested_node (PName "in") _
           Hp eq_refl Hf Hok).
Defined.
